(** * shogun-ipfs: the snapshot engine of [FileBackupAdapter] and the pin
      handling of [PinataService], embedded in Rocq.

    Sources embedded here:
    - [dist/adapters/fileBackupAdapter.js]  (class [FileBackupAdapter])
    - [dist/utils/encryption.js]            (class [Encryption])
    - [dist/ipfs/services/pinata.js]        (class [PinataService])
    - [dist/ipfs/services/ipfs-http-client.js] (class [IpfsService])
    - [dist/ipfs/services/base-storage.d.ts] (abstract class [StorageService])
    - [dist/core.js]                        (class [ShogunIpfs]: [uploadBuffer])

    Conventions.
    - A Node [Buffer] is a [list byte].
    - A JavaScript string is a [string] holding the bytes of its UTF-8
      encoding.  Every string the program builds is well formed (it comes
      from a literal, from [Buffer.toString] or from [JSON.stringify]), so
      [Buffer.from (s)], [fs.writeFile (p, s)] and the UTF-8 step of
      [sha3_256 (s)] are the identity on the representation.
    - An [async] method is a computation in the monad [M]: it threads the
      world (file system, backend, clock, logs) and either returns a value
      or throws a JavaScript exception. *)

From stdpp Require Import gmap strings list.
From Stdlib Require Import ZArith Ascii String Lia DecimalString.
From Stdlib Require Import Strings.Byte.

Local Open Scope string_scope.
Local Open Scope Z_scope.
Local Open Scope list_scope.

(** ** Buffers and strings *)

Abbreviation Buffer := (list byte).

#[global] Instance byte_eq_decision : EqDecision byte := Byte.byte_eq_dec.

Definition byte_to_Z (b : byte) : Z := Z.of_N (Byte.to_N b).

Definition byte_of_Z (z : Z) : byte :=
  match Byte.of_N (Z.to_N (z mod 256)) with
  | Some b => b
  | None => x00
  end.

(** [Buffer.from (s)] with the default encoding ['utf8']. *)
Definition Buffer_from (s : string) : Buffer := list_byte_of_string s.

(** The string with the given UTF-8 bytes. *)
Definition string_of_bytes (bs : Buffer) : string := string_of_list_byte bs.

Definition chars (s : string) : list ascii := list_ascii_of_string s.
Definition unchars (l : list ascii) : string := string_of_list_ascii l.

Definition char_code (c : ascii) : Z := Z.of_N (N_of_ascii c).
Definition char_of_code (z : Z) : ascii := ascii_of_N (Z.to_N z).

(** [s.includes (needle)]. *)
Fixpoint includes (needle s : string) : bool :=
  String.prefix needle s
  || match s with
     | EmptyString => false
     | String _ s' => includes needle s'
     end.

(** JavaScript truthiness of a string value: the empty string is falsy. *)
Definition truthy_string (s : string) : bool :=
  match s with EmptyString => false | _ => true end.

(** Truthiness of a possibly [undefined] string property. *)
Definition truthy_opt (o : option string) : bool :=
  match o with Some s => truthy_string s | None => false end.

(** [String.prototype.toLowerCase] on the ASCII range.  The extension
    tables below are ASCII; no non-ASCII letter lowercases into them. *)
Definition to_lower_char (c : ascii) : ascii :=
  let n := char_code c in
  if (65 <=? n) && (n <=? 90) then char_of_code (n + 32) else c.

Definition toLowerCase (s : string) : string := unchars (map to_lower_char (chars s)).

(** [String (n)] for a natural number. *)
Definition decimal (n : nat) : string := NilEmpty.string_of_uint (Nat.to_uint n).

(** [l] cut into consecutive pieces of [n] elements (the last one may be
    shorter); [fuel] bounds the number of pieces. *)
Fixpoint chunksOf {A} (fuel n : nat) (l : list A) : list (list A) :=
  match fuel with
  | O => []
  | S fuel' =>
      match l with
      | [] => []
      | _ => take n l :: chunksOf fuel' n (drop n l)
      end
  end.

(** ** [Buffer.toString ('base64')] and [Buffer.from (s, 'base64')] *)

Module Base64.

Definition alphabet : string :=
  "ABCDEFGHIJKLMNOPQRSTUVWXYZabcdefghijklmnopqrstuvwxyz0123456789+/".

Definition digit (n : Z) : ascii :=
  match String.get (Z.to_nat n) alphabet with
  | Some c => c
  | None => "="%char
  end.

(** Three bytes become four digits; a final group of one or two bytes is
    padded with [=]. *)
Fixpoint encode_chars (bs : list Z) : list ascii :=
  match bs with
  | [] => []
  | [a] =>
      [digit (a / 4); digit ((a mod 4) * 16); "="%char; "="%char]
  | [a; b] =>
      [digit (a / 4); digit ((a mod 4) * 16 + b / 16);
       digit ((b mod 16) * 4); "="%char]
  | a :: b :: c :: rest =>
      digit (a / 4) :: digit ((a mod 4) * 16 + b / 16)
        :: digit ((b mod 16) * 4 + c / 64) :: digit (c mod 64)
        :: encode_chars rest
  end.

Definition encode (buf : Buffer) : string :=
  unchars (encode_chars (map byte_to_Z buf)).

(** Node's [unbase64] table: the standard and the URL-safe alphabet. *)
Definition unbase64 (c : ascii) : option Z :=
  let n := char_code c in
  if (65 <=? n) && (n <=? 90) then Some (n - 65)
  else if (97 <=? n) && (n <=? 122) then Some (n - 71)
  else if (48 <=? n) && (n <=? 57) then Some (n + 4)
  else if (n =? 43) || (n =? 45) then Some 62
  else if (n =? 47) || (n =? 95) then Some 63
  else None.

(** The legal digits in front of the first [=]; any other character is
    skipped, as Node's decoder does. *)
Fixpoint sextets (cs : list ascii) : list Z :=
  match cs with
  | [] => []
  | c :: rest =>
      if Ascii.eqb c "="%char then []
      else match unbase64 c with
           | Some v => v :: sextets rest
           | None => sextets rest
           end
  end.

Fixpoint decode_sextets (vs : list Z) : list Z :=
  match vs with
  | a :: b :: c :: d :: rest =>
      (a * 4 + b / 16) :: ((b mod 16) * 16 + c / 4) :: ((c mod 4) * 64 + d)
        :: decode_sextets rest
  | [a; b; c] => [a * 4 + b / 16; (b mod 16) * 16 + c / 4]
  | [a; b] => [a * 4 + b / 16]
  | _ => []
  end.

Definition decode (s : string) : Buffer :=
  map byte_of_Z (decode_sextets (sextets (chars s))).

End Base64.

(** ** [Buffer.toString ('utf8')] *)

Module Utf8.

(** Decoder state: the bytes of the sequence in progress, how many
    continuation bytes are still needed, and the range allowed for the
    next one. *)
Record state := mkState {
  pending : list Z;
  needed : nat;
  lower : Z;
  upper : Z;
}.

Definition initial : state :=
  {| pending := []; needed := 0; lower := 0x80; upper := 0xBF |}.

(** U+FFFD REPLACEMENT CHARACTER, in UTF-8. *)
Definition replacement : list Z := [0xEF; 0xBF; 0xBD].

(** A byte read with no sequence in progress. *)
Definition start (b : Z) : list Z * state :=
  if b <=? 0x7F then ([b], initial)
  else if (0xC2 <=? b) && (b <=? 0xDF) then
    ([], {| pending := [b]; needed := 1; lower := 0x80; upper := 0xBF |})
  else if (0xE0 <=? b) && (b <=? 0xEF) then
    ([], {| pending := [b]; needed := 2;
            lower := if b =? 0xE0 then 0xA0 else 0x80;
            upper := if b =? 0xED then 0x9F else 0xBF |})
  else if (0xF0 <=? b) && (b <=? 0xF4) then
    ([], {| pending := [b]; needed := 3;
            lower := if b =? 0xF0 then 0x90 else 0x80;
            upper := if b =? 0xF4 then 0x8F else 0xBF |})
  else (replacement, initial).

(** One byte: a byte that cannot continue the sequence in progress ends
    it with a replacement character and is read again from the initial
    state. *)
Definition step (st : state) (b : Z) : list Z * state :=
  match needed st with
  | O => start b
  | S n =>
      if (lower st <=? b) && (b <=? upper st) then
        match n with
        | O => (pending st ++ [b], initial)
        | S _ => ([], {| pending := pending st ++ [b]; needed := n;
                         lower := 0x80; upper := 0xBF |})
        end
      else
        let '(out, st') := start b in (replacement ++ out, st')
  end.

Fixpoint run (st : state) (bs : list Z) : list Z :=
  match bs with
  | [] => match needed st with O => [] | S _ => replacement end
  | b :: rest => let '(out, st') := step st b in out ++ run st' rest
  end.

(** The string [buf.toString ('utf8')], as UTF-8 bytes: well-formed input
    is unchanged, every maximal ill-formed part becomes U+FFFD. *)
Definition decode (buf : Buffer) : string :=
  string_of_bytes (map byte_of_Z (run initial (map byte_to_Z buf))).

End Utf8.

(** ** [JSON.stringify] of a string *)

Module Json.

Definition hex_digit (n : Z) : ascii :=
  char_of_code (if n <? 10 then 48 + n else 87 + n).

Definition dquote : ascii := char_of_code 34.
Definition backslash : ascii := char_of_code 92.

Definition escape_char (c : ascii) : list ascii :=
  let n := char_code c in
  if n =? 34 then [backslash; dquote]
  else if n =? 92 then chars "\\"
  else if n =? 8 then chars "\b"
  else if n =? 9 then chars "\t"
  else if n =? 10 then chars "\n"
  else if n =? 12 then chars "\f"
  else if n =? 13 then chars "\r"
  else if n <? 32 then chars "\u00" ++ [hex_digit (n / 16); hex_digit (n mod 16)]
  else [c].

(** [QuoteJSONString]. *)
Definition quote (s : string) : string :=
  unchars (dquote :: flat_map escape_char (chars s) ++ [dquote]).

(** A [key:value] member list between braces. *)
Definition object (members : list string) : string :=
  "{" +:+ String.concat "," members +:+ "}".

Definition member (key value : string) : string := quote key +:+ ":" +:+ value.

End Json.

(** ** [sha3_256] of the npm package [js-sha3] (FIPS 202) *)

Module Keccak.

Definition mask64 : Z := 0xFFFFFFFFFFFFFFFF.

Definition rotl64 (x n : Z) : Z :=
  Z.land (Z.lor (Z.shiftl x n) (Z.shiftr x (64 - n))) mask64.

(** The state is 25 lanes of 64 bits; lane [(x, y)] is at [x + 5 * y]. *)
Definition lane (st : list Z) (x y : nat) : Z :=
  nth (x mod 5 + 5 * (y mod 5))%nat st 0.

Definition coords : list (nat * nat) :=
  flat_map (fun y => map (fun x => (x, y)) (seq 0 5)) (seq 0 5).

Definition round_constants : list Z :=
  [0x0000000000000001; 0x0000000000008082; 0x800000000000808A;
   0x8000000080008000; 0x000000000000808B; 0x0000000080000001;
   0x8000000080008081; 0x8000000000008009; 0x000000000000008A;
   0x0000000000000088; 0x0000000080008009; 0x000000008000000A;
   0x000000008000808B; 0x800000000000008B; 0x8000000000008089;
   0x8000000000008003; 0x8000000000008002; 0x8000000000000080;
   0x000000000000800A; 0x800000008000000A; 0x8000000080008081;
   0x8000000000008080; 0x0000000080000001; 0x8000000080008008].

Definition rotation_offsets : list Z :=
  [ 0;  1; 62; 28; 27;
   36; 44;  6; 55; 20;
    3; 10; 43; 25; 39;
   41; 45; 15; 21;  8;
   18;  2; 61; 56; 14].

Definition theta (st : list Z) : list Z :=
  let c x := fold_left Z.lxor (map (fun y => lane st x y) (seq 0 5)) 0 in
  let d x := Z.lxor (c (x + 4)%nat) (rotl64 (c (x + 1)%nat) 1) in
  map (fun '(x, y) => Z.lxor (lane st x y) (d x)) coords.

(** Lane [(x, y)] rotated by its offset moves to [(y, 2x + 3y)]; read
    backwards, the lane at [(x', y')] comes from [(x' + 3y', x')]. *)
Definition rho_pi (st : list Z) : list Z :=
  map (fun '(x', y') =>
         let x := ((x' + 3 * y') mod 5)%nat in
         let y := x' in
         rotl64 (lane st x y) (nth (x + 5 * y)%nat rotation_offsets 0))
      coords.

Definition chi (st : list Z) : list Z :=
  map (fun '(x, y) =>
         Z.lxor (lane st x y)
                (Z.land (Z.lxor (lane st (x + 1) y) mask64)
                        (lane st (x + 2) y)))
      coords.

Definition iota (rc : Z) (st : list Z) : list Z :=
  match st with
  | [] => []
  | a :: rest => Z.lxor a rc :: rest
  end.

Definition round (st : list Z) (rc : Z) : list Z :=
  iota rc (chi (rho_pi (theta st))).

Definition keccak_f (st : list Z) : list Z := fold_left round round_constants st.

Fixpoint of_le_bytes (bs : list Z) : Z :=
  match bs with
  | [] => 0
  | b :: rest => b + 256 * of_le_bytes rest
  end.

Fixpoint to_le_bytes (n : nat) (z : Z) : list Z :=
  match n with
  | O => []
  | S n' => (z mod 256) :: to_le_bytes n' (z / 256)
  end.

(** SHA3-256: capacity 512 bits, so 136 bytes are absorbed per block. *)
Definition rate : nat := 136.

(** Domain bits [01] and the [pad10*1] rule, on bytes. *)
Definition pad (msg : list Z) : list Z :=
  let q := (rate - List.length msg mod rate)%nat in
  if (q =? 1)%nat then msg ++ [0x86]
  else msg ++ [0x06] ++ repeat 0 (q - 2) ++ [0x80].

Definition absorb (st block : list Z) : list Z :=
  let lanes := map of_le_bytes (chunksOf 25 8 block) in
  keccak_f (map (fun '(a, i) => Z.lxor a (nth i lanes 0)) (combine st (seq 0 25))).

Definition sha3_256_bytes (msg : list Z) : list Z :=
  let p := pad msg in
  let st := fold_left absorb (chunksOf (List.length p) rate p) (repeat 0 25) in
  flat_map (to_le_bytes 8) (take 4 st).

End Keccak.

Fixpoint hex_of_bytes (bs : list Z) : string :=
  match bs with
  | [] => EmptyString
  | b :: rest =>
      String (Json.hex_digit (b / 16))
             (String (Json.hex_digit (b mod 16)) (hex_of_bytes rest))
  end.

(** [sha3_256 (message)]: the digest of the UTF-8 bytes of [message], in
    lowercase hexadecimal. *)
Definition sha3_256 (message : string) : string :=
  hex_of_bytes (Keccak.sha3_256_bytes (map byte_to_Z (Buffer_from message))).

(** ** The [path] module of Node (POSIX flavour) *)

Module Path.

Definition slash : ascii := "/"%char.
Definition dot : ascii := "."%char.
Definition is_slash (c : ascii) : bool := Ascii.eqb c slash.
Definition is_dot (c : ascii) : bool := Ascii.eqb c dot.

Fixpoint drop_while {A} (p : A -> bool) (l : list A) : list A :=
  match l with
  | [] => []
  | a :: rest => if p a then drop_while p rest else l
  end.

Fixpoint take_while {A} (p : A -> bool) (l : list A) : list A :=
  match l with
  | [] => []
  | a :: rest => if p a then a :: take_while p rest else []
  end.

(** The segments between slashes; [cur] is the segment being read. *)
Fixpoint split_from (cur : list ascii) (cs : list ascii) : list string :=
  match cs with
  | [] => [unchars (rev cur)]
  | c :: rest =>
      if is_slash c then unchars (rev cur) :: split_from [] rest
      else split_from (c :: cur) rest
  end.

Definition split (p : string) : list string := split_from [] (chars p).

(** [normalizeString]: [acc] holds the segments kept so far, last first. *)
Fixpoint normalize_segments (allowAboveRoot : bool) (acc segs : list string)
  : list string :=
  match segs with
  | [] => rev acc
  | seg :: rest =>
      if String.eqb seg "" || String.eqb seg "." then
        normalize_segments allowAboveRoot acc rest
      else if String.eqb seg ".." then
        match acc with
        | last :: acc' =>
            if String.eqb last ".." then
              normalize_segments allowAboveRoot
                (if allowAboveRoot then seg :: acc else acc) rest
            else normalize_segments allowAboveRoot acc' rest
        | [] =>
            normalize_segments allowAboveRoot
              (if allowAboveRoot then [seg] else []) rest
        end
      else normalize_segments allowAboveRoot (seg :: acc) rest
  end.

Definition starts_with_slash (p : string) : bool :=
  match p with String c _ => is_slash c | EmptyString => false end.

Definition ends_with_slash (p : string) : bool :=
  match rev (chars p) with c :: _ => is_slash c | [] => false end.

Definition normalize (p : string) : string :=
  if String.eqb p "" then "."
  else
    let isAbsolute := starts_with_slash p in
    let trailingSeparator := ends_with_slash p in
    let body := String.concat "/" (normalize_segments (negb isAbsolute) [] (split p)) in
    if String.eqb body "" then
      if isAbsolute then "/" else if trailingSeparator then "./" else "."
    else
      let body := if trailingSeparator then body +:+ "/" else body in
      if isAbsolute then "/" +:+ body else body.

(** [path.join (a, b)]. *)
Definition join (a b : string) : string :=
  if String.eqb a "" then
    if String.eqb b "" then "." else normalize b
  else if String.eqb b "" then normalize a
  else normalize (a +:+ "/" +:+ b).

(** The last segment, trailing slashes ignored, as a character list. *)
Definition basename_chars (p : string) : list ascii :=
  rev (take_while (fun c => negb (is_slash c)) (drop_while is_slash (rev (chars p)))).

(** [path.basename (p)]. *)
Definition basename (p : string) : string := unchars (basename_chars p).

(** [path.extname (p)]: from the last dot of the base name, unless there
    is no dot, the base name begins with that dot, or it is [..]. *)
Definition extname (p : string) : string :=
  let b := rev (basename_chars p) in
  let after := take_while (fun c => negb (is_dot c)) b in
  match drop_while (fun c => negb (is_dot c)) b with
  | [] => ""
  | _ :: pre =>
      match pre, after with
      | [], _ => ""
      | [c], [] => if is_dot c then "" else "."
      | _, _ => unchars (dot :: rev after)
      end
  end.

(** [path.dirname (p)]. *)
Definition dirname (p : string) : string :=
  if String.eqb p "" then "."
  else
    let cs := chars p in
    let indexed := rev (drop 1 (combine (seq 0 (List.length cs)) cs)) in
    let past_name :=
      drop_while (fun ic => negb (is_slash (snd ic)))
                 (drop_while (fun ic => is_slash (snd ic)) indexed) in
    match past_name with
    | [] => if starts_with_slash p then "/" else "."
    | (i, _) :: _ =>
        if starts_with_slash p && (i =? 1)%nat then "//"
        else unchars (take i cs)
    end.

End Path.

(** ** File classification ([isBinaryFile], [getMimeType]) *)

Definition binaryExtensions : list string :=
  [".png"; ".jpg"; ".jpeg"; ".gif"; ".bmp"; ".pdf"; ".doc"; ".docx";
   ".xls"; ".xlsx"; ".zip"; ".rar"; ".7z"; ".tar"; ".gz"].

Definition isBinaryFile (filename : string) : bool :=
  let ext := toLowerCase (Path.extname filename) in
  existsb (String.eqb ext) binaryExtensions.

Definition mimeTypes : list (string * string) :=
  [(".png", "image/png"); (".jpg", "image/jpeg"); (".jpeg", "image/jpeg");
   (".gif", "image/gif"); (".bmp", "image/bmp"); (".pdf", "application/pdf")].

Fixpoint assoc_lookup (key : string) (table : list (string * string)) : option string :=
  match table with
  | [] => None
  | (k, v) :: rest => if String.eqb k key then Some v else assoc_lookup key rest
  end.

Definition getMimeType (filename : string) : string :=
  let ext := toLowerCase (Path.extname filename) in
  match assoc_lookup ext mimeTypes with
  | Some m => m
  | None => "application/octet-stream"
  end.

(** ** Exceptions, results and the monad of [async] methods *)

(** A thrown value: an [Error] object with its message, or any other value
    (kept as the text [String (value)] gives). *)
Inductive exn :=
| Error (message : string)
| NonError (text : string).

(** [error instanceof Error ? error.message : String (error)]. *)
Definition error_text (e : exn) : string :=
  match e with
  | Error message => message
  | NonError text => text
  end.

(** [error instanceof Error && error.message.includes (needle)]. *)
Definition message_includes (needle : string) (e : exn) : bool :=
  match e with
  | Error message => includes needle message
  | NonError _ => false
  end.

Inductive Result (A : Type) :=
| Ok (value : A)
| Throw (error : exn).
Arguments Ok {A} value.
Arguments Throw {A} error.

(** *** The file system *)

#[local] Set Warnings "-register-all".

Inductive node :=
| File (content : Buffer)
| Dir (entries : list (string * node)).

Inductive FsOp :=
| OpReaddir (path : string)
| OpStat (path : string)
| OpReadFile (path : string)
| OpCreateReadStream (path : string)
| OpCloseStream (path : string)
| OpEnsureDir (path : string)
| OpWriteFile (path : string) (data : Buffer).

(** Calls made on the [StorageService] object held by the adapter. *)
Inductive StorageCall :=
| CallUploadJson (name : string)
| CallGet (hash : string)
| CallIsPinned (hash : string)
| CallUnpin (hash : string).

(** The world an [async] method runs in.  [backend] is everything behind
    the storage service (its own fields and the remote side). *)
Record World (B : Type) := mkWorld {
  fs : node;
  fs_log : list FsOp;
  backend : B;
  storage_calls : list StorageCall;
  clock : Z;
  entropy : nat;
}.
Arguments mkWorld {B}.
Arguments fs {B}.
Arguments fs_log {B}.
Arguments backend {B}.
Arguments storage_calls {B}.
Arguments clock {B}.
Arguments entropy {B}.

Definition M (B A : Type) : Type := World B -> Result A * World B.

Section Monad.
Context {B : Type}.

Definition ret {A} (a : A) : M B A := fun w => (Ok a, w).

Definition bind {A C} (c : M B A) (k : A -> M B C) : M B C :=
  fun w =>
    match c w with
    | (Ok a, w') => k a w'
    | (Throw e, w') => (Throw e, w')
    end.

Definition throw {A} (e : exn) : M B A := fun w => (Throw e, w).

(** [try { body } catch (error) { handler }]: what [body] did to the
    world before it threw stays done. *)
Definition try_catch {A} (body : M B A) (handler : exn -> M B A) : M B A :=
  fun w =>
    match body w with
    | (Ok a, w') => (Ok a, w')
    | (Throw e, w') => handler e w'
    end.

(** [try { body } finally { cleanup }]. *)
Definition try_finally {A} (body : M B A) (cleanup : M B unit) : M B A :=
  fun w =>
    match body w with
    | (r, w') =>
        match cleanup w' with
        | (Ok _, w'') => (r, w'')
        | (Throw e, w'') => (Throw e, w'')
        end
    end.

Definition get_world : M B (World B) := fun w => (Ok w, w).
Definition put_world (w : World B) : M B unit := fun _ => (Ok tt, w).

Definition of_result {A} (r : Result A) : M B A := fun w => (r, w).

End Monad.

Notation "x <- c ;; k" := (bind c (fun x => k))
  (at level 100, c at next level, right associativity).
Notation "c ;;; k" := (bind c (fun _ => k))
  (at level 100, right associativity).

(** *** File-system calls ([fs-extra]) *)

Module Fs.

Inductive code := ENOENT | ENOTDIR | EISDIR | EEXIST.

Definition describe (c : code) : string :=
  match c with
  | ENOENT => "ENOENT: no such file or directory"
  | ENOTDIR => "ENOTDIR: not a directory"
  | EISDIR => "EISDIR: illegal operation on a directory"
  | EEXIST => "EEXIST: file already exists"
  end.

Definition error (c : code) (syscall path : string) : exn :=
  Error (describe c +:+ ", " +:+ syscall +:+ " '" +:+ path +:+ "'").

Fixpoint find_entry (name : string) (entries : list (string * node)) : option node :=
  match entries with
  | [] => None
  | (n, child) :: rest =>
      if String.eqb n name then Some child else find_entry name rest
  end.

Fixpoint set_entry (name : string) (child : node) (entries : list (string * node))
  : list (string * node) :=
  match entries with
  | [] => [(name, child)]
  | (n, c) :: rest =>
      if String.eqb n name then (n, child) :: rest
      else (n, c) :: set_entry name child rest
  end.

(** The names a path walks through, from the root of the model (which
    stands for both [/] and the working directory). *)
Definition segments (path : string) : list string :=
  Path.normalize_segments false [] (Path.split path).

Fixpoint lookup (segs : list string) (n : node) : code + node :=
  match segs with
  | [] => inr n
  | seg :: rest =>
      match n with
      | File _ => inl ENOTDIR
      | Dir entries =>
          match find_entry seg entries with
          | Some child => lookup rest child
          | None => inl ENOENT
          end
      end
  end.

(** [mkdir -p]: missing directories are created; a file on the way is an
    error. *)
Fixpoint mkdirp (segs : list string) (n : node) : code + node :=
  match n with
  | File _ => inl (match segs with [] => EEXIST | _ => ENOTDIR end)
  | Dir entries =>
      match segs with
      | [] => inr n
      | seg :: rest =>
          let child :=
            match find_entry seg entries with
            | Some c => c
            | None => Dir []
            end in
          match mkdirp rest child with
          | inr child' => inr (Dir (set_entry seg child' entries))
          | inl c => inl c
          end
      end
  end.

(** Create or replace the file at [segs]; its directory must exist. *)
Fixpoint write (segs : list string) (data : Buffer) (n : node) : code + node :=
  match segs with
  | [] =>
      match n with
      | File _ => inr (File data)
      | Dir _ => inl EISDIR
      end
  | seg :: rest =>
      match n with
      | File _ => inl ENOTDIR
      | Dir entries =>
          match find_entry seg entries with
          | Some child =>
              match write rest data child with
              | inr child' => inr (Dir (set_entry seg child' entries))
              | inl c => inl c
              end
          | None =>
              match rest with
              | [] => inr (Dir (set_entry seg (File data) entries))
              | _ => inl ENOENT
              end
          end
      end
  end.

(** The content of the regular file at [path], if there is one. *)
Definition read (root : node) (path : string) : option Buffer :=
  match lookup (segments path) root with
  | inr (File content) => Some content
  | _ => None
  end.

End Fs.

(** What [fs.stat] tells the program. *)
Module Stats.
Record t := make {
  size : Z;
  isDirectory : bool;
}.
End Stats.

Definition stats_of (n : node) : Stats.t :=
  match n with
  | File content =>
      {| Stats.size := Z.of_nat (List.length content); Stats.isDirectory := false |}
  | Dir _ => {| Stats.size := 4096; Stats.isDirectory := true |}
  end.

(** The [highWaterMark] of [fs.createReadStream]: 64 KiB per chunk. *)
Definition highWaterMark : nat := Z.to_nat 65536.

Section World.
Context {B : Type}.

Definition log_fs (op : FsOp) : M B unit :=
  fun w => (Ok tt, mkWorld (fs w) (fs_log w ++ [op]) (backend w)
                           (storage_calls w) (clock w) (entropy w)).

Definition set_fs (root : node) : M B unit :=
  fun w => (Ok tt, mkWorld root (fs_log w) (backend w)
                           (storage_calls w) (clock w) (entropy w)).

Definition log_call (c : StorageCall) : M B unit :=
  fun w => (Ok tt, mkWorld (fs w) (fs_log w) (backend w)
                           (storage_calls w ++ [c]) (clock w) (entropy w)).

Definition set_backend (b : B) : M B unit :=
  fun w => (Ok tt, mkWorld (fs w) (fs_log w) b
                           (storage_calls w) (clock w) (entropy w)).

Definition get_backend : M B B := fun w => (Ok (backend w), w).

(** [Date.now ()]. *)
Definition Date_now : M B Z := fun w => (Ok (clock w), w).

(** [await new Promise (resolve => setTimeout (resolve, delay))]: the
    clock moves on by [delay] milliseconds. *)
Definition sleep (delay : Z) : M B unit :=
  fun w => (Ok tt, mkWorld (fs w) (fs_log w) (backend w)
                           (storage_calls w) (clock w + delay) (entropy w)).

(** The position in the stream of random draws, advanced by one. *)
Definition next_entropy : M B nat :=
  fun w => (Ok (entropy w), mkWorld (fs w) (fs_log w) (backend w)
                                    (storage_calls w) (clock w) (S (entropy w))).

Definition fs_lookup (syscall path : string) : M B node :=
  fun w =>
    match Fs.lookup (Fs.segments path) (fs w) with
    | inr n => (Ok n, w)
    | inl c => (Throw (Fs.error c syscall path), w)
    end.

(** [fs.readdir (path, { withFileTypes: true })]: the entries in
    directory order; each one carries the subtree it names. *)
Definition fs_readdir (path : string) : M B (list (string * node)) :=
  log_fs (OpReaddir path) ;;;
  n <- fs_lookup "scandir" path ;;
  match n with
  | Dir entries => ret entries
  | File _ => throw (Fs.error Fs.ENOTDIR "scandir" path)
  end.

(** [fs.stat (path)]. *)
Definition fs_stat (path : string) : M B Stats.t :=
  log_fs (OpStat path) ;;;
  n <- fs_lookup "stat" path ;;
  ret (stats_of n).

(** [fs.readFile (path)]. *)
Definition fs_readFile (path : string) : M B Buffer :=
  log_fs (OpReadFile path) ;;;
  n <- fs_lookup "open" path ;;
  match n with
  | File content => ret content
  | Dir _ => throw (Fs.error Fs.EISDIR "read" path)
  end.

(** [fs.createReadStream (path)] run to its end: the chunks of the
    ['data'] events, or the error of the ['error'] event. *)
Definition fs_createReadStream (path : string) : M B (list Buffer) :=
  log_fs (OpCreateReadStream path) ;;;
  n <- fs_lookup "open" path ;;
  match n with
  | File content => ret (chunksOf (List.length content) highWaterMark content)
  | Dir _ => throw (Fs.error Fs.EISDIR "read" path)
  end.

(** [fileStream.close ()]. *)
Definition fs_closeStream (path : string) : M B unit :=
  log_fs (OpCloseStream path).

(** [fs.ensureDir (path)]. *)
Definition fs_ensureDir (path : string) : M B unit :=
  log_fs (OpEnsureDir path) ;;;
  w <- get_world ;;
  match Fs.mkdirp (Fs.segments path) (fs w) with
  | inr root => set_fs root
  | inl c => throw (Fs.error c "mkdir" path)
  end.

(** [fs.writeFile (path, data)]. *)
Definition fs_writeFile (path : string) (data : Buffer) : M B unit :=
  log_fs (OpWriteFile path data) ;;;
  w <- get_world ;;
  match Fs.write (Fs.segments path) data (fs w) with
  | inr root => set_fs root
  | inl c => throw (Fs.error c "open" path)
  end.

End World.

(** ** Data model *)

(** One entry of a snapshot, as it travels through [JSON]: either
    [{ type, content, mimeType }] or
    [{ isEncrypted, encrypted, iv, authTag, mimeType }].  A record read back
    from storage may lack any property; [isEncrypted] is [true] or absent.
    Properties are kept in the order the program writes them. *)
Module FileData.
Record t := make {
  isEncrypted : bool;
  encrypted : option string;
  iv : option string;
  authTag : option string;
  type : option string;
  content : option string;
  mimeType : option string;
}.

Definition plain (type content mimeType : string) : t :=
  make false None None None (Some type) (Some content) (Some mimeType).

Definition cipher (encrypted iv : string) (authTag : option string) (mimeType : string) : t :=
  make true (Some encrypted) (Some iv) authTag None None (Some mimeType).

(** The record [compareDetailed] builds for a local file:
    [{ type, content }]. *)
Definition local (type content : string) : t :=
  make false None None None (Some type) (Some content) None.

Definition property (key : string) (value : option string) : list string :=
  match value with
  | Some v => [Json.member key (Json.quote v)]
  | None => []
  end.

(** [JSON.stringify (fileData)]. *)
Definition stringify (d : t) : string :=
  Json.object
    ((if isEncrypted d then [Json.member "isEncrypted" "true"] else [])
     ++ property "encrypted" (encrypted d)
     ++ property "iv" (iv d)
     ++ property "authTag" (authTag d)
     ++ property "type" (type d)
     ++ property "content" (content d)
     ++ property "mimeType" (mimeType d)).
End FileData.

(** [backupData], and every other object the program uses as a map from
    relative path to record.  The order of [Object.entries] is left to
    [map_to_list] (no statement below depends on it), and the properties a
    JavaScript object inherits from [Object.prototype] are not modelled. *)
Abbreviation Snapshot := (gmap string FileData.t).

(** [JSON.stringify (backupData)]. *)
Definition stringify_Snapshot (snapshot : Snapshot) : string :=
  Json.object
    (map (fun '(path, d) => Json.member path (FileData.stringify d))
         (map_to_list snapshot)).

Module VersionInfo.
Record t := make {
  hash : string;
  timestamp : Z;
  size : Z;
  createdAt : Z;
  modifiedAt : Z;
  checksum : string;
}.
End VersionInfo.

Module BackupMetadata.
Record t := make {
  timestamp : Z;
  type : string;
  versionInfo : option VersionInfo.t;
}.
End BackupMetadata.

(** What [uploadJson] is given: [{ data, metadata }]. *)
Module UploadData.
Record t := make {
  data : Snapshot;
  metadata : BackupMetadata.t;
}.
End UploadData.

(** What [storage.get] answers; either property may be missing. *)
Module BackupData.
Record t := make {
  data : option Snapshot;
  metadata : option BackupMetadata.t;
}.
End BackupData.

Module UploadOutput.
Record t := make {
  id : string;
}.
End UploadOutput.

Module BackupResult.
Record t := make {
  hash : string;
  versionInfo : VersionInfo.t;
  name : string;
}.
End BackupResult.

Module EncryptionOptions.
Record t := make {
  enabled : bool;
  key : string;
  algorithm : option string;
}.
End EncryptionOptions.

(** [BackupOptions], as far as the adapter reads it.  A pattern of
    [excludePatterns] is kept as the test [name.match (pattern)] succeeds. *)
Module BackupOptions.
Record t := make {
  excludePatterns : option (list (string -> bool));
  maxFileSize : option Z;
  encryption : option EncryptionOptions.t;
}.

(** [options] left [undefined]. *)
Definition none : t := make None None None.
End BackupOptions.

Inductive ChangeType := added | modified | deleted.

Module Difference.
Record t := make {
  path : string;
  type : ChangeType;
  oldChecksum : option string;
  newChecksum : option string;
  size_old : option Z;
  size_new : option Z;
}.
End Difference.

Module TotalChanges.
Record t := make {
  added : nat;
  modified : nat;
  deleted : nat;
}.
End TotalChanges.

Module DetailedComparison.
Record t := make {
  isEqual : bool;
  isNewer : bool;
  localVersion : VersionInfo.t;
  remoteVersion : VersionInfo.t;
  timeDiff : Z;
  formattedDiff : string;
  differences : list Difference.t;
  totalChanges : TotalChanges.t;
}.
End DetailedComparison.

(** ** What the program takes from outside the repository's sources *)

(** [node:crypto] and the repository's [versioning] module, whose source is
    not part of the files embedded here. *)
Class Externals := {
  (** [crypto.createHash ('sha256').update (key).digest ()] *)
  sha256 : string -> Buffer;
  (** [crypto.randomBytes (n)], by position in the stream of draws *)
  randomBytes : nat -> nat -> Buffer;
  (** [createCipheriv (algorithm, key, iv)] fed [data]: the ciphertext and
      what [getAuthTag ()] gives, or the exception thrown *)
  cipher : string -> Buffer -> Buffer -> Buffer -> Result (Buffer * Buffer);
  (** [createDecipheriv (algorithm, key, iv)], with the tag given to
      [setAuthTag] if any, fed [encrypted]: the plaintext, or the exception
      of [final ()] *)
  decipher : string -> Buffer -> Buffer -> option Buffer -> Buffer -> Result Buffer;
  (** the digest [VersionManager] computes over serialized snapshots *)
  version_digest : Buffer -> string;
  (** [VersionManager.formatTimeDifference] *)
  formatTimeDifference : Z -> Z -> string;
}.

(** ** [Encryption] ([dist/utils/encryption.js]) *)

Module Encryption.
Record t := make {
  algorithm : string;
  key : Buffer;
}.

Section Methods.
Context {E : Externals} {B : Type}.

(** [new Encryption (key, algorithm = 'aes-256-gcm')]. *)
Definition new (key : string) (algorithm : option string) : t :=
  {| algorithm := match algorithm with Some a => a | None => "aes-256-gcm" end;
     key := sha256 key |}.

Definition encrypt (this : t) (data : Buffer)
  : M B (Buffer * Buffer * option Buffer) :=
  draw <- next_entropy ;;
  let iv := randomBytes draw 16 in
  out <- of_result (cipher (algorithm this) (key this) iv data) ;;
  let '(encrypted, tag) := out in
  let authTag := if includes "gcm" (algorithm this) then Some tag else None in
  ret (encrypted, iv, authTag).

Definition decrypt (this : t) (encrypted iv : Buffer) (authTag : option Buffer)
  : M B Buffer :=
  let tag := if includes "gcm" (algorithm this) then authTag else None in
  of_result (decipher (algorithm this) (key this) iv tag encrypted).

End Methods.
End Encryption.

(** ** [FileBackupAdapter] ([dist/adapters/fileBackupAdapter.js]) *)

(** [calculateChecksum] and [getFileSize] of [compareDetailed]. *)
Definition calculateChecksum (d : FileData.t) : string :=
  sha3_256 (FileData.stringify d).

Definition getFileSize (d : FileData.t) : Z :=
  Z.of_nat (List.length (Buffer_from (FileData.stringify d))).

(** [s.replace (/\\/g, "/")]. *)
Definition backslashes_to_slashes (s : string) : string :=
  unchars (map (fun c => if Ascii.eqb c Json.backslash then Path.slash else c) (chars s)).

(** [options?.excludePatterns?.some (pattern => name.match (pattern))]. *)
Definition excluded (options : BackupOptions.t) (name : string) : bool :=
  match BackupOptions.excludePatterns options with
  | Some patterns => existsb (fun matches => matches name) patterns
  | None => false
  end.

(** [options?.maxFileSize && stats.size > options.maxFileSize]. *)
Definition oversized (options : BackupOptions.t) (stats : Stats.t) : bool :=
  match BackupOptions.maxFileSize options with
  | Some limit => negb (limit =? 0) && (Stats.size stats >? limit)
  | None => false
  end.

Section FileBackupAdapter.
Context {E : Externals} {B : Type}.

(** The methods of the [StorageService] the adapter was built with
    ([this.storage] and [this.originalStorage] are the same object).
    [base-storage.d.ts] declares all four, so the guards
    [if (!this.storage.unpin)] and [if (!this.storage.get)] never fire
    and are left out. *)
Variable uploadJson : UploadData.t -> string -> M B (option UploadOutput.t).
Variable get_ : string -> M B (option BackupData.t).
Variable isPinned : string -> M B bool.
Variable unpin : string -> M B bool.

(** Modelled from the spec: [VersionManager.createVersionInfo] of the
    module [versioning], whose source is not among the files embedded
    here.  The digest is taken over the byte sequence, [size] is the byte
    length, [timestamp] is now and [checksum] mirrors the digest. *)
Definition createVersionInfo (bytes : Buffer) : M B VersionInfo.t :=
  now <- Date_now ;;
  ret {| VersionInfo.hash := version_digest bytes;
         VersionInfo.timestamp := now;
         VersionInfo.size := Z.of_nat (List.length bytes);
         VersionInfo.createdAt := now;
         VersionInfo.modifiedAt := now;
         VersionInfo.checksum := version_digest bytes |}.

(** [options?.encryption?.enabled && options.encryption.key
      ? new Encryption (key, algorithm) : null]. *)
Definition encryption_of (options : BackupOptions.t) : option Encryption.t :=
  match BackupOptions.encryption options with
  | Some e =>
      if EncryptionOptions.enabled e && truthy_string (EncryptionOptions.key e)
      then Some (Encryption.new (EncryptionOptions.key e) (EncryptionOptions.algorithm e))
      else None
  | None => None
  end.

(** The record of an encrypted file. *)
Definition encrypted_record (enc : Encryption.t) (content : Buffer) (mimeType : string)
  : M B FileData.t :=
  out <- Encryption.encrypt enc content ;;
  let '(encrypted, iv, authTag) := out in
  ret (FileData.cipher (Base64.encode encrypted) (Base64.encode iv)
                       (option_map Base64.encode authTag) mimeType).

(** The record of a file kept in the clear. *)
Definition plain_record (isBinary : bool) (buffer : Buffer) (mimeType : string)
  : FileData.t :=
  FileData.plain (if isBinary then "binary" else "text")
                 (if isBinary then Base64.encode buffer else Utf8.decode buffer)
                 mimeType.

Definition failed_to_process_file (fullPath : string) (error : exn) : exn :=
  Error ("Failed to process file " +:+ fullPath +:+ ": " +:+ error_text error).

Definition processSmallFile (fullPath relativePath : string)
    (backupData : Snapshot) (options : BackupOptions.t) : M B Snapshot :=
  try_catch
    (content <- fs_readFile fullPath ;;
     let isBinary := isBinaryFile fullPath in
     let mimeType := getMimeType fullPath in
     fileData <-
       match encryption_of options with
       | Some encryption => encrypted_record encryption content mimeType
       | None => ret (plain_record isBinary content mimeType)
       end ;;
     ret (<[relativePath := fileData]> backupData))
    (fun error => throw (failed_to_process_file fullPath error)).

(** [fileStream] is assigned exactly when the file is not encrypted, so
    that is when the [finally] block closes it. *)
Definition processLargeFile (fullPath relativePath : string)
    (backupData : Snapshot) (options : BackupOptions.t) : M B Snapshot :=
  try_finally
    (try_catch
       (let isBinary := isBinaryFile fullPath in
        let mimeType := getMimeType fullPath in
        match encryption_of options with
        | Some encryption =>
            content <- fs_readFile fullPath ;;
            fileData <- encrypted_record encryption content mimeType ;;
            ret (<[relativePath := fileData]> backupData)
        | None =>
            chunks <- fs_createReadStream fullPath ;;
            let buffer := List.concat chunks in
            ret (<[relativePath := plain_record isBinary buffer mimeType]> backupData)
        end)
       (fun error => throw (failed_to_process_file fullPath error)))
    (match encryption_of options with
     | Some _ => ret tt
     | None => fs_closeStream fullPath
     end).

(** The part of the loop body of [processDirectory] that handles an
    entry which is not a directory. *)
Definition processFile (fullPath relativePath : string)
    (backupData : Snapshot) (options : BackupOptions.t) : M B Snapshot :=
  stats <- fs_stat fullPath ;;
  if oversized options stats then ret backupData
  else if Stats.size stats >? 1024 * 1024 then
    processLargeFile fullPath relativePath backupData options
  else
    processSmallFile fullPath relativePath backupData options.

Definition failed_to_process_directory (dirPath : string) (error : exn) : exn :=
  Error ("Failed to process directory " +:+ dirPath +:+ ": " +:+ error_text error).

(** [processDirectory], run on the node [dir] that [dirPath] names.  The
    listing of a sub-directory is the subtree its entry carries: nothing
    writes to the file system during the walk. *)
Fixpoint processDirectory_at (dir : node) (dirPath baseDir : string)
    (backupData : Snapshot) (options : BackupOptions.t) {struct dir}
  : M B Snapshot :=
  try_catch
    (log_fs (OpReaddir dirPath) ;;;
     match dir with
     | File _ => throw (Fs.error Fs.ENOTDIR "scandir" dirPath)
     | Dir files =>
         (fix each (files : list (string * node)) (backupData : Snapshot)
            {struct files} : M B Snapshot :=
            match files with
            | [] => ret backupData
            | (name, child) :: rest =>
                if excluded options name then each rest backupData
                else
                  let fullPath := Path.join dirPath name in
                  let relativePath :=
                    backslashes_to_slashes (Path.join baseDir name) in
                  match child with
                  | Dir _ =>
                      backupData' <-
                        processDirectory_at child fullPath relativePath
                                            backupData options ;;
                      each rest backupData'
                  | File _ =>
                      backupData' <-
                        processFile fullPath relativePath backupData options ;;
                      each rest backupData'
                  end
            end) files backupData
     end)
    (fun error => throw (failed_to_process_directory dirPath error)).

Definition processDirectory (dirPath baseDir : string)
    (backupData : Snapshot) (options : BackupOptions.t) : M B Snapshot :=
  fun w =>
    match Fs.lookup (Fs.segments dirPath) (fs w) with
    | inr dir => processDirectory_at dir dirPath baseDir backupData options w
    | inl c =>
        (log_fs (OpReaddir dirPath) ;;;
         throw (failed_to_process_directory dirPath
                  (Fs.error c "scandir" dirPath))) w
    end.

Definition backup (sourcePath : string) (options : BackupOptions.t)
  : M B BackupResult.t :=
  backupData <- processDirectory sourcePath "" ∅ options ;;
  versionInfo <- createVersionInfo (Buffer_from (stringify_Snapshot backupData)) ;;
  now <- Date_now ;;
  let metadata :=
    {| BackupMetadata.timestamp := now;
       BackupMetadata.type := "file-backup";
       BackupMetadata.versionInfo := Some versionInfo |} in
  let uploadData :=
    {| UploadData.data := backupData; UploadData.metadata := metadata |} in
  log_call (CallUploadJson (Path.basename sourcePath)) ;;;
  result <- uploadJson uploadData (Path.basename sourcePath) ;;
  match result with
  | Some r =>
      if truthy_string (UploadOutput.id r) then
        ret {| BackupResult.hash := UploadOutput.id r;
               BackupResult.versionInfo := versionInfo;
               BackupResult.name := Path.basename sourcePath |}
      else throw (Error "Storage service did not return a valid hash")
  | None => throw (Error "Storage service did not return a valid hash")
  end.

(** [FileBackupAdapter.get]. *)
Definition get (hash : string) : M B BackupData.t :=
  log_call (CallGet hash) ;;;
  result <- get_ hash ;;
  match result with
  | Some r =>
      match BackupData.data r, BackupData.metadata r with
      | Some _, Some _ => ret r
      | _, _ => throw (Error "Invalid backup format")
      end
  | None => throw (Error "Invalid backup format")
  end.

Definition delete (hash : string) : M B bool :=
  try_catch
    (log_call (CallIsPinned hash) ;;;
     exists_ <- isPinned hash ;;
     if negb exists_ then ret false
     else
       log_call (CallUnpin hash) ;;;
       unpin hash ;;;
       ret true)
    (fun error => ret false).

Definition failed_to_restore_file (fileName : string) (error : exn) : exn :=
  Error ("Failed to restore file " +:+ fileName +:+ ": " +:+ error_text error).

(** The body of the loop of [restore] for one entry of [backup.data].
    The first test, [fileData.isEncrypted && encryption &&
    fileData.encrypted && fileData.iv], selects the decrypting branch
    exactly when [encryption] is not [null] and the three properties are
    truthy. *)
Definition restoreFile (encryption : option Encryption.t) (targetPath : string)
    (fileName : string) (fileData : FileData.t) : M B unit :=
  let filePath := Path.join targetPath fileName in
  try_catch
    (fs_ensureDir (Path.dirname filePath) ;;;
     match
       (if FileData.isEncrypted fileData
           && truthy_opt (FileData.encrypted fileData)
           && truthy_opt (FileData.iv fileData)
        then encryption else None)
     with
     | Some enc =>
         let encrypted := Base64.decode (default "" (FileData.encrypted fileData)) in
         let iv := Base64.decode (default "" (FileData.iv fileData)) in
         let authTag :=
           if truthy_opt (FileData.authTag fileData)
           then Some (Base64.decode (default "" (FileData.authTag fileData)))
           else None in
         decrypted <- Encryption.decrypt enc encrypted iv authTag ;;
         fs_writeFile filePath decrypted
     | None =>
         if bool_decide (FileData.type fileData = Some "binary")
            && truthy_opt (FileData.content fileData) then
           fs_writeFile filePath
             (Base64.decode (default "" (FileData.content fileData)))
         else if bool_decide (FileData.type fileData = Some "text")
                 && truthy_opt (FileData.content fileData) then
           fs_writeFile filePath
             (Buffer_from (default "" (FileData.content fileData)))
         else throw (Error ("Invalid file data for " +:+ fileName))
     end)
    (fun error => throw (failed_to_restore_file fileName error)).

Fixpoint restoreFiles (encryption : option Encryption.t) (targetPath : string)
    (entries : list (string * FileData.t)) : M B unit :=
  match entries with
  | [] => ret tt
  | (fileName, fileData) :: rest =>
      restoreFile encryption targetPath fileName fileData ;;;
      restoreFiles encryption targetPath rest
  end.

Definition restore (hash targetPath : string) (options : BackupOptions.t)
  : M B bool :=
  backup <- get hash ;;
  match BackupData.data backup with
  | None => throw (Error "Invalid backup data")
  | Some data =>
      let encryption := encryption_of options in
      fs_ensureDir targetPath ;;;
      restoreFiles encryption targetPath (map_to_list data) ;;;
      ret true
  end.

(** *** [compareDetailed] *)

(** The first loop of [compareDetailed]: the local files, one directory
    deep. *)
Fixpoint readLocalData (sourcePath : string) (files : list string)
    (localData : Snapshot) : M B Snapshot :=
  match files with
  | [] => ret localData
  | file :: rest =>
      let filePath := Path.join sourcePath file in
      stats <- fs_stat filePath ;;
      if Stats.isDirectory stats then readLocalData sourcePath rest localData
      else
        content <- fs_readFile filePath ;;
        readLocalData sourcePath rest
          (<[file := FileData.local (if isBinaryFile file then "binary" else "text")
                                    (Base64.encode content)]> localData)
  end.

(** [differences] and [totalChanges] while the loops run. *)
Definition tally : Type := list Difference.t * TotalChanges.t.

Definition no_changes : TotalChanges.t := TotalChanges.make 0 0 0.

(** The body of the loop over [Object.entries (localData)]. *)
Definition visitLocal (remote : Snapshot) (acc : tally)
    (entry : string * FileData.t) : tally :=
  let '(differences, totalChanges) := acc in
  let '(filePath, localContent) := entry in
  match remote !! filePath with
  | None =>
      (differences ++
         [{| Difference.path := filePath;
             Difference.type := added;
             Difference.oldChecksum := None;
             Difference.newChecksum := Some (calculateChecksum localContent);
             Difference.size_old := None;
             Difference.size_new := Some (getFileSize localContent) |}],
       TotalChanges.make (S (TotalChanges.added totalChanges))
                         (TotalChanges.modified totalChanges)
                         (TotalChanges.deleted totalChanges))
  | Some remoteContent =>
      let localChecksum := calculateChecksum localContent in
      let remoteChecksum := calculateChecksum remoteContent in
      if negb (String.eqb localChecksum remoteChecksum) then
        (differences ++
           [{| Difference.path := filePath;
               Difference.type := modified;
               Difference.oldChecksum := Some remoteChecksum;
               Difference.newChecksum := Some localChecksum;
               Difference.size_old := Some (getFileSize remoteContent);
               Difference.size_new := Some (getFileSize localContent) |}],
         TotalChanges.make (TotalChanges.added totalChanges)
                           (S (TotalChanges.modified totalChanges))
                           (TotalChanges.deleted totalChanges))
      else acc
  end.

(** The body of the loop over [Object.keys (backup.data)]. *)
Definition visitRemote (localData : Snapshot) (acc : tally)
    (entry : string * FileData.t) : tally :=
  let '(differences, totalChanges) := acc in
  let '(filePath, remoteContent) := entry in
  match localData !! filePath with
  | None =>
      (differences ++
         [{| Difference.path := filePath;
             Difference.type := deleted;
             Difference.oldChecksum := Some (calculateChecksum remoteContent);
             Difference.newChecksum := None;
             Difference.size_old := Some (getFileSize remoteContent);
             Difference.size_new := None |}],
       TotalChanges.make (TotalChanges.added totalChanges)
                         (TotalChanges.modified totalChanges)
                         (S (TotalChanges.deleted totalChanges)))
  | Some _ => acc
  end.

(** Both loops, from [differences = \[\]] and [totalChanges = {0, 0, 0}]. *)
Definition diffSnapshots (localData remote : Snapshot) : tally :=
  fold_left (visitRemote localData) (map_to_list remote)
    (fold_left (visitLocal remote) (map_to_list localData) ([], no_changes)).

Definition compareDetailed (hash sourcePath : string)
  : M B DetailedComparison.t :=
  try_catch
    (files <- fs_readdir sourcePath ;;
     localData <- readLocalData sourcePath (map fst files) ∅ ;;
     backup <- get hash ;;
     match BackupData.data backup with
     | None => throw (Error "Invalid backup: missing data")
     | Some remote =>
         let '(differences, totalChanges) := diffSnapshots localData remote in
         localVersion <-
           createVersionInfo (Buffer_from (stringify_Snapshot localData)) ;;
         match BackupData.metadata backup ≫= BackupMetadata.versionInfo with
         | None =>
             throw (Error "Cannot read properties of undefined (reading 'timestamp')")
         | Some remoteVersion =>
             let localTime := VersionInfo.timestamp localVersion in
             let remoteTime := VersionInfo.timestamp remoteVersion in
             ret {| DetailedComparison.isEqual :=
                      (List.length differences =? 0)%nat;
                    DetailedComparison.isNewer := localTime >? remoteTime;
                    DetailedComparison.localVersion := localVersion;
                    DetailedComparison.remoteVersion := remoteVersion;
                    DetailedComparison.timeDiff := Z.abs (localTime - remoteTime);
                    DetailedComparison.formattedDiff :=
                      formatTimeDifference localTime remoteTime;
                    DetailedComparison.differences := differences;
                    DetailedComparison.totalChanges := totalChanges |}
         end
     end)
    (fun error => throw error).

(** [FileBackupAdapter.upload]. *)
Definition upload (data : UploadData.t) (name : string)
  : M B (option UploadOutput.t) :=
  log_call (CallUploadJson name) ;;;
  uploadJson data name.

End FileBackupAdapter.

(** *** [compare] *)

Module VersionComparison.
Record t := make {
  isEqual : bool;
  isNewer : bool;
  localVersion : VersionInfo.t;
  remoteVersion : VersionInfo.t;
  timeDiff : Z;
  formattedDiff : string;
}.
End VersionComparison.

Section Compare.
Context {E : Externals} {B : Type}.
Variable get_ : string -> M B (option BackupData.t).

(** Modelled from the spec: [VersionManager.compareVersions] of the module
    [versioning], whose source is not among the files embedded here.
    [isEqual] holds when the digest of the local bytes equals the checksum
    recorded for the remote version, [isNewer] when the local creation time
    is later than the remote timestamp, and [timeDiff] is the absolute
    difference of the two in milliseconds. *)
Definition compareVersions (localBytes : Buffer) (remoteVersion : VersionInfo.t)
  : M B VersionComparison.t :=
  localVersion <- createVersionInfo localBytes ;;
  let localTime := VersionInfo.timestamp localVersion in
  let remoteTime := VersionInfo.timestamp remoteVersion in
  ret {| VersionComparison.isEqual :=
           String.eqb (VersionInfo.hash localVersion)
                      (VersionInfo.checksum remoteVersion);
         VersionComparison.isNewer := localTime >? remoteTime;
         VersionComparison.localVersion := localVersion;
         VersionComparison.remoteVersion := remoteVersion;
         VersionComparison.timeDiff := Z.abs (localTime - remoteTime);
         VersionComparison.formattedDiff :=
           formatTimeDifference localTime remoteTime |}.

(** The local [processDirectory] of [compare], run on the node [dir] that
    [dirPath] names: the walk of [backup] without patterns, size limit or
    encryption, every file read in one shot. *)
Fixpoint compare_processDirectory_at (dir : node) (dirPath baseDir : string)
    (localData : Snapshot) {struct dir} : M B Snapshot :=
  log_fs (OpReaddir dirPath) ;;;
  match dir with
  | File _ => throw (Fs.error Fs.ENOTDIR "scandir" dirPath)
  | Dir files =>
      (fix each (files : list (string * node)) (localData : Snapshot)
         {struct files} : M B Snapshot :=
         match files with
         | [] => ret localData
         | (name, child) :: rest =>
             let fullPath := Path.join dirPath name in
             let relativePath := backslashes_to_slashes (Path.join baseDir name) in
             match child with
             | Dir _ =>
                 localData' <-
                   compare_processDirectory_at child fullPath relativePath localData ;;
                 each rest localData'
             | File _ =>
                 content <- fs_readFile fullPath ;;
                 let isBinary := isBinaryFile name in
                 each rest
                   (<[relativePath :=
                        FileData.plain (if isBinary then "binary" else "text")
                                       (if isBinary then Base64.encode content
                                        else Utf8.decode content)
                                       (getMimeType name)]> localData)
             end
         end) files localData
  end.

Definition compare_processDirectory (dirPath : string) : M B Snapshot :=
  fun w =>
    match Fs.lookup (Fs.segments dirPath) (fs w) with
    | inr dir => compare_processDirectory_at dir dirPath "" ∅ w
    | inl c =>
        (log_fs (OpReaddir dirPath) ;;; throw (Fs.error c "scandir" dirPath)) w
    end.

Definition compare (hash sourcePath : string) : M B VersionComparison.t :=
  try_catch
    (backup <- get get_ hash ;;
     match BackupData.data backup,
           BackupData.metadata backup ≫= BackupMetadata.versionInfo with
     | Some _, Some remoteVersion =>
         localData <- compare_processDirectory sourcePath ;;
         let localBuffer := Buffer_from (stringify_Snapshot localData) in
         compareVersions localBuffer remoteVersion
     | _, _ => throw (Error "Invalid backup: missing metadata")
     end)
    (fun error => throw error).

End Compare.

(** ** [PinataService] ([dist/ipfs/services/pinata.js]): pin handling *)

Module Pinata.

Definition is_base58 (c : ascii) : bool :=
  let n := char_code c in
  ((49 <=? n) && (n <=? 57))                      (* 1-9 *)
  || ((65 <=? n) && (n <=? 72))                   (* A-H *)
  || ((74 <=? n) && (n <=? 78))                   (* J-N *)
  || ((80 <=? n) && (n <=? 90))                   (* P-Z *)
  || ((97 <=? n) && (n <=? 107))                  (* a-k *)
  || ((109 <=? n) && (n <=? 122)).                (* m-z *)

Definition is_alphanumeric (c : ascii) : bool :=
  let n := char_code c in
  ((97 <=? n) && (n <=? 122)) || ((65 <=? n) && (n <=? 90))
  || ((48 <=? n) && (n <=? 57)).

(** At least [n] characters, the first [n] of them in the class. *)
Definition at_least (n : nat) (class : ascii -> bool) (cs : list ascii) : bool :=
  (n <=? List.length cs)%nat && forallb class (take n cs).

(** [CID_PATTERN.test (hash)] for
    [/^(Qm[1-9A-HJ-NP-Za-km-z]{44,}|b[a-zA-Z0-9]{58,})/]: the pattern is
    anchored at the start only. *)
Definition CID_PATTERN_test (hash : string) : bool :=
  match chars hash with
  | "Q"%char :: "m"%char :: rest => at_least 44 is_base58 rest
  | "b"%char :: rest => at_least 58 is_alphanumeric rest
  | _ => false
  end.

(** [!hash || typeof hash !== "string" || !CID_PATTERN.test (hash)]. *)
Definition invalid_cid (hash : string) : bool :=
  negb (truthy_string hash) || negb (CID_PATTERN_test hash).

Inductive Request :=
| GatewaysGet (cid : string)
| Unpin (cids : list string).

(** The fields of the service that change, the account behind the SDK
    and the requests sent to it. *)
Record Backend (Remote : Type) := mkBackend {
  lastRequestTime : Z;
  remote : Remote;
  requests : list Request;
}.
Arguments mkBackend {Remote}.
Arguments lastRequestTime {Remote}.
Arguments remote {Remote}.
Arguments requests {Remote}.

Definition rateLimitMs : Z := 500.

Definition authError : exn :=
  Error "Authentication error with Pinata: verify your JWT token".

Section Service.
(** The SDK [pinata-web3]: what [gateways.get] and [unpin] answer.  A
    response is an object of type [Response], or [null]. *)
Context {Remote Response : Type}.
Variable sdk_gateways_get : string -> Remote -> Result (option Response) * Remote.
Variable sdk_unpin : list string -> Remote -> Result unit * Remote.

Abbreviation MP := (M (Backend Remote)).

(** A request to the backend: it is recorded, then answered. *)
Definition request {A} (r : Request) (answer : Remote -> Result A * Remote)
  : MP A :=
  b <- get_backend ;;
  let '(result, remote') := answer (remote b) in
  set_backend (mkBackend (lastRequestTime b) remote' (requests b ++ [r])) ;;;
  of_result result.

Definition enforceRateLimit : MP unit :=
  now <- Date_now ;;
  b <- get_backend ;;
  let elapsed := now - lastRequestTime b in
  (if elapsed <? rateLimitMs then sleep (rateLimitMs - elapsed) else ret tt) ;;;
  now' <- Date_now ;;
  b <- get_backend ;;
  set_backend (mkBackend now' (remote b) (requests b)).

Definition isPinned (hash : string) : MP bool :=
  try_catch
    (if invalid_cid hash then ret false
     else
       try_catch
         (enforceRateLimit ;;;
          response <- request (GatewaysGet hash) (sdk_gateways_get hash) ;;
          ret (bool_decide (is_Some response)))
         (fun error =>
            if message_includes "NOT_FOUND" error
               || message_includes "url does not contain CID" error
            then ret false
            else throw error))
    (fun error =>
       if message_includes "INVALID_CREDENTIALS" error then throw authError
       else ret false).

Definition unpin (hash : string) : MP bool :=
  try_catch
    (if invalid_cid hash then ret false
     else
       isPinnedBefore <- isPinned hash ;;
       if negb isPinnedBefore then ret false
       else
         enforceRateLimit ;;;
         request (Unpin [hash]) (sdk_unpin [hash]) ;;;
         ret true)
    (fun error =>
       if message_includes "is not pinned" error
          || message_includes "NOT_FOUND" error
          || message_includes "url does not contain CID" error
       then ret false
       else if message_includes "INVALID_CREDENTIALS" error then throw authError
       else throw error).

End Service.
End Pinata.

(** ** [IpfsService] ([dist/ipfs/services/ipfs-http-client.js]) *)

Module Ipfs.

(** What the bytes filed under a CID are to [JSON.parse]: no JSON at all,
    or a value whose [data] and [metadata] may be missing.  The records of
    the data model hold strings, numbers and booleans only, and a property
    that is [undefined] is one that is left out, so
    [JSON.parse (JSON.stringify (x))] gives [x] back and a payload is kept
    as the value it parses to. *)
Inductive Stored :=
| NotJson
| Json (value : BackupData.t).

Inductive Request :=
| Add
| Cat (cid : string)
| PinLs (cid : string)
| PinRm (cid : string).

(** The fields of the service that change, the node behind the client and
    the requests sent to it. *)
Record Backend (Remote : Type) := mkBackend {
  lastRequestTime : Z;
  remote : Remote;
  requests : list Request;
}.
Arguments mkBackend {Remote}.
Arguments lastRequestTime {Remote}.
Arguments remote {Remote}.
Arguments requests {Remote}.

Definition rateLimitMs : Z := 200.

Section Service.
(** The client [ipfs-http-client]: what [add], [cat], [pin.ls] (the CIDs of
    the pins it lists) and [pin.rm] answer. *)
Context {Remote : Type}.
Variable sdk_add : Stored -> Remote -> Result string * Remote.
Variable sdk_cat : string -> Remote -> Result Stored * Remote.
Variable sdk_pin_ls : string -> Remote -> Result (list string) * Remote.
Variable sdk_pin_rm : string -> Remote -> Result unit * Remote.

Abbreviation MI := (M (Backend Remote)).

(** A request to the node: it is recorded, then answered. *)
Definition request {A} (r : Request) (answer : Remote -> Result A * Remote)
  : MI A :=
  b <- get_backend ;;
  let '(result, remote') := answer (remote b) in
  set_backend (mkBackend (lastRequestTime b) remote' (requests b ++ [r])) ;;;
  of_result result.

Definition enforceRateLimit : MI unit :=
  now <- Date_now ;;
  b <- get_backend ;;
  let elapsed := now - lastRequestTime b in
  (if elapsed <? rateLimitMs then sleep (rateLimitMs - elapsed) else ret tt) ;;;
  now' <- Date_now ;;
  b <- get_backend ;;
  set_backend (mkBackend now' (remote b) (requests b)).

Definition get (hash : string) : MI (option BackupData.t) :=
  try_catch
    (if negb (truthy_string hash) then throw (Error "Invalid hash")
     else
       enforceRateLimit ;;;
       stored <- request (Cat hash) (sdk_cat hash) ;;
       match stored with
       | NotJson => throw (Error "Invalid data format: cannot parse JSON")
       | Json parsedData =>
           match BackupData.data parsedData, BackupData.metadata parsedData with
           | Some _, Some _ => ret (Some parsedData)
           | _, _ => throw (Error "Invalid backup data structure")
           end
       end)
    (fun error => throw error).

(** [uploadJson (jsonData)]; the second argument the adapter passes is not
    read. *)
Definition uploadJson (jsonData : UploadData.t) (options : string)
  : MI (option UploadOutput.t) :=
  try_catch
    (let content :=
       Json {| BackupData.data := Some (UploadData.data jsonData);
               BackupData.metadata := Some (UploadData.metadata jsonData) |} in
     enforceRateLimit ;;;
     cid <- request Add (sdk_add content) ;;
     ret (Some {| UploadOutput.id := cid |}))
    (fun error => throw error).

Definition isPinned (hash : string) : MI bool :=
  try_catch
    (if negb (truthy_string hash) then ret false
     else
       enforceRateLimit ;;;
       pins <- request (PinLs hash) (sdk_pin_ls hash) ;;
       ret (existsb (String.eqb hash) pins))
    (fun error => ret false).

Definition unpin (hash : string) : MI bool :=
  try_catch
    (if negb (truthy_string hash) then ret false
     else
       isPinnedBefore <- isPinned hash ;;
       if negb isPinnedBefore then ret false
       else
         enforceRateLimit ;;;
         request (PinRm hash) (sdk_pin_rm hash) ;;;
         ret true)
    (fun error => ret false).

End Service.
End Ipfs.

(** ** An IPFS node to run the services against *)

(** A stand-in for the daemon behind [ipfs-http-client]: blocks filed under
    the ids [cid-0], [cid-1], ... in the order they are added, and the set
    of pinned ids.  [add] pins what it files; [pin.ls] and [pin.rm] on an
    id that is not pinned fail, as the daemon's do. *)
Module LocalNode.

Record t := make {
  blocks : list (string * Ipfs.Stored);
  pins : list string;
}.

Definition empty : t := make [] [].

Fixpoint find (cid : string) (blocks : list (string * Ipfs.Stored))
  : option Ipfs.Stored :=
  match blocks with
  | [] => None
  | (k, v) :: rest => if String.eqb k cid then Some v else find cid rest
  end.

Definition pinned (cid : string) (node : t) : bool :=
  existsb (String.eqb cid) (pins node).

Definition add (content : Ipfs.Stored) (node : t) : Result string * t :=
  let cid := "cid-" +:+ decimal (List.length (blocks node)) in
  (Ok cid, make (blocks node ++ [(cid, content)]) (pins node ++ [cid])).

Definition cat (cid : string) (node : t) : Result Ipfs.Stored * t :=
  match find cid (blocks node) with
  | Some content => (Ok content, node)
  | None => (Throw (Error ("block was not found locally: " +:+ cid)), node)
  end.

Definition pin_ls (cid : string) (node : t) : Result (list string) * t :=
  if pinned cid node then (Ok [cid], node)
  else (Throw (Error ("path '" +:+ cid +:+ "' is not pinned")), node).

Definition pin_rm (cid : string) (node : t) : Result unit * t :=
  if pinned cid node then
    (Ok tt, make (blocks node)
                 (List.filter (fun c => negb (String.eqb cid c)) (pins node)))
  else (Throw (Error "not pinned or pinned indirectly"), node).

End LocalNode.

(** [IpfsService] talking to the stand-in node. *)
Module LocalIpfs.

Definition Store : Type := Ipfs.Backend LocalNode.t.

Definition uploadJson : UploadData.t -> string -> M Store (option UploadOutput.t) :=
  Ipfs.uploadJson LocalNode.add.

Definition get : string -> M Store (option BackupData.t) :=
  Ipfs.get LocalNode.cat.

Definition isPinned : string -> M Store bool :=
  Ipfs.isPinned LocalNode.pin_ls.

Definition unpin : string -> M Store bool :=
  Ipfs.unpin LocalNode.pin_ls LocalNode.pin_rm.

(** A world with the given file tree, a fresh service on an empty node and
    the clock at [now]. *)
Definition world (root : node) (now : Z) : World Store :=
  mkWorld root [] (Ipfs.mkBackend 0 LocalNode.empty []) [] now 0.

End LocalIpfs.

(** ** Auxiliary definitions for the statements *)

(** Unfolds the plumbing of the monad. *)
Ltac unfold_monad :=
  unfold bind, ret, throw, try_catch, try_finally, of_result, get_world,
    put_world, log_fs, log_call, set_fs, set_backend, get_backend, Date_now,
    sleep, next_entropy in *.

(** The world once [op] has been recorded. *)
Definition with_call {B} (c : StorageCall) (w : World B) : World B :=
  mkWorld (fs w) (fs_log w) (backend w) (storage_calls w ++ [c]) (clock w) (entropy w).

Definition with_fs_op {B} (op : FsOp) (w : World B) : World B :=
  mkWorld (fs w) (fs_log w ++ [op]) (backend w) (storage_calls w) (clock w) (entropy w).

(** The world once [enforceRateLimit] has run. *)
Definition rate_limited {Remote} (w : World (Pinata.Backend Remote))
  : World (Pinata.Backend Remote) :=
  let elapsed := clock w - Pinata.lastRequestTime (backend w) in
  let now' :=
    if elapsed <? Pinata.rateLimitMs
    then clock w + (Pinata.rateLimitMs - elapsed) else clock w in
  mkWorld (fs w) (fs_log w)
    (Pinata.mkBackend now' (Pinata.remote (backend w)) (Pinata.requests (backend w)))
    (storage_calls w) now' (entropy w).

(** The failures [PinataService] tells apart, by the message of the error. *)
Definition is_auth_failure (e : exn) : bool :=
  message_includes "INVALID_CREDENTIALS" e.

Definition is_not_found (e : exn) : bool :=
  message_includes "NOT_FOUND" e || message_includes "url does not contain CID" e.

(** *** Sample inputs for [PinataService] *)

(** A well-formed CID (version 0). *)
Definition sample_cid : string := "QmYwAPJzv5CZsnA625s3Xf2nemtYgPpHdWEz79ojWnPbdG".

(** An account whose token the backend rejects: every request fails. *)
Definition rejected_get (cid : string) (r : unit) : Result (option unit) * unit :=
  (Throw (Error "Authentication failed: INVALID_CREDENTIALS"), r).

Definition rejected_unpin (cids : list string) (r : unit) : Result unit * unit :=
  (Throw (Error "Authentication failed: INVALID_CREDENTIALS"), r).

(** An account on which every CID is pinned and can be unpinned. *)
Definition pinned_get (cid : string) (r : unit) : Result (option unit) * unit :=
  (Ok (Some tt), r).

Definition accepted_unpin (cids : list string) (r : unit) : Result unit * unit :=
  (Ok tt, r).

(** A fresh service at time [now]: no request sent yet. *)
Definition pinata_world (now : Z) : World (Pinata.Backend unit) :=
  mkWorld (Dir []) [] (Pinata.mkBackend 0 tt []) [] now 0.

(** *** Sample inputs for [IpfsService] on the local node *)

Definition sample_payload : UploadData.t :=
  {| UploadData.data := ∅;
     UploadData.metadata :=
       {| BackupMetadata.timestamp := 0;
          BackupMetadata.type := "file-backup";
          BackupMetadata.versionInfo := None |} |}.

(** The service once one payload has been added: it is filed and pinned
    under [cid-0]. *)
Definition pinned_world : World LocalIpfs.Store :=
  (LocalIpfs.uploadJson sample_payload "sample" (LocalIpfs.world (Dir []) 1000)).2.

(** A fresh service with nothing pinned. *)
Definition unpinned_world : World LocalIpfs.Store := LocalIpfs.world (Dir []) 1000.

(** The worlds [delete ("cid-0")] goes through: after the pin-status check
    with nothing pinned; after the check with [cid-0] pinned; after the
    [unpin] that follows it. *)
Definition unpinned_world_checked : World LocalIpfs.Store :=
  (LocalIpfs.isPinned "cid-0" (with_call (CallIsPinned "cid-0") unpinned_world)).2.

Definition pinned_world_checked : World LocalIpfs.Store :=
  (LocalIpfs.isPinned "cid-0" (with_call (CallIsPinned "cid-0") pinned_world)).2.

Definition pinned_world_unpinned : World LocalIpfs.Store :=
  (LocalIpfs.unpin "cid-0" (with_call (CallUnpin "cid-0") pinned_world_checked)).2.

(** The paths [fs.writeFile] was called on, in order. *)
Definition written_paths {B} (w : World B) : list string :=
  omap (fun op => match op with OpWriteFile p _ => Some p | _ => None end) (fs_log w).

(** What [createVersionInfo (bytes)] returns when the clock shows [now]. *)
Definition versionInfo_at {E : Externals} (bytes : Buffer) (now : Z) : VersionInfo.t :=
  {| VersionInfo.hash := version_digest bytes;
     VersionInfo.timestamp := now;
     VersionInfo.size := Z.of_nat (List.length bytes);
     VersionInfo.createdAt := now;
     VersionInfo.modifiedAt := now;
     VersionInfo.checksum := version_digest bytes |}.

(** The [{ data, metadata }] that [backup] uploads for a snapshot finished
    when the clock shows [now]. *)
Definition payload_of {E : Externals} (backupData : Snapshot) (now : Z) : UploadData.t :=
  {| UploadData.data := backupData;
     UploadData.metadata :=
       {| BackupMetadata.timestamp := now;
          BackupMetadata.type := "file-backup";
          BackupMetadata.versionInfo :=
            Some (versionInfo_at (Buffer_from (stringify_Snapshot backupData)) now) |} |}.

(** *** A stand-in for [node:crypto] and [versioning], to run examples *)

(** Not AES: the ciphertext is the plaintext with every byte shifted by the
    length of the key, and the tag is the key followed by the iv, so that a
    different key or iv fails authentication.  The statements below hold
    for every instance of [Externals]; this one only runs them. *)
Definition example_cipher (algorithm : string) (key iv data : Buffer)
  : Result (Buffer * Buffer) :=
  Ok (map (fun b => byte_of_Z (byte_to_Z b + Z.of_nat (List.length key))) data,
      key ++ iv).

Definition example_decipher (algorithm : string) (key iv : Buffer)
    (tag : option Buffer) (encrypted : Buffer) : Result Buffer :=
  if includes "gcm" algorithm && negb (bool_decide (tag = Some (key ++ iv)))
  then Throw (Error "Unsupported state or unable to authenticate data")
  else Ok (map (fun b => byte_of_Z (byte_to_Z b - Z.of_nat (List.length key))) encrypted).

#[local] Instance example_externals : Externals := {|
  sha256 := fun key => Buffer_from (sha3_256 key);
  randomBytes := fun draw n => repeat (byte_of_Z (Z.of_nat draw)) n;
  cipher := example_cipher;
  decipher := example_decipher;
  version_digest := fun bytes => sha3_256 (string_of_bytes bytes);
  formatTimeDifference := fun a b => decimal (Z.to_nat (Z.abs (a - b) / 1000)) +:+ " seconds";
|}.

(** *** Sample directory trees *)

(** [data/a.txt] holding [hello]. *)
Definition tree_hello : node :=
  Dir [("data", Dir [("a.txt", File (Buffer_from "hello"))])].

(** [data/empty.txt], an empty file. *)
Definition tree_empty_file : node :=
  Dir [("data", Dir [("empty.txt", File [])])].

(** [data/sub/b.txt] holding [x]. *)
Definition tree_nested : node :=
  Dir [("data", Dir [("sub", Dir [("b.txt", File (Buffer_from "x"))])])].

(** A storage service that answers uploads with an empty id. *)
Definition uploadJson_no_id {B} (data : UploadData.t) (name : string)
  : M B (option UploadOutput.t) :=
  ret (Some {| UploadOutput.id := "" |}).

(** A file of exactly 1 MiB (1048576 zero bytes), at the top of the tree. *)
Definition one_mebibyte : Buffer := repeat x00 (Z.to_nat (1024 * 1024)).

Definition tree_one_mebibyte : node := Dir [("big.bin", File one_mebibyte)].

(** *** Reading [differences] and [totalChanges] *)

#[global] Instance ChangeType_eq_dec : EqDecision ChangeType.
Proof. solve_decision. Defined.

(** How many differences are of a given kind. *)
Definition count_type (ty : ChangeType) (ds : list Difference.t) : nat :=
  List.length (filter (fun d => Difference.type d = ty) ds).

(** [totalChanges.added++] and the like, by the kind of the difference
    pushed. *)
Definition bump (totalChanges : TotalChanges.t) (d : Difference.t) : TotalChanges.t :=
  match Difference.type d with
  | added =>
      TotalChanges.make (S (TotalChanges.added totalChanges))
                        (TotalChanges.modified totalChanges)
                        (TotalChanges.deleted totalChanges)
  | modified =>
      TotalChanges.make (TotalChanges.added totalChanges)
                        (S (TotalChanges.modified totalChanges))
                        (TotalChanges.deleted totalChanges)
  | deleted =>
      TotalChanges.make (TotalChanges.added totalChanges)
                        (TotalChanges.modified totalChanges)
                        (S (TotalChanges.deleted totalChanges))
  end.

(** The difference, if any, that the first loop pushes for a local entry. *)
Definition localChange (remote : Snapshot) (entry : string * FileData.t)
  : option Difference.t :=
  (visitLocal remote ([], no_changes) entry).1 !! 0%nat.

(** The difference, if any, that the second loop pushes for a remote
    entry. *)
Definition remoteChange (localData : Snapshot) (entry : string * FileData.t)
  : option Difference.t :=
  (visitRemote localData ([], no_changes) entry).1 !! 0%nat.

(** *** The spec's examples, run on [IpfsService] *)

(** The world after [backup ("data")] of a tree, from a fresh store with
    the clock at 1000. *)
Definition world_after_backup (tree : node) (options : BackupOptions.t)
  : World LocalIpfs.Store :=
  (backup LocalIpfs.uploadJson "data" options (LocalIpfs.world tree 1000)).2.

(** [data/raw.txt] holding the single byte [0xFF], which is not UTF-8. *)
Definition tree_not_utf8 : node :=
  Dir [("data", Dir [("raw.txt", File [xff])])].

(** Encryption switched on, with AES-256-GCM and the passphrase [secret]. *)
Definition gcm_options : BackupOptions.t :=
  BackupOptions.make None None
    (Some (EncryptionOptions.make true "secret" (Some "aes-256-gcm"))).

(** The path and kind of each difference. *)
Definition summary (dc : DetailedComparison.t) : list (string * ChangeType) :=
  map (fun d => (Difference.path d, Difference.type d))
      (DetailedComparison.differences dc).

(** The [hash] of a returned [BackupResult]. *)
Definition hash_of (r : Result BackupResult.t) : option string :=
  match r with
  | Ok backupResult => Some (BackupResult.hash backupResult)
  | Throw _ => None
  end.

(** Encryption switched on with another passphrase. *)
Definition gcm_options_other_key : BackupOptions.t :=
  BackupOptions.make None None
    (Some (EncryptionOptions.make true "other" (Some "aes-256-gcm"))).

(** ** Vocabulary of the further properties *)

(** *** Well-formed UTF-8 *)

Definition between (lo hi b : Z) : bool := (lo <=? b) && (b <=? hi).

(** The well-formed UTF-8 byte sequences (The Unicode Standard, table
    3-7). *)
Fixpoint well_formed_utf8 (bs : list Z) : bool :=
  match bs with
  | [] => true
  | b0 :: rest =>
      if between 0x00 0x7F b0 then well_formed_utf8 rest
      else if between 0xC2 0xDF b0 then
        match rest with
        | b1 :: rest' => between 0x80 0xBF b1 && well_formed_utf8 rest'
        | _ => false
        end
      else if between 0xE0 0xEF b0 then
        match rest with
        | b1 :: b2 :: rest' =>
            between (if b0 =? 0xE0 then 0xA0 else 0x80)
                    (if b0 =? 0xED then 0x9F else 0xBF) b1
            && between 0x80 0xBF b2 && well_formed_utf8 rest'
        | _ => false
        end
      else if between 0xF0 0xF4 b0 then
        match rest with
        | b1 :: b2 :: b3 :: rest' =>
            between (if b0 =? 0xF0 then 0x90 else 0x80)
                    (if b0 =? 0xF4 then 0x8F else 0xBF) b1
            && between 0x80 0xBF b2 && between 0x80 0xBF b3
            && well_formed_utf8 rest'
        | _ => false
        end
      else false
  end.

Definition continuation (b : Z) : Prop := 0x80 <= b <= 0xBF.

(** The byte lists that complete the sequence a decoder state is in. *)
Definition completes (st : Utf8.state) (c : list Z) : Prop :=
  match Utf8.needed st, c with
  | S n, b :: c' =>
      Utf8.lower st <= b <= Utf8.upper st
      /\ List.length c' = n /\ Forall continuation c'
  | _, _ => False
  end.

(** A decoder state whose pending bytes begin a well-formed sequence. *)
Definition state_ok (st : Utf8.state) : Prop :=
  Utf8.needed st = 0%nat
  \/ forall c rest, completes st c -> well_formed_utf8 rest = true ->
       well_formed_utf8 (Utf8.pending st ++ c ++ rest) = true.

(** A base64 digit that decodes to the value it stands for. *)
Definition sextet_ok (n : Z) : bool :=
  match Base64.unbase64 (Base64.digit n) with
  | Some v => (v =? n) && negb (Ascii.eqb (Base64.digit n) "="%char)
  | None => false
  end.

(** *** The walk and the loop of [restore] *)

(** What the loop body of [restore] does for a record it accepts:
    [ensureDir] of the directory of the file, then [writeFile] of [data],
    inside the [try] that rewrites the error. *)
Definition writeRestored {B} (targetPath fileName : string) (data : Buffer) : M B unit :=
  let filePath := Path.join targetPath fileName in
  try_catch
    (fs_ensureDir (Path.dirname filePath) ;;; fs_writeFile filePath data)
    (fun error => throw (failed_to_restore_file fileName error)).

(** The loop of [processDirectory] over the entries of a directory. *)
Definition walkEntries {E : Externals} {B : Type} (dirPath baseDir : string)
    (options : BackupOptions.t)
  : list (string * node) -> Snapshot -> M B Snapshot :=
  fix each (files : list (string * node)) (backupData : Snapshot)
      {struct files} : M B Snapshot :=
    match files with
    | [] => ret backupData
    | (name, child) :: rest =>
        if excluded options name then each rest backupData
        else
          let fullPath := Path.join dirPath name in
          let relativePath := backslashes_to_slashes (Path.join baseDir name) in
          match child with
          | Dir _ =>
              backupData' <-
                processDirectory_at child fullPath relativePath backupData options ;;
              each rest backupData'
          | File _ =>
              backupData' <-
                processFile fullPath relativePath backupData options ;;
              each rest backupData'
          end
    end.

(** File-system calls that only read. *)
Definition reads_only (op : FsOp) : bool :=
  match op with
  | OpEnsureDir _ | OpWriteFile _ _ => false
  | _ => true
  end.

(** [w'] differs from [w] by calls that read the file system, and by draws
    of random bytes: the file tree, the storage service, the calls made on
    it and the clock are the same. *)
Definition only_read {B} (w w' : World B) : Prop :=
  fs w' = fs w /\ backend w' = backend w
  /\ storage_calls w' = storage_calls w /\ clock w' = clock w
  /\ exists ops, fs_log w' = fs_log w ++ ops /\ forallb reads_only ops = true.

(** A computation that only reads. *)
Definition reading {B A} (c : M B A) : Prop := forall w, only_read w (c w).2.

(** Two option sets under which every entry is treated alike. *)
Definition same_treatment {E : Externals} (o1 o2 : BackupOptions.t) : Prop :=
  (forall name, excluded o1 name = excluded o2 name)
  /\ (forall stats, oversized o1 stats = oversized o2 stats)
  /\ encryption_of o1 = encryption_of o2.

(** *** [compareDetailed] *)




(** *** More sample inputs *)

(** [data/logo.png], four bytes that are not UTF-8. *)
Definition tree_logo : node :=
  Dir [("data", Dir [("logo.png", File [x89; x50; x4e; x47])])].

(** [data/a.txt] next to a directory [data/tmp] with one file. *)
Definition tree_with_tmp : node :=
  Dir [("data", Dir [("a.txt", File (Buffer_from "hello"));
                     ("tmp", Dir [("junk.bin", File [x00])])])].

(** [excludePatterns: \[/tmp/\]]. *)
Definition skip_tmp : BackupOptions.t :=
  BackupOptions.make (Some [fun name => includes "tmp" name]) None None.

(** [maxFileSize: 4]. *)
Definition at_most_four_bytes : BackupOptions.t :=
  BackupOptions.make None (Some 4) None.

(** Encryption switched on, with an empty key. *)
Definition gcm_options_empty_key : BackupOptions.t :=
  BackupOptions.make None None
    (Some (EncryptionOptions.make true "" (Some "aes-256-gcm"))).

(** The [Encryption] object of [gcm_options], the iv of the first draw, and
    what the stand-in cipher makes of [hello] with them. *)
Definition secret_encryption : Encryption.t :=
  Encryption.new "secret" (Some "aes-256-gcm").

Definition first_iv : Buffer := randomBytes 0 16.

Definition hello_sealed : Buffer * Buffer :=
  match cipher "aes-256-gcm" (Encryption.key secret_encryption) first_iv
               (Buffer_from "hello") with
  | Ok sealed => sealed
  | Throw _ => ([], [])
  end.

(** *** The storage services, step by step *)

(** The world once [PinataService] has sent the request [r] and the
    backend has moved to [remote']. *)
Definition answered {Remote} (w : World (Pinata.Backend Remote))
    (r : Pinata.Request) (remote' : Remote) : World (Pinata.Backend Remote) :=
  mkWorld (fs w) (fs_log w)
    (Pinata.mkBackend (Pinata.lastRequestTime (backend w)) remote'
       (Pinata.requests (backend w) ++ [r]))
    (storage_calls w) (clock w) (entropy w).

(** The world once [IpfsService.enforceRateLimit] has run. *)
Definition ipfs_rate_limited {Remote} (w : World (Ipfs.Backend Remote))
  : World (Ipfs.Backend Remote) :=
  let now' := Z.max (clock w) (Ipfs.lastRequestTime (backend w) + Ipfs.rateLimitMs) in
  mkWorld (fs w) (fs_log w)
    (Ipfs.mkBackend now' (Ipfs.remote (backend w)) (Ipfs.requests (backend w)))
    (storage_calls w) now' (entropy w).

(** The world once [IpfsService] has sent the request [r] and the node has
    moved to [remote']. *)
Definition ipfs_answered {Remote} (w : World (Ipfs.Backend Remote))
    (r : Ipfs.Request) (remote' : Remote) : World (Ipfs.Backend Remote) :=
  mkWorld (fs w) (fs_log w)
    (Ipfs.mkBackend (Ipfs.lastRequestTime (backend w)) remote'
       (Ipfs.requests (backend w) ++ [r]))
    (storage_calls w) (clock w) (entropy w).

(** What [IpfsService.uploadJson] files for a payload. *)
Definition stored_payload (jsonData : UploadData.t) : BackupData.t :=
  {| BackupData.data := Some (UploadData.data jsonData);
     BackupData.metadata := Some (UploadData.metadata jsonData) |}.

(** *** [compare] against [backup] *)

(** A name a directory entry can have: not empty, not [.] or [..], no
    slash. *)
Definition proper_name (name : string) : bool :=
  negb (String.eqb name "") && negb (String.eqb name ".")
  && negb (String.eqb name "..")
  && forallb (fun c => negb (Path.is_slash c)) (chars name).

(** A tree all of whose entries have such names. *)
Fixpoint well_named (n : node) : bool :=
  match n with
  | File _ => true
  | Dir entries =>
      forallb (fun entry : string * node =>
                 let '(name, child) := entry in
                 proper_name name && well_named child) entries
  end.

(** A path that ends in the segment [name]. *)
Definition ends_in (name : list ascii) (p : list ascii) : Prop :=
  p = name \/ exists q, p = q ++ Path.slash :: name.

(** The loop of the local [processDirectory] of [compare] over the entries
    of a directory. *)
Definition compareEntries {B : Type} (dirPath baseDir : string)
  : list (string * node) -> Snapshot -> M B Snapshot :=
  fix each (files : list (string * node)) (localData : Snapshot)
      {struct files} : M B Snapshot :=
    match files with
    | [] => ret localData
    | (name, child) :: rest =>
        let fullPath := Path.join dirPath name in
        let relativePath := backslashes_to_slashes (Path.join baseDir name) in
        match child with
        | Dir _ =>
            localData' <-
              compare_processDirectory_at child fullPath relativePath localData ;;
            each rest localData'
        | File _ =>
            content <- fs_readFile fullPath ;;
            let isBinary := isBinaryFile name in
            each rest
              (<[relativePath :=
                   FileData.plain (if isBinary then "binary" else "text")
                                  (if isBinary then Base64.encode content
                                   else Utf8.decode content)
                                  (getMimeType name)]> localData)
        end
    end.

(** What a computation returned, if it did. *)
Definition returned {A} (r : Result A) : option A :=
  match r with Ok a => Some a | Throw _ => None end.

(** ** [PinataService.get] ([dist/ipfs/services/pinata.js]) *)

(** The values [JSON.parse] makes, as far as [get] looks at them.  An
    object is the list of its own properties in the order [Object.entries]
    lists them.  Of a number the program asks only whether it is falsy; the
    integers stand for the numbers. *)
Module Js.

Inductive value :=
| Undefined
| Null
| Bool (b : bool)
| Num (n : Z)
| Str (s : string)
| Arr (items : list value)
| Obj (props : list (string * value)).

(** [!!v]. *)
Definition truthy (v : value) : bool :=
  match v with
  | Undefined | Null => false
  | Bool b => b
  | Num n => negb (n =? 0)
  | Str s => truthy_string s
  | Arr _ | Obj _ => true
  end.

(** [typeof v === "object"]; [null] is one. *)
Definition typeof_object (v : value) : bool :=
  match v with
  | Null | Arr _ | Obj _ => true
  | _ => false
  end.

Definition is_null (v : value) : bool :=
  match v with Null => true | _ => false end.

Fixpoint find (key : string) (props : list (string * value)) : option value :=
  match props with
  | [] => None
  | (k, v) :: rest => if String.eqb k key then Some v else find key rest
  end.

(** [v?.key] for a [key] that is neither an index, [length] nor a property
    of a prototype: the own property of an object, [undefined] on every
    other value. *)
Definition prop (key : string) (v : value) : value :=
  match v with
  | Obj props =>
      match find key props with
      | Some x => x
      | None => Undefined
      end
  | _ => Undefined
  end.

Fixpoint indexed {A} (i : nat) (l : list A) : list (string * A) :=
  match l with
  | [] => []
  | a :: rest => (decimal i, a) :: indexed (S i) rest
  end.

(** [Object.entries (v)] of a value that is not [null] or [undefined].  A
    string lists its characters (here one per byte of its encoding; the
    loop of [get] stops at the first). *)
Definition entries (v : value) : list (string * value) :=
  match v with
  | Obj props => props
  | Arr items => indexed 0 items
  | Str s => indexed 0 (map (fun c => Str (String c EmptyString)) (chars s))
  | _ => []
  end.

End Js.

Module PinataService.

(** What [get] returns: [{ data, metadata }].  The loop of [get] rewrites
    the entries of [data] that look encrypted: [selfContained] lists their
    paths, in order; each of these objects now has its [mimeType] as
    [type], and itself as [content]. *)
Record ResultData := mkResultData {
  data : Js.value;
  selfContained : list string;
  metadata : Js.value;
}.

Definition invalid_data (path what : string) : exn :=
  Error ("Invalid data for file " +:+ path +:+ ": " +:+ what).

(** The loop over [Object.entries (fileData)]. *)
Fixpoint checkEntries (entries : list (string * Js.value)) (rewritten : list string)
  : Result (list string) :=
  match entries with
  | [] => Ok rewritten
  | (path, data) :: rest =>
      if negb (Js.typeof_object data) || Js.is_null data then
        Throw (invalid_data path "data must be an object")
      else if Js.truthy (Js.prop "iv" data) && Js.truthy (Js.prop "mimeType" data) then
        checkEntries rest (rewritten ++ [path])
      else if negb (Js.truthy (Js.prop "type" data)) then
        Throw (invalid_data path "missing 'type' field")
      else if negb (Js.truthy (Js.prop "content" data)) then
        Throw (invalid_data path "missing 'content' field")
      else checkEntries rest rewritten
  end.

Section Service.
Context {Remote : Type}.
(** [gateways.get (hash)] of the SDK: the response, as a value. *)
Variable sdk_gateways_get : string -> Remote -> Result Js.value * Remote.

(** [response] is an object when the test [typeof response === "string"]
    is reached, so [JSON.parse] is never called. *)
Definition get (hash : string) : M (Pinata.Backend Remote) ResultData :=
  try_catch
    (if negb (truthy_string hash) then throw (Error "Invalid hash")
     else
       Pinata.enforceRateLimit ;;;
       response <- Pinata.request (Pinata.GatewaysGet hash) (sdk_gateways_get hash) ;;
       if negb (Js.truthy response) || negb (Js.typeof_object response) then
         throw (Error "Invalid response from Pinata")
       else
         let responseData := response in
         if negb (Js.truthy (Js.prop "data" (Js.prop "data" responseData))) then
           throw (Error "Invalid data structure in backup")
         else
           let fileData := Js.prop "data" (Js.prop "data" responseData) in
           let stored := Js.prop "metadata" (Js.prop "data" responseData) in
           metadata <-
             (if Js.truthy stored then ret stored
              else
                now <- Date_now ;;
                ret (Js.Obj [("timestamp", Js.Num now); ("type", Js.Str "json")])) ;;
           rewritten <- of_result (checkEntries (Js.entries fileData) []) ;;
           ret (mkResultData fileData rewritten metadata))
    (fun error => throw error).

End Service.
End PinataService.

(** An entry [get] accepts: an object with [iv] and [mimeType], or with
    [type] and [content], all truthy. *)
Definition looks_encrypted (data : Js.value) : bool :=
  Js.truthy (Js.prop "iv" data) && Js.truthy (Js.prop "mimeType" data).

Definition accepted (data : Js.value) : bool :=
  Js.typeof_object data && negb (Js.is_null data)
  && (looks_encrypted data
      || (Js.truthy (Js.prop "type" data) && Js.truthy (Js.prop "content" data))).

(** The error [get] throws for an entry it does not accept. *)
Definition entry_error (path : string) (data : Js.value) : exn :=
  if negb (Js.typeof_object data) || Js.is_null data then
    PinataService.invalid_data path "data must be an object"
  else if negb (Js.truthy (Js.prop "type" data)) then
    PinataService.invalid_data path "missing 'type' field"
  else PinataService.invalid_data path "missing 'content' field".

(** The first entry that is not accepted. *)
Fixpoint first_refused (entries : list (string * Js.value))
  : option (string * Js.value) :=
  match entries with
  | [] => None
  | (path, data) :: rest =>
      if accepted data then first_refused rest else Some (path, data)
  end.

(** The metadata [get] returns for a stored one, at time [now]. *)
Definition metadata_or_default (stored : Js.value) (now : Z) : Js.value :=
  if Js.truthy stored then stored
  else Js.Obj [("timestamp", Js.Num now); ("type", Js.Str "json")].

(** A record of a snapshot as [JSON.parse] returns it. *)
Definition json_property (key : string) (value : option string)
  : list (string * Js.value) :=
  match value with
  | Some v => [(key, Js.Str v)]
  | None => []
  end.

Definition record_json (d : FileData.t) : Js.value :=
  Js.Obj
    ((if FileData.isEncrypted d then [("isEncrypted", Js.Bool true)] else [])
     ++ json_property "encrypted" (FileData.encrypted d)
     ++ json_property "iv" (FileData.iv d)
     ++ json_property "authTag" (FileData.authTag d)
     ++ json_property "type" (FileData.type d)
     ++ json_property "content" (FileData.content d)
     ++ json_property "mimeType" (FileData.mimeType d)).

(** The response of the gateway for a pinned [{ data, metadata }]. *)
Definition gateway_response (fileData stored : Js.value) : Js.value :=
  Js.Obj [("data", Js.Obj [("data", fileData); ("metadata", stored)]);
          ("contentType", Js.Str "application/json")].

(** The paths of the entries that look encrypted. *)
Definition encrypted_paths (entries : list (string * Js.value)) : list string :=
  map fst (List.filter (fun entry => looks_encrypted entry.2) entries).

(** The files of a snapshot taken without encryption: path, whether the
    file counts as binary, its bytes, its MIME type. *)
Definition PlainFile : Type := string * (bool * Buffer * string).

Definition plain_entry (file : PlainFile) : string * Js.value :=
  let '(path, (isBinary, content, mimeType)) := file in
  (path, record_json (plain_record isBinary content mimeType)).

Definition is_empty_file (file : PlainFile) : bool :=
  let '(_, (_, content, _)) := file in
  match content with [] => true | _ => false end.

(** The first empty file, if any. *)
Definition first_empty (files : list PlainFile) : option string :=
  match List.filter is_empty_file files with
  | [] => None
  | file :: _ => Some file.1
  end.

(** *** Sample inputs for [PinataService.get] *)

Definition one_file : list PlainFile :=
  [("a.txt", (false, Buffer_from "hello", "application/octet-stream"))].

(** A gateway that answers every request with the snapshot of
    [one_file]. *)
Definition one_file_gateway (hash : string) (r : unit) : Result Js.value * unit :=
  (Ok (gateway_response (Js.Obj (map plain_entry one_file)) Js.Undefined), r).

Definition two_files : list PlainFile :=
  [("a.txt", (false, Buffer_from "hello", "application/octet-stream"));
   ("empty.txt", (false, [], "application/octet-stream"))].

(** A gateway that answers every request with the snapshot of
    [two_files]. *)
Definition two_files_gateway (hash : string) (r : unit) : Result Js.value * unit :=
  (Ok (gateway_response (Js.Obj (map plain_entry two_files)) Js.Undefined), r).

(** ** [ShogunIpfs.uploadBuffer] ([dist/core.js]) and
       [IpfsService.uploadFile] *)

(** [String (n)] for an integer (below [10^21] in size, where JavaScript
    still writes all the digits). *)
Definition number_text (z : Z) : string :=
  if z <? 0 then "-" +:+ decimal (Z.to_nat (- z)) else decimal (Z.to_nat z).

Fixpoint remove_entry (name : string) (entries : list (string * node))
  : list (string * node) :=
  match entries with
  | [] => []
  | (n, c) :: rest =>
      if String.eqb n name then rest else (n, c) :: remove_entry name rest
  end.

(** [unlink]: the file at [segs] is removed; anything else there, or
    nothing, is an error. *)
Fixpoint unlink_at (segs : list string) (n : node) : Fs.code + node :=
  match segs with
  | [] => inl Fs.EISDIR
  | seg :: rest =>
      match n with
      | File _ => inl Fs.ENOTDIR
      | Dir entries =>
          match Fs.find_entry seg entries with
          | None => inl Fs.ENOENT
          | Some child =>
              match rest with
              | [] =>
                  match child with
                  | File _ => inr (Dir (remove_entry seg entries))
                  | Dir _ => inl Fs.EISDIR
                  end
              | _ =>
                  match unlink_at rest child with
                  | inr child' => inr (Dir (Fs.set_entry seg child' entries))
                  | inl c => inl c
                  end
              end
          end
      end
  end.

(** [fs.unlinkSync (path)]. *)
Definition fs_unlinkSync {B} (path : string) : M B unit :=
  w <- get_world ;;
  match unlink_at (Fs.segments path) (fs w) with
  | inr root => set_fs root
  | inl c => throw (Fs.error c "unlink" path)
  end.

Module IpfsService.
Section Service.
Context {Remote : Type}.
(** [add (content)] of the client, given the bytes of a file. *)
Variable sdk_add_file : Buffer -> Remote -> Result string * Remote.

Definition uploadFile (filePath : string) : M (Ipfs.Backend Remote) UploadOutput.t :=
  try_catch
    (content <- fs_readFile filePath ;;
     Ipfs.enforceRateLimit ;;;
     cid <- Ipfs.request Ipfs.Add (sdk_add_file content) ;;
     ret {| UploadOutput.id := cid |})
    (fun error => throw error).

End Service.
End IpfsService.

Module ShogunIpfs.
Section Methods.
Context {B : Type}.
(** [os.tmpdir ()], and [this.storage.uploadFile]. *)
Variable os_tmpdir : string.
Variable uploadFile : string -> M B UploadOutput.t.

Definition uploadBuffer (buffer : Buffer) : M B UploadOutput.t :=
  now <- Date_now ;;
  let tempFilePath := Path.join os_tmpdir ("temp_" +:+ number_text now) in
  fs_writeFile tempFilePath buffer ;;;
  try_finally
    (uploadFile tempFilePath)
    (try_catch (fs_unlinkSync tempFilePath) (fun e => ret tt)).

End Methods.
End ShogunIpfs.

(** The temporary file [uploadBuffer] uses when the clock shows [now]. *)
Definition tempFilePath_at (os_tmpdir : string) (now : Z) : string :=
  Path.join os_tmpdir ("temp_" +:+ number_text now).

(** *** Sample inputs for [uploadBuffer] *)

Definition tree_tmp : node := Dir [("tmp", Dir []); ("data", Dir [])].

(** A node that files every buffer under [cid-0]. *)
Definition accepting_add (content : Buffer) (r : unit) : Result string * unit :=
  (Ok "cid-0", r).

(** A node that is down. *)
Definition failing_add (content : Buffer) (r : unit) : Result string * unit :=
  (Throw (Error "connect ECONNREFUSED"), r).

Definition tmp_world : World (Ipfs.Backend unit) :=
  mkWorld tree_tmp [] (Ipfs.mkBackend 0 tt []) [] 1000 0.

(** *** What [restore] leaves on disk *)

(** The calls of [fs.writeFile] among [ops], in order: path and data. *)
Definition writes (ops : list FsOp) : list (string * Buffer) :=
  omap (fun op => match op with OpWriteFile p data => Some (p, data) | _ => None end)
       ops.

(** The places written to, as the file system sees them. *)
Definition written_places (ops : list FsOp) : list (list string) :=
  map (fun write : string * Buffer => Fs.segments write.1) (writes ops).

(** *** The snapshot and the tree *)

(** A segment that [normalizeString] keeps. *)
Definition kept (seg : string) : bool :=
  negb (String.eqb seg "" || String.eqb seg ".") && negb (String.eqb seg "..").
















(** * Properties *)

(** ** The models of the platform, on known values *)

(** [sha3_256] on the test vectors of FIPS 202: the empty message, [abc],
    and 200 bytes [0xA3] (two blocks). *)
Lemma sha3_256_test_vectors :
  sha3_256 "" = "a7ffc6f8bf1ed76651c14756a061d662f580ff4de43b49fa82d80a4b80f8434a"
  /\ sha3_256 "abc"
     = "3a985da74fe225b2045c172d6bd390bd855f086e3e9d525b46bfe24511431532"
  /\ hex_of_bytes (Keccak.sha3_256_bytes (repeat 0xA3 200))
     = "79f38adec5c20307a98ef76e8324afbfd46cfd81b22e3973c65fa1bd9de31787".
Proof. vm_compute. repeat split. Qed.

Lemma base64_examples :
  Base64.encode (Buffer_from "hello") = "aGVsbG8="
  /\ Base64.encode (Buffer_from "ab") = "YWI="
  /\ Base64.encode [] = ""
  /\ Base64.decode "aGVsbG8=" = Buffer_from "hello"
  /\ Base64.decode "aGVs bG8" = Buffer_from "hello".
Proof. vm_compute. repeat split. Qed.

(** [Buffer.toString ('utf8')]: ASCII and well-formed sequences are kept
    ([h], then U+00E9), an ill-formed byte ([0xFF]) and a sequence cut
    short ([E2 82] before [A]) each become U+FFFD. *)
Lemma utf8_examples :
  Utf8.decode (Buffer_from "hello") = "hello"
  /\ Buffer_from (Utf8.decode [x68; xc3; xa9]) = [x68; xc3; xa9]
  /\ Buffer_from (Utf8.decode [xff]) = [xef; xbf; xbd]
  /\ Buffer_from (Utf8.decode [xe2; x82; x41]) = [xef; xbf; xbd; x41].
Proof. vm_compute. repeat split. Qed.

Lemma path_examples :
  Path.join "" "a.txt" = "a.txt"
  /\ Path.join "data" "a.txt" = "data/a.txt"
  /\ Path.join "out" "sub/../b.txt" = "out/b.txt"
  /\ Path.dirname "out/sub/b.txt" = "out/sub"
  /\ Path.dirname "a.txt" = "."
  /\ Path.basename "data/sub/" = "sub"
  /\ Path.extname "data/photo.PNG" = ".PNG"
  /\ Path.extname ".bashrc" = ""
  /\ Path.extname "archive.tar.gz" = ".gz".
Proof. vm_compute. repeat split. Qed.

Lemma classification_examples :
  isBinaryFile "data/photo.PNG" = true
  /\ isBinaryFile "data/a.txt" = false
  /\ getMimeType "data/photo.PNG" = "image/png"
  /\ getMimeType "data/archive.zip" = "application/octet-stream".
Proof. vm_compute. repeat split. Qed.

Lemma cid_pattern_examples :
  Pinata.CID_PATTERN_test sample_cid = true
  /\ Pinata.CID_PATTERN_test "cid-0" = false
  /\ Pinata.CID_PATTERN_test "Qm123" = false
  /\ Pinata.CID_PATTERN_test "" = false.
Proof. vm_compute. repeat split. Qed.

(** ** [delete] *)

Section Delete.
Context {B : Type}.
Variables isPinned unpin : string -> M B bool.

(** [delete] in terms of what the two storage methods do. *)
Lemma delete_run (hash : string) (w : World B) :
  delete isPinned unpin hash w =
    match isPinned hash (with_call (CallIsPinned hash) w) with
    | (Ok false, w1) => (Ok false, w1)
    | (Ok true, w1) =>
        match unpin hash (with_call (CallUnpin hash) w1) with
        | (Ok _, w2) => (Ok true, w2)
        | (Throw _, w2) => (Ok false, w2)
        end
    | (Throw _, w1) => (Ok false, w1)
    end.
Proof.
  unfold delete, with_call. unfold_monad.
  destruct (isPinned hash _) as [[[] | e] w1]; simpl; try reflexivity.
  destruct (unpin hash _) as [[b | e] w2]; reflexivity.
Qed.

(** [delete] never throws. *)
Lemma delete_never_throws (hash : string) (w : World B) :
  exists b w', delete isPinned unpin hash w = (Ok b, w').
Proof.
  rewrite delete_run.
  destruct (isPinned hash _) as [[[] | e] w1]; eauto.
  destruct (unpin hash _) as [[b | e] w2]; eauto.
Qed.

End Delete.

(** C3.  If [isPinned (hash)] answers [false], [delete (hash)] returns
    [false] and leaves the world as the check left it: nothing runs after
    the check, so [unpin] is not invoked, whatever [unpin] is, and when the
    check itself leaves the call log alone the one call recorded is
    [isPinned].  If [isPinned (hash)] answers [true], [delete] records a
    call of [unpin (hash)], runs it, and returns [true] when it returns. *)
Theorem delete_checks_pin_before_unpin {B : Type}
    (isPinned unpin : string -> M B bool) (hash : string) (w : World B) :
  (forall w1,
      isPinned hash (with_call (CallIsPinned hash) w) = (Ok false, w1) ->
      delete isPinned unpin hash w = (Ok false, w1)
      /\ (storage_calls w1 = storage_calls w ++ [CallIsPinned hash] ->
          CallUnpin hash ∉ storage_calls w ->
          CallUnpin hash ∉ storage_calls (delete isPinned unpin hash w).2))
  /\ (forall w1 unpinned w2,
        isPinned hash (with_call (CallIsPinned hash) w) = (Ok true, w1) ->
        unpin hash (with_call (CallUnpin hash) w1) = (Ok unpinned, w2) ->
        delete isPinned unpin hash w = (Ok true, w2)
        /\ CallUnpin hash ∈ storage_calls (with_call (CallUnpin hash) w1)).
Proof.
  split.
  - intros w1 Hcheck. rewrite delete_run, Hcheck. split; [reflexivity |].
    simpl. intros -> Hfresh Hin.
    apply elem_of_app in Hin as [Hin | Hin]; [contradiction |].
    apply list_elem_of_singleton in Hin. discriminate.
  - intros w1 unpinned w2 Hcheck Hunpin. rewrite delete_run, Hcheck, Hunpin.
    split; [reflexivity |]. simpl. apply elem_of_app. right.
    apply list_elem_of_singleton. reflexivity.
Qed.

(** What [isPinned] and [unpin] of [IpfsService] answer on the stand-in
    node, before and after [cid-0] is pinned. *)
Lemma local_isPinned_nothing_pinned :
  LocalIpfs.isPinned "cid-0" (with_call (CallIsPinned "cid-0") unpinned_world)
  = (Ok false, unpinned_world_checked).
Proof. vm_compute. reflexivity. Qed.

Lemma local_isPinned_pinned :
  LocalIpfs.isPinned "cid-0" (with_call (CallIsPinned "cid-0") pinned_world)
  = (Ok true, pinned_world_checked).
Proof. vm_compute. reflexivity. Qed.

Lemma local_unpin_pinned :
  LocalIpfs.unpin "cid-0" (with_call (CallUnpin "cid-0") pinned_world_checked)
  = (Ok true, pinned_world_unpinned).
Proof. vm_compute. reflexivity. Qed.

Lemma local_worlds :
  storage_calls unpinned_world_checked = [CallIsPinned "cid-0"]
  /\ LocalNode.pins (Ipfs.remote (backend pinned_world)) = ["cid-0"]
  /\ LocalNode.pins (Ipfs.remote (backend pinned_world_unpinned)) = []
  /\ storage_calls pinned_world_unpinned = [CallIsPinned "cid-0"; CallUnpin "cid-0"].
Proof. vm_compute. repeat split. Qed.

(** C3, on [IpfsService] over the stand-in node: with nothing pinned
    [delete] returns [false] in the world the check left, whose recorded
    calls are the one [isPinned]; with [cid-0] pinned it calls [unpin],
    which removes the pin, and returns [true]. *)
Lemma delete_checks_pin_before_unpin_witness :
  (delete LocalIpfs.isPinned LocalIpfs.unpin "cid-0" unpinned_world
     = (Ok false, unpinned_world_checked)
   /\ storage_calls unpinned_world_checked = [CallIsPinned "cid-0"])
  /\ (delete LocalIpfs.isPinned LocalIpfs.unpin "cid-0" pinned_world
        = (Ok true, pinned_world_unpinned)
      /\ LocalNode.pins (Ipfs.remote (backend pinned_world)) = ["cid-0"]
      /\ LocalNode.pins (Ipfs.remote (backend pinned_world_unpinned)) = []).
Proof.
  destruct local_worlds as (Hcalls & Hbefore & Hafter & _).
  split.
  - split; [| exact Hcalls].
    exact (proj1 (proj1 (delete_checks_pin_before_unpin
                           LocalIpfs.isPinned LocalIpfs.unpin "cid-0" unpinned_world)
                    unpinned_world_checked local_isPinned_nothing_pinned)).
  - split; [| split; [exact Hbefore | exact Hafter]].
    exact (proj1 (proj2 (delete_checks_pin_before_unpin
                           LocalIpfs.isPinned LocalIpfs.unpin "cid-0" pinned_world)
                    pinned_world_checked true pinned_world_unpinned
                    local_isPinned_pinned local_unpin_pinned)).
Defined.

(** ** [PinataService]: pin status and unpinning *)

Section PinataFacts.
Context {Remote Response : Type}.
Variable sdk_gateways_get : string -> Remote -> Result (option Response) * Remote.
Variable sdk_unpin : list string -> Remote -> Result unit * Remote.

Lemma enforceRateLimit_run (w : World (Pinata.Backend Remote)) :
  Pinata.enforceRateLimit w = (Ok tt, rate_limited w).
Proof.
  unfold Pinata.enforceRateLimit, rate_limited. unfold_monad. simpl.
  destruct (clock w - Pinata.lastRequestTime (backend w) <? Pinata.rateLimitMs);
    reflexivity.
Qed.

(** A malformed CID is answered without touching the world. *)
Lemma isPinned_invalid (hash : string) (w : World (Pinata.Backend Remote)) :
  Pinata.invalid_cid hash = true ->
  Pinata.isPinned sdk_gateways_get hash w = (Ok false, w).
Proof.
  intros H. unfold Pinata.isPinned. unfold_monad. rewrite H. reflexivity.
Qed.

Lemma unpin_invalid (hash : string) (w : World (Pinata.Backend Remote)) :
  Pinata.invalid_cid hash = true ->
  Pinata.unpin sdk_gateways_get sdk_unpin hash w = (Ok false, w).
Proof.
  intros H. unfold Pinata.unpin. unfold_monad. rewrite H. reflexivity.
Qed.

(** [isPinned] on a well-formed CID, by the answer of the gateway. *)
Lemma isPinned_run (hash : string) (w : World (Pinata.Backend Remote)) :
  Pinata.invalid_cid hash = false ->
  (Pinata.isPinned sdk_gateways_get hash w).1 =
    match (sdk_gateways_get hash (Pinata.remote (backend w))).1 with
    | Ok response => Ok (bool_decide (is_Some response))
    | Throw e =>
        if is_not_found e then Ok false
        else if is_auth_failure e then Throw Pinata.authError
        else Ok false
    end.
Proof.
  intros H. unfold Pinata.isPinned, Pinata.request.
  unfold try_catch at 1. rewrite H.
  unfold try_catch, bind at 1. rewrite enforceRateLimit_run.
  unfold_monad. simpl.
  destruct (sdk_gateways_get hash (Pinata.remote (backend w))) as [[r | e] remote'];
    simpl; [reflexivity |].
  unfold is_not_found, is_auth_failure.
  destruct (message_includes "NOT_FOUND" e || message_includes "url does not contain CID" e);
    simpl; [reflexivity |].
  destruct (message_includes "INVALID_CREDENTIALS" e); reflexivity.
Qed.

End PinataFacts.

(** C10.  For a hash that is empty or does not match [CID_PATTERN],
    [PinataService.isPinned] and [PinataService.unpin] return [false] and
    leave the world as it was: no rate-limit wait and no request to the
    backend (the list of requests sent is part of the world). *)
Theorem invalid_cid_returns_false_without_request {Remote Response : Type}
    (sdk_gateways_get : string -> Remote -> Result (option Response) * Remote)
    (sdk_unpin : list string -> Remote -> Result unit * Remote)
    (hash : string) (w : World (Pinata.Backend Remote)) :
  hash = "" \/ Pinata.CID_PATTERN_test hash = false ->
  Pinata.isPinned sdk_gateways_get hash w = (Ok false, w)
  /\ Pinata.unpin sdk_gateways_get sdk_unpin hash w = (Ok false, w).
Proof.
  intros H.
  assert (Hinvalid : Pinata.invalid_cid hash = true).
  { unfold Pinata.invalid_cid. destruct H as [-> | ->]; [reflexivity |].
    apply orb_true_r. }
  split; [apply isPinned_invalid | apply unpin_invalid]; exact Hinvalid.
Qed.

(** C10, at the empty hash and at a hash that is no CID, on an account
    where every CID is pinned. *)
Lemma invalid_cid_returns_false_without_request_witness :
  (Pinata.isPinned pinned_get "" (pinata_world 1000) = (Ok false, pinata_world 1000)
   /\ Pinata.unpin pinned_get accepted_unpin "" (pinata_world 1000)
      = (Ok false, pinata_world 1000))
  /\ (Pinata.isPinned pinned_get "cid-0" (pinata_world 1000)
      = (Ok false, pinata_world 1000)
      /\ Pinata.unpin pinned_get accepted_unpin "cid-0" (pinata_world 1000)
         = (Ok false, pinata_world 1000)).
Proof.
  split.
  - apply (invalid_cid_returns_false_without_request pinned_get accepted_unpin "").
    left. reflexivity.
  - apply (invalid_cid_returns_false_without_request pinned_get accepted_unpin "cid-0").
    right. reflexivity.
Defined.

(** [unpin] on a well-formed CID that is pinned, by the answer to the unpin
    request: not-found answers become [false], a rejected token becomes the
    authentication error, anything else is thrown on as it is. *)
Lemma unpin_failure_run {Remote Response : Type}
    (sdk_gateways_get : string -> Remote -> Result (option Response) * Remote)
    (sdk_unpin : list string -> Remote -> Result unit * Remote)
    (hash : string) (w w1 : World (Pinata.Backend Remote)) (e : exn) :
  Pinata.invalid_cid hash = false ->
  Pinata.isPinned sdk_gateways_get hash w = (Ok true, w1) ->
  (sdk_unpin [hash] (Pinata.remote (backend (rate_limited w1)))).1 = Throw e ->
  (Pinata.unpin sdk_gateways_get sdk_unpin hash w).1 =
    if message_includes "is not pinned" e || is_not_found e then Ok false
    else if is_auth_failure e then Throw Pinata.authError
    else Throw e.
Proof.
  intros Hvalid Hpinned Hfail. unfold Pinata.unpin, Pinata.request.
  unfold try_catch at 1. rewrite Hvalid.
  unfold bind at 1. rewrite Hpinned. simpl.
  unfold bind at 1. rewrite enforceRateLimit_run.
  unfold_monad. simpl in *.
  destruct (sdk_unpin [hash] (Pinata.remote (backend w1))) as [[[] | e'] remote'];
    simpl in *; [discriminate |].
  injection Hfail as ->.
  unfold is_not_found, is_auth_failure. rewrite orb_assoc.
  destruct (message_includes "is not pinned" e || message_includes "NOT_FOUND" e
            || message_includes "url does not contain CID" e); simpl; [reflexivity |].
  destruct (message_includes "INVALID_CREDENTIALS" e); reflexivity.
Qed.

(** C4, as amended.  [PinataService.isPinned] re-raises a failure of the
    backend request as the authentication error when its message names
    rejected credentials (and no not-found marker), and turns every other
    failure into [false].  [FileBackupAdapter.delete] turns every exception
    of [isPinned] or [unpin], the authentication error included, into
    [false]. *)
Theorem isPinned_reraises_auth_and_delete_returns_false :
  (forall (Remote Response : Type)
          (sdk_gateways_get : string -> Remote -> Result (option Response) * Remote)
          (hash : string) (w : World (Pinata.Backend Remote)) (e : exn),
      Pinata.invalid_cid hash = false ->
      (sdk_gateways_get hash (Pinata.remote (backend w))).1 = Throw e ->
      (Pinata.isPinned sdk_gateways_get hash w).1 =
        if is_auth_failure e && negb (is_not_found e)
        then Throw Pinata.authError else Ok false)
  /\ (forall (B : Type) (isPinned unpin : string -> M B bool)
             (hash : string) (w : World B),
        (forall e w1,
            isPinned hash (with_call (CallIsPinned hash) w) = (Throw e, w1) ->
            delete isPinned unpin hash w = (Ok false, w1))
        /\ (forall w1 e w2,
              isPinned hash (with_call (CallIsPinned hash) w) = (Ok true, w1) ->
              unpin hash (with_call (CallUnpin hash) w1) = (Throw e, w2) ->
              delete isPinned unpin hash w = (Ok false, w2))).
Proof.
  split.
  - intros Remote Response sdk_gateways_get hash w e Hvalid Hfail.
    rewrite isPinned_run by exact Hvalid. rewrite Hfail.
    destruct (is_not_found e), (is_auth_failure e); reflexivity.
  - intros B isPinned unpin hash w. split.
    + intros e w1 Hcheck. rewrite delete_run, Hcheck. reflexivity.
    + intros w1 e w2 Hcheck Hunpin. rewrite delete_run, Hcheck, Hunpin. reflexivity.
Qed.

(** C4, on an account whose token the backend rejects: the pin-status check
    throws the authentication error, and [delete] over that same service
    returns [false]. *)
Lemma isPinned_reraises_auth_and_delete_returns_false_witness :
  (Pinata.isPinned rejected_get sample_cid (pinata_world 1000)).1
    = Throw Pinata.authError
  /\ (delete (Pinata.isPinned rejected_get) (Pinata.unpin rejected_get rejected_unpin)
             sample_cid (pinata_world 1000)).1 = Ok false.
Proof.
  split.
  - apply (proj1 isPinned_reraises_auth_and_delete_returns_false
             unit unit rejected_get sample_cid (pinata_world 1000)
             (Error "Authentication failed: INVALID_CREDENTIALS"));
      reflexivity.
  - rewrite (proj1 (proj2 isPinned_reraises_auth_and_delete_returns_false
                      _ (Pinata.isPinned rejected_get)
                      (Pinata.unpin rejected_get rejected_unpin)
                      sample_cid (pinata_world 1000))
               Pinata.authError
               (Pinata.isPinned rejected_get sample_cid
                  (with_call (CallIsPinned sample_cid) (pinata_world 1000))).2
            ); [reflexivity |].
    vm_compute. reflexivity.
Defined.

(** C4 as stated fails: with a rejected token, [PinataService.isPinned]
    and, on a pinned CID, [PinataService.unpin] throw the authentication
    error, and [delete] over that service returns [false] both times
    instead of re-raising. *)
Lemma delete_returns_false_on_authentication_error :
  ((Pinata.isPinned rejected_get sample_cid
      (with_call (CallIsPinned sample_cid) (pinata_world 1000))).1
     = Throw Pinata.authError
   /\ (delete (Pinata.isPinned rejected_get)
              (Pinata.unpin rejected_get rejected_unpin)
              sample_cid (pinata_world 1000)).1 = Ok false)
  /\ ((Pinata.unpin pinned_get rejected_unpin sample_cid
         (with_call (CallUnpin sample_cid)
            (rate_limited (with_call (CallIsPinned sample_cid) (pinata_world 1000))))).1
        = Throw Pinata.authError
      /\ (delete (Pinata.isPinned pinned_get)
                 (Pinata.unpin pinned_get rejected_unpin)
                 sample_cid (pinata_world 1000)).1 = Ok false).
Proof. vm_compute. repeat split. Qed.

(** ** [restore] *)

Section RestoreFacts.
Context {E : Externals} {B : Type}.
Variable get_ : string -> M B (option BackupData.t).

Lemma fs_ensureDir_log (path : string) (w w' : World B) :
  fs_ensureDir path w = (Ok tt, w') ->
  fs_log w' = fs_log w ++ [OpEnsureDir path].
Proof.
  unfold fs_ensureDir. unfold_monad. simpl.
  destruct (Fs.mkdirp _ _); intros H; inversion H; reflexivity.
Qed.

Lemma fs_writeFile_log (path : string) (data : Buffer) (w w' : World B) :
  fs_writeFile path data w = (Ok tt, w') ->
  fs_log w' = fs_log w ++ [OpWriteFile path data].
Proof.
  unfold fs_writeFile. unfold_monad. simpl.
  destruct (Fs.write _ _ _); intros H; inversion H; reflexivity.
Qed.

Lemma decrypt_world (enc : Encryption.t) (encrypted iv : Buffer)
    (authTag : option Buffer) (w : World B) :
  (Encryption.decrypt enc encrypted iv authTag w).2 = w.
Proof. reflexivity. Qed.

Lemma written_paths_app (w w' : World B) (ops : list FsOp) :
  fs_log w' = fs_log w ++ ops ->
  written_paths w' =
    written_paths w
    ++ omap (fun op => match op with OpWriteFile p _ => Some p | _ => None end) ops.
Proof. unfold written_paths. intros ->. apply omap_app. Qed.

(** A record that is restored adds one call of [writeFile], on its path
    under the target. *)
Lemma restoreFile_writes (encryption : option Encryption.t)
    (targetPath fileName : string) (fileData : FileData.t) (w w' : World B) :
  restoreFile encryption targetPath fileName fileData w = (Ok tt, w') ->
  written_paths w' = written_paths w ++ [Path.join targetPath fileName].
Proof.
  unfold restoreFile. unfold try_catch at 1. unfold bind at 1.
  destruct (fs_ensureDir _ w) as [[[] | e] w1] eqn:Hdir; [| discriminate].
  apply fs_ensureDir_log in Hdir.
  assert (Hwrite : forall data w2,
             fs_writeFile (Path.join targetPath fileName) data w1 = (Ok tt, w2) ->
             written_paths w2 = written_paths w ++ [Path.join targetPath fileName]).
  { intros data w2 H. apply fs_writeFile_log in H.
    apply (written_paths_app w w2
             [OpEnsureDir (Path.dirname (Path.join targetPath fileName));
              OpWriteFile (Path.join targetPath fileName) data]).
    rewrite H, Hdir, <- app_assoc. reflexivity. }
  destruct (if FileData.isEncrypted fileData && _ && _ then encryption else None)
    as [enc |].
  - unfold bind.
    destruct (Encryption.decrypt enc _ _ _ w1) as [[decrypted | e] w1'] eqn:Hdec;
      [| discriminate].
    pose proof (decrypt_world enc
                  (Base64.decode (default "" (FileData.encrypted fileData)))
                  (Base64.decode (default "" (FileData.iv fileData)))
                  (if truthy_opt (FileData.authTag fileData)
                   then Some (Base64.decode (default "" (FileData.authTag fileData)))
                   else None) w1) as Hw.
    rewrite Hdec in Hw. simpl in Hw. subst w1'.
    destruct (fs_writeFile _ decrypted w1) as [[[] | e] w2] eqn:Hw2; [| discriminate].
    intros H. inversion H. subst. eapply Hwrite. exact Hw2.
  - destruct (bool_decide _ && _).
    + destruct (fs_writeFile _ _ w1) as [[[] | e] w2] eqn:Hw2; [| discriminate].
      intros H. inversion H. subst. eapply Hwrite. exact Hw2.
    + destruct (bool_decide _ && _).
      * destruct (fs_writeFile _ _ w1) as [[[] | e] w2] eqn:Hw2; [| discriminate].
        intros H. inversion H. subst. eapply Hwrite. exact Hw2.
      * discriminate.
Qed.

(** The loop of [restore] ends normally only after a write for every
    entry, in order. *)
Lemma restoreFiles_writes (encryption : option Encryption.t) (targetPath : string)
    (entries : list (string * FileData.t)) (w w' : World B) :
  restoreFiles encryption targetPath entries w = (Ok tt, w') ->
  written_paths w' =
    written_paths w ++ map (fun entry => Path.join targetPath entry.1) entries.
Proof.
  revert w. induction entries as [| [fileName fileData] rest IH]; intros w.
  - simpl. unfold ret. intros H. inversion H. rewrite app_nil_r. reflexivity.
  - simpl. unfold bind at 1.
    destruct (restoreFile _ _ _ _ w) as [[[] | e] w1] eqn:Hfile; [| discriminate].
    intros H. apply IH in H. apply restoreFile_writes in Hfile.
    rewrite H, Hfile, <- app_assoc. reflexivity.
Qed.

(** The first entry that fails ends the loop with its error. *)
Lemma restoreFiles_aborts (encryption : option Encryption.t) (targetPath : string)
    (done : list (string * FileData.t)) (fileName : string) (fileData : FileData.t)
    (rest : list (string * FileData.t)) (w w1 w2 : World B) (e : exn) :
  restoreFiles encryption targetPath done w = (Ok tt, w1) ->
  restoreFile encryption targetPath fileName fileData w1 = (Throw e, w2) ->
  restoreFiles encryption targetPath (done ++ (fileName, fileData) :: rest) w
    = (Throw e, w2).
Proof.
  revert w. induction done as [| [n d] done IH]; intros w.
  - simpl. unfold ret. intros H. inversion H. subst.
    intros Hfail. unfold bind. rewrite Hfail. reflexivity.
  - simpl. intros Hdone Hfail. unfold bind in Hdone. unfold bind at 1.
    destruct (restoreFile _ _ n d w) as [[[] | e'] w'] eqn:Hfile; [| discriminate].
    apply IH; assumption.
Qed.

(** [restore], step by step. *)
Lemma restore_run (hash targetPath : string) (options : BackupOptions.t)
    (w : World B) :
  restore get_ hash targetPath options w =
    match get get_ hash w with
    | (Ok backup, w1) =>
        match BackupData.data backup with
        | Some data =>
            match fs_ensureDir targetPath w1 with
            | (Ok _, w2) =>
                match restoreFiles (encryption_of options) targetPath
                        (map_to_list data) w2 with
                | (Ok _, w') => (Ok true, w')
                | (Throw e, w') => (Throw e, w')
                end
            | (Throw e, w2) => (Throw e, w2)
            end
        | None => (Throw (Error "Invalid backup data"), w1)
        end
    | (Throw e, w1) => (Throw e, w1)
    end.
Proof.
  unfold restore. unfold bind at 1.
  destruct (get get_ hash w) as [[backup | e] w1]; [| reflexivity].
  destruct (BackupData.data backup) as [data |]; [| reflexivity].
  unfold bind at 1.
  destruct (fs_ensureDir targetPath w1) as [[[] | e] w2]; [| reflexivity].
  unfold bind at 1.
  destruct (restoreFiles _ _ _ w2) as [[[] | e] w']; reflexivity.
Qed.

(** A record whose ciphertext is the empty string and that has no [type]
    is refused, whatever the key: the test [fileData.encrypted] is falsy. *)
Lemma restoreFile_empty_ciphertext (encryption : option Encryption.t)
    (targetPath fileName : string) (fileData : FileData.t) (w : World B) :
  FileData.encrypted fileData = Some "" ->
  FileData.type fileData = None ->
  restoreFile encryption targetPath fileName fileData w =
    match fs_ensureDir (Path.dirname (Path.join targetPath fileName)) w with
    | (Ok _, w1) =>
        (Throw (failed_to_restore_file fileName
                  (Error ("Invalid file data for " +:+ fileName))), w1)
    | (Throw e, w1) => (Throw (failed_to_restore_file fileName e), w1)
    end.
Proof.
  intros Hencrypted Htype. unfold restoreFile. rewrite Hencrypted, Htype.
  unfold try_catch, bind at 1.
  destruct (fs_ensureDir _ w) as [[[] | e] w1]; [| reflexivity].
  simpl truthy_opt. rewrite andb_false_r. simpl. reflexivity.
Qed.

End RestoreFacts.

(** C9.  [restore] never returns [false].  If fetching the backup throws,
    [restore] throws that error; otherwise it either throws, or returns
    [true] once the loop over [backup.data] has ended normally, which takes
    one [writeFile] per record, on the path of each record under
    [targetPath]. *)
Theorem restore_returns_true_or_throws {E : Externals} {B : Type}
    (get_ : string -> M B (option BackupData.t))
    (hash targetPath : string) (options : BackupOptions.t) (w : World B) :
  (exists e w', restore get_ hash targetPath options w = (Throw e, w'))
  \/ (exists backup data w1 w2 w',
        restore get_ hash targetPath options w = (Ok true, w')
        /\ get get_ hash w = (Ok backup, w1)
        /\ BackupData.data backup = Some data
        /\ fs_ensureDir targetPath w1 = (Ok tt, w2)
        /\ restoreFiles (encryption_of options) targetPath (map_to_list data) w2
           = (Ok tt, w')
        /\ written_paths w' =
             written_paths w2
             ++ map (fun entry => Path.join targetPath entry.1) (map_to_list data)).
Proof.
  rewrite restore_run.
  destruct (get get_ hash w) as [[backup | e] w1] eqn:Hget; [| left; eauto].
  destruct (BackupData.data backup) as [data |] eqn:Hdata; [| left; eauto].
  destruct (fs_ensureDir targetPath w1) as [[[] | e] w2] eqn:Hdir; [| left; eauto].
  destruct (restoreFiles _ _ _ w2) as [[[] | e] w'] eqn:Hloop; [| left; eauto].
  right. exists backup, data, w1, w2, w'.
  repeat split; try assumption; try reflexivity.
  eapply restoreFiles_writes. exact Hloop.
Qed.

(** ** [backup] *)

Section BackupFacts.
Context {E : Externals} {B : Type}.
Variable uploadJson : UploadData.t -> string -> M B (option UploadOutput.t).

(** [backup], step by step. *)
Lemma backup_run (sourcePath : string) (options : BackupOptions.t) (w : World B) :
  backup uploadJson sourcePath options w =
    match processDirectory sourcePath "" ∅ options w with
    | (Ok backupData, w1) =>
        let name := Path.basename sourcePath in
        match uploadJson (payload_of backupData (clock w1)) name
                         (with_call (CallUploadJson name) w1) with
        | (Ok (Some r), w2) =>
            if truthy_string (UploadOutput.id r) then
              (Ok {| BackupResult.hash := UploadOutput.id r;
                     BackupResult.versionInfo :=
                       versionInfo_at (Buffer_from (stringify_Snapshot backupData))
                                      (clock w1);
                     BackupResult.name := name |}, w2)
            else (Throw (Error "Storage service did not return a valid hash"), w2)
        | (Ok None, w2) =>
            (Throw (Error "Storage service did not return a valid hash"), w2)
        | (Throw e, w2) => (Throw e, w2)
        end
    | (Throw e, w1) => (Throw e, w1)
    end.
Proof.
  unfold backup. unfold bind at 1.
  destruct (processDirectory sourcePath "" ∅ options w) as [[backupData | e] w1];
    [| reflexivity].
  unfold createVersionInfo, payload_of, versionInfo_at, with_call.
  unfold_monad. simpl.
  destruct (uploadJson _ _ _) as [[[r |] | e] w2]; try reflexivity.
  destruct (truthy_string (UploadOutput.id r)); reflexivity.
Qed.

End BackupFacts.

(** C6.  Once the snapshot is built and [uploadJson] has answered,
    [backup] throws [Storage service did not return a valid hash] if the
    answer is missing or its [id] is empty, and otherwise returns a
    [BackupResult] whose [hash] is that [id]. *)
Theorem backup_hash_is_storage_id {E : Externals} {B : Type}
    (uploadJson : UploadData.t -> string -> M B (option UploadOutput.t))
    (sourcePath : string) (options : BackupOptions.t)
    (w w1 w2 : World B) (backupData : Snapshot) (result : option UploadOutput.t) :
  processDirectory sourcePath "" ∅ options w = (Ok backupData, w1) ->
  uploadJson (payload_of backupData (clock w1)) (Path.basename sourcePath)
             (with_call (CallUploadJson (Path.basename sourcePath)) w1)
    = (Ok result, w2) ->
  match result with
  | Some r =>
      if String.eqb (UploadOutput.id r) "" then
        backup uploadJson sourcePath options w
          = (Throw (Error "Storage service did not return a valid hash"), w2)
      else
        exists backupResult,
          backup uploadJson sourcePath options w = (Ok backupResult, w2)
          /\ BackupResult.hash backupResult = UploadOutput.id r
  | None =>
      backup uploadJson sourcePath options w
        = (Throw (Error "Storage service did not return a valid hash"), w2)
  end.
Proof.
  intros Hwalk Hput. rewrite backup_run, Hwalk. simpl. rewrite Hput.
  destruct result as [r |]; [| reflexivity].
  destruct (UploadOutput.id r) as [| c s]; simpl; [reflexivity |].
  eexists. split; reflexivity.
Qed.

(** C6, on [data/a.txt]: with [IpfsService] the result carries the id
    [cid-0] the store assigned; with a service that answers an empty id,
    [backup] throws. *)
Lemma backup_hash_is_storage_id_witness :
  (exists backupResult,
      (backup LocalIpfs.uploadJson "data" BackupOptions.none
              (LocalIpfs.world tree_hello 1000)).1 = Ok backupResult
      /\ BackupResult.hash backupResult = "cid-0")
  /\ (backup uploadJson_no_id "data" BackupOptions.none
             (LocalIpfs.world tree_hello 1000)).1
     = Throw (Error "Storage service did not return a valid hash").
Proof.
  split.
  - destruct (backup_hash_is_storage_id LocalIpfs.uploadJson "data"
                BackupOptions.none (LocalIpfs.world tree_hello 1000)
                _ _ _ (Some {| UploadOutput.id := "cid-0" |})
                eq_refl eq_refl) as [backupResult [Hrun Hhash]].
    exists backupResult. rewrite Hrun. split; [reflexivity | exact Hhash].
  - rewrite (backup_hash_is_storage_id uploadJson_no_id "data"
               BackupOptions.none (LocalIpfs.world tree_hello 1000)
               _ _ _ (Some {| UploadOutput.id := "" |}) eq_refl eq_refl).
    reflexivity.
Defined.

(** ** The two read paths of the snapshot walk *)

Lemma concat_chunksOf {A} (fuel n : nat) (l : list A) :
  (0 < n)%nat -> (List.length l <= fuel)%nat ->
  List.concat (chunksOf fuel n l) = l.
Proof.
  intros Hn. revert l. induction fuel as [| fuel IH]; intros l Hlen.
  - destruct l; [reflexivity | simpl in Hlen; lia].
  - destruct l as [| a l']; [reflexivity |].
    change (chunksOf (S fuel) n (a :: l'))
      with (take n (a :: l') :: chunksOf fuel n (drop n (a :: l'))).
    simpl List.concat. rewrite IH.
    + apply take_drop.
    + rewrite length_drop. simpl in *. lia.
Qed.

Section ReadPaths.
Context {E : Externals} {B : Type}.

Lemma fs_stat_run (path : string) (w : World B) :
  fs_stat path w =
    match Fs.lookup (Fs.segments path) (fs w) with
    | inr n => (Ok (stats_of n), with_fs_op (OpStat path) w)
    | inl c => (Throw (Fs.error c "stat" path), with_fs_op (OpStat path) w)
    end.
Proof.
  unfold fs_stat, fs_lookup, with_fs_op. unfold_monad. simpl.
  destruct (Fs.lookup _ _); reflexivity.
Qed.

Lemma fs_readFile_run (path : string) (w : World B) :
  fs_readFile path w =
    match Fs.lookup (Fs.segments path) (fs w) with
    | inr (File content) => (Ok content, with_fs_op (OpReadFile path) w)
    | inr (Dir _) =>
        (Throw (Fs.error Fs.EISDIR "read" path), with_fs_op (OpReadFile path) w)
    | inl c => (Throw (Fs.error c "open" path), with_fs_op (OpReadFile path) w)
    end.
Proof.
  unfold fs_readFile, fs_lookup, with_fs_op. unfold_monad. simpl.
  destruct (Fs.lookup _ _) as [c | [content | entries]]; reflexivity.
Qed.

Lemma fs_createReadStream_run (path : string) (w : World B) :
  fs_createReadStream path w =
    match Fs.lookup (Fs.segments path) (fs w) with
    | inr (File content) =>
        (Ok (chunksOf (List.length content) highWaterMark content),
         with_fs_op (OpCreateReadStream path) w)
    | inr (Dir _) =>
        (Throw (Fs.error Fs.EISDIR "read" path),
         with_fs_op (OpCreateReadStream path) w)
    | inl c =>
        (Throw (Fs.error c "open" path), with_fs_op (OpCreateReadStream path) w)
    end.
Proof.
  unfold fs_createReadStream, fs_lookup, with_fs_op. unfold_monad. simpl.
  destruct (Fs.lookup _ _) as [c | [content | entries]]; reflexivity.
Qed.

Lemma stream_buffers_whole_file (content : Buffer) :
  List.concat (chunksOf (List.length content) highWaterMark content) = content.
Proof.
  apply concat_chunksOf; [| lia].
  unfold highWaterMark. apply Nat2Z.inj_lt. rewrite Z2Nat.id; lia.
Qed.

(** [processSmallFile] on a file kept in the clear. *)
Lemma processSmallFile_plain (fullPath relativePath : string)
    (backupData : Snapshot) (options : BackupOptions.t) (w : World B)
    (content : Buffer) :
  Fs.lookup (Fs.segments fullPath) (fs w) = inr (File content) ->
  encryption_of options = None ->
  processSmallFile fullPath relativePath backupData options w =
    (Ok (<[relativePath := plain_record (isBinaryFile fullPath) content
                                         (getMimeType fullPath)]> backupData),
     with_fs_op (OpReadFile fullPath) w).
Proof.
  intros Hfile Hplain. unfold processSmallFile. rewrite Hplain.
  unfold try_catch, bind at 1. rewrite fs_readFile_run, Hfile. reflexivity.
Qed.

(** [processLargeFile] on a file kept in the clear. *)
Lemma processLargeFile_plain (fullPath relativePath : string)
    (backupData : Snapshot) (options : BackupOptions.t) (w : World B)
    (content : Buffer) :
  Fs.lookup (Fs.segments fullPath) (fs w) = inr (File content) ->
  encryption_of options = None ->
  processLargeFile fullPath relativePath backupData options w =
    (Ok (<[relativePath := plain_record (isBinaryFile fullPath) content
                                         (getMimeType fullPath)]> backupData),
     with_fs_op (OpCloseStream fullPath)
       (with_fs_op (OpCreateReadStream fullPath) w)).
Proof.
  intros Hfile Hplain. unfold processLargeFile. rewrite Hplain.
  unfold try_finally, try_catch, bind at 1.
  rewrite fs_createReadStream_run, Hfile.
  rewrite stream_buffers_whole_file. reflexivity.
Qed.

(** Both read paths give the same outcome: the same snapshot, or the same
    error. *)
Lemma read_paths_same_result (fullPath relativePath : string)
    (backupData : Snapshot) (options : BackupOptions.t) (w : World B) :
  (processLargeFile fullPath relativePath backupData options w).1
  = (processSmallFile fullPath relativePath backupData options w).1.
Proof.
  unfold processLargeFile, processSmallFile.
  destruct (encryption_of options) as [enc |].
  - unfold try_finally, try_catch, bind at 1 3. unfold ret at 2.
    rewrite fs_readFile_run.
    destruct (Fs.lookup _ _) as [c | [content | entries]]; try reflexivity.
    unfold bind.
    destruct (encrypted_record enc content (getMimeType fullPath) _)
      as [[fileData | e] w1]; reflexivity.
  - unfold try_finally, try_catch, bind at 1 2.
    rewrite fs_createReadStream_run, fs_readFile_run.
    destruct (Fs.lookup _ _) as [c | [content | entries]]; try reflexivity.
    rewrite stream_buffers_whole_file. reflexivity.
Qed.

(** The entry of a regular file that the size limit does not skip goes to
    one of the two read paths, by its size. *)
Lemma processFile_run (fullPath relativePath : string) (backupData : Snapshot)
    (options : BackupOptions.t) (w : World B) (content : Buffer) :
  Fs.lookup (Fs.segments fullPath) (fs w) = inr (File content) ->
  oversized options (stats_of (File content)) = false ->
  processFile fullPath relativePath backupData options w
    = (if 1024 * 1024 <? Z.of_nat (List.length content)
       then processLargeFile fullPath relativePath backupData options
                             (with_fs_op (OpStat fullPath) w)
       else processSmallFile fullPath relativePath backupData options
                             (with_fs_op (OpStat fullPath) w)).
Proof.
  intros Hfile Hlimit.
  unfold processFile. unfold bind at 1. rewrite fs_stat_run, Hfile, Hlimit.
  change (Stats.size (stats_of (File content)))
    with (Z.of_nat (List.length content)).
  rewrite Z.gtb_ltb.
  destruct (1024 * 1024 <? Z.of_nat (List.length content)); reflexivity.
Qed.

(** With encryption off, the calls made on the file system tell the two
    paths apart. *)
Lemma processFile_plain_log (fullPath relativePath : string) (backupData : Snapshot)
    (options : BackupOptions.t) (w : World B) (content : Buffer) :
  Fs.lookup (Fs.segments fullPath) (fs w) = inr (File content) ->
  oversized options (stats_of (File content)) = false ->
  encryption_of options = None ->
  fs_log (processFile fullPath relativePath backupData options w).2
    = fs_log w
      ++ (if 1024 * 1024 <? Z.of_nat (List.length content)
          then [OpStat fullPath; OpCreateReadStream fullPath; OpCloseStream fullPath]
          else [OpStat fullPath; OpReadFile fullPath]).
Proof.
  intros Hfile Hlimit Hplain. rewrite (processFile_run _ _ _ _ _ content) by assumption.
  destruct (1024 * 1024 <? Z.of_nat (List.length content)).
  - rewrite (processLargeFile_plain _ _ _ _ _ content) by assumption.
    simpl. rewrite <- !app_assoc. reflexivity.
  - rewrite (processSmallFile_plain _ _ _ _ _ content) by assumption.
    simpl. rewrite <- !app_assoc. reflexivity.
Qed.

(** A directory holding one regular file. *)
Lemma processDirectory_at_single_file (name : string) (content : Buffer)
    (dirPath baseDir : string) (backupData : Snapshot)
    (options : BackupOptions.t) (w : World B) :
  excluded options name = false ->
  processDirectory_at (Dir [(name, File content)]) dirPath baseDir backupData options w
    = match processFile (Path.join dirPath name)
                        (backslashes_to_slashes (Path.join baseDir name))
                        backupData options (with_fs_op (OpReaddir dirPath) w) with
      | (Ok backupData', w') => (Ok backupData', w')
      | (Throw e, w') => (Throw (failed_to_process_directory dirPath e), w')
      end.
Proof.
  intros Hname. simpl. rewrite Hname.
  unfold try_catch, bind at 1. unfold log_fs at 1. unfold bind at 1.
  fold (with_fs_op (OpReaddir dirPath) w).
  destruct (processFile _ _ _ _ _) as [[backupData' | e] w']; reflexivity.
Qed.

Lemma encrypt_run (enc : Encryption.t) (data : Buffer) (w : World B) :
  Encryption.encrypt enc data w =
    match cipher (Encryption.algorithm enc) (Encryption.key enc)
                 (randomBytes (entropy w) 16) data with
    | Ok (encrypted, tag) =>
        (Ok (encrypted, randomBytes (entropy w) 16,
             if includes "gcm" (Encryption.algorithm enc) then Some tag else None),
         mkWorld (fs w) (fs_log w) (backend w) (storage_calls w) (clock w)
                 (S (entropy w)))
    | Throw e =>
        (Throw e, mkWorld (fs w) (fs_log w) (backend w) (storage_calls w) (clock w)
                          (S (entropy w)))
    end.
Proof.
  unfold Encryption.encrypt. unfold_monad. simpl.
  destruct (cipher _ _ _ _) as [[encrypted tag] | e]; reflexivity.
Qed.

(** [processSmallFile] on a file that is encrypted. *)
Lemma processSmallFile_encrypted (fullPath relativePath : string)
    (backupData : Snapshot) (options : BackupOptions.t) (w : World B)
    (content : Buffer) (enc : Encryption.t) :
  Fs.lookup (Fs.segments fullPath) (fs w) = inr (File content) ->
  encryption_of options = Some enc ->
  processSmallFile fullPath relativePath backupData options w =
    match Encryption.encrypt enc content (with_fs_op (OpReadFile fullPath) w) with
    | (Ok (encrypted, iv, authTag), w1) =>
        (Ok (<[relativePath :=
                 FileData.cipher (Base64.encode encrypted) (Base64.encode iv)
                                 (option_map Base64.encode authTag)
                                 (getMimeType fullPath)]> backupData), w1)
    | (Throw e, w1) => (Throw (failed_to_process_file fullPath e), w1)
    end.
Proof.
  intros Hfile Henc. unfold processSmallFile. rewrite Henc.
  unfold try_catch, bind at 1. rewrite fs_readFile_run, Hfile.
  unfold encrypted_record. unfold bind.
  destruct (Encryption.encrypt enc content _)
    as [[[[encrypted iv] authTag] | e] w1]; reflexivity.
Qed.

End ReadPaths.

Lemma one_mebibyte_size : Z.of_nat (List.length one_mebibyte) = 1024 * 1024.
Proof. unfold one_mebibyte. rewrite repeat_length, Z2Nat.id; lia. Qed.

(** C7, as amended.  A regular file that the size limit does not skip is
    handed to [processLargeFile] when its size is strictly above 1 MiB
    (1048576 bytes) and to [processSmallFile] otherwise; with encryption
    off the first reads it through [createReadStream] and the second
    through [readFile]; and on every world and option set the two paths end
    with the same snapshot (the same record under the same key) or the same
    error. *)
Theorem size_tiers_split_above_one_mebibyte {E : Externals} {B : Type}
    (fullPath relativePath : string) (backupData : Snapshot)
    (options : BackupOptions.t) (w : World B) (content : Buffer) :
  Fs.lookup (Fs.segments fullPath) (fs w) = inr (File content) ->
  oversized options (stats_of (File content)) = false ->
  processFile fullPath relativePath backupData options w
    = (if 1024 * 1024 <? Z.of_nat (List.length content)
       then processLargeFile fullPath relativePath backupData options
                             (with_fs_op (OpStat fullPath) w)
       else processSmallFile fullPath relativePath backupData options
                             (with_fs_op (OpStat fullPath) w))
  /\ (encryption_of options = None ->
      fs_log (processFile fullPath relativePath backupData options w).2
        = fs_log w
          ++ (if 1024 * 1024 <? Z.of_nat (List.length content)
              then [OpStat fullPath; OpCreateReadStream fullPath;
                    OpCloseStream fullPath]
              else [OpStat fullPath; OpReadFile fullPath]))
  /\ (forall w' : World B,
        (processLargeFile fullPath relativePath backupData options w').1
        = (processSmallFile fullPath relativePath backupData options w').1).
Proof.
  intros Hfile Hlimit. split; [| split].
  - apply processFile_run; assumption.
  - intros Hplain. apply processFile_plain_log; assumption.
  - intros w'. apply read_paths_same_result.
Qed.

(** C7, on [data/a.txt] (five bytes): the file goes to [processSmallFile]
    and is read by one [readFile]. *)
Lemma size_tiers_split_above_one_mebibyte_witness :
  processFile "data/a.txt" "a.txt" ∅ BackupOptions.none
              (LocalIpfs.world tree_hello 1000)
    = processSmallFile "data/a.txt" "a.txt" ∅ BackupOptions.none
        (with_fs_op (OpStat "data/a.txt") (LocalIpfs.world tree_hello 1000))
  /\ fs_log (processFile "data/a.txt" "a.txt" ∅ BackupOptions.none
                         (LocalIpfs.world tree_hello 1000)).2
     = [OpStat "data/a.txt"; OpReadFile "data/a.txt"].
Proof.
  destruct (size_tiers_split_above_one_mebibyte "data/a.txt" "a.txt" ∅
              BackupOptions.none (LocalIpfs.world tree_hello 1000)
              (Buffer_from "hello") eq_refl eq_refl) as [Hrun [Hlog _]].
  split; [exact Hrun | exact (Hlog eq_refl)].
Defined.

(** C7 as stated fails at the threshold: a file of exactly 1 MiB is not
    streamed, it is read by one [readFile]. *)
Lemma one_mebibyte_file_is_read_in_one_shot :
  Stats.size (stats_of (File one_mebibyte)) = 1024 * 1024
  /\ fs_log (processFile "big.bin" "big.bin" ∅ BackupOptions.none
                         (LocalIpfs.world tree_one_mebibyte 1000)).2
     = [OpStat "big.bin"; OpReadFile "big.bin"].
Proof.
  split; [exact one_mebibyte_size |].
  rewrite (processFile_plain_log "big.bin" "big.bin" ∅ BackupOptions.none
             (LocalIpfs.world tree_one_mebibyte 1000) one_mebibyte)
    by reflexivity.
  rewrite one_mebibyte_size. reflexivity.
Qed.

(** ** [compareDetailed] *)

Section Tally.

Lemma visitLocal_push (remote : Snapshot) (acc : tally) (entry : string * FileData.t) :
  visitLocal remote acc entry =
    match localChange remote entry with
    | Some d => (acc.1 ++ [d], bump acc.2 d)
    | None => acc
    end.
Proof.
  destruct acc as [ds tc], entry as [filePath localContent].
  unfold localChange, visitLocal.
  destruct (remote !! filePath) as [remoteContent |]; [| reflexivity].
  destruct (negb _); reflexivity.
Qed.

Lemma visitRemote_push (localData : Snapshot) (acc : tally)
    (entry : string * FileData.t) :
  visitRemote localData acc entry =
    match remoteChange localData entry with
    | Some d => (acc.1 ++ [d], bump acc.2 d)
    | None => acc
    end.
Proof.
  destruct acc as [ds tc], entry as [filePath remoteContent].
  unfold remoteChange, visitRemote.
  destruct (localData !! filePath); reflexivity.
Qed.

Lemma localChange_path (remote : Snapshot) (entry : string * FileData.t)
    (d : Difference.t) :
  localChange remote entry = Some d -> Difference.path d = entry.1.
Proof.
  destruct entry as [filePath localContent]. unfold localChange, visitLocal.
  destruct (remote !! filePath) as [remoteContent |].
  - destruct (negb _); simpl; [| discriminate]. intros [= <-]. reflexivity.
  - simpl. intros [= <-]. reflexivity.
Qed.

Lemma remoteChange_path (localData : Snapshot) (entry : string * FileData.t)
    (d : Difference.t) :
  remoteChange localData entry = Some d ->
  Difference.path d = entry.1 /\ localData !! entry.1 = None.
Proof.
  destruct entry as [filePath remoteContent]. unfold remoteChange, visitRemote.
  destruct (localData !! filePath) eqn:Hlocal; simpl; [discriminate |].
  intros [= <-]. split; [reflexivity | exact Hlocal].
Qed.

(** A loop that pushes at most one difference per entry. *)
Lemma fold_push {X} (step : tally -> X -> tally) (change : X -> option Difference.t)
    (l : list X) (acc : tally) :
  (forall acc x,
      step acc x = match change x with
                   | Some d => (acc.1 ++ [d], bump acc.2 d)
                   | None => acc
                   end) ->
  fold_left step l acc
    = (acc.1 ++ omap change l, fold_left bump (omap change l) acc.2).
Proof.
  intros Hstep. revert acc. induction l as [| x l IH]; intros acc.
  - simpl. rewrite app_nil_r. destruct acc; reflexivity.
  - simpl. rewrite IH, Hstep. destruct (change x) as [d |]; simpl.
    + rewrite <- app_assoc. reflexivity.
    + reflexivity.
Qed.

Lemma count_type_app (ty : ChangeType) (l k : list Difference.t) :
  count_type ty (l ++ k) = (count_type ty l + count_type ty k)%nat.
Proof. unfold count_type. rewrite filter_app, length_app. reflexivity. Qed.

Lemma count_type_cons (ty : ChangeType) (d : Difference.t) (l : list Difference.t) :
  count_type ty (d :: l)
    = ((if decide (Difference.type d = ty) then 1 else 0) + count_type ty l)%nat.
Proof.
  unfold count_type. rewrite filter_cons.
  destruct (decide (Difference.type d = ty)); reflexivity.
Qed.

(** The counters move with the kinds of the differences pushed. *)
Lemma fold_bump_counts (ds : list Difference.t) (tc : TotalChanges.t) :
  TotalChanges.added (fold_left bump ds tc)
    = (TotalChanges.added tc + count_type added ds)%nat
  /\ TotalChanges.modified (fold_left bump ds tc)
     = (TotalChanges.modified tc + count_type modified ds)%nat
  /\ TotalChanges.deleted (fold_left bump ds tc)
     = (TotalChanges.deleted tc + count_type deleted ds)%nat.
Proof.
  revert tc. induction ds as [| d ds IH]; intros tc.
  - unfold count_type. simpl. lia.
  - simpl. destruct (IH (bump tc d)) as (Ha & Hm & Hd).
    rewrite Ha, Hm, Hd, !count_type_cons. unfold bump.
    destruct (Difference.type d); simpl; repeat case_decide; try discriminate; lia.
Qed.

(** The paths pushed are among the keys visited, in their order. *)
Lemma pushed_paths_sublist {X} (change : X -> option Difference.t)
    (key : X -> string) (l : list X) :
  (forall x d, change x = Some d -> Difference.path d = key x) ->
  map Difference.path (omap change l) `sublist_of` map key l.
Proof.
  intros Hkey. induction l as [| x l IH]; [constructor |].
  simpl. destruct (change x) as [d |] eqn:Hx; simpl.
  - rewrite (Hkey x d Hx). apply sublist_skip. exact IH.
  - apply sublist_cons. exact IH.
Qed.

(** What both loops leave: every path at most once, and counters that
    agree with the list. *)
Lemma diffSnapshots_invariants (localData remote : Snapshot) :
  let '(differences, totalChanges) := diffSnapshots localData remote in
  NoDup (map Difference.path differences)
  /\ TotalChanges.added totalChanges = count_type added differences
  /\ TotalChanges.modified totalChanges = count_type modified differences
  /\ TotalChanges.deleted totalChanges = count_type deleted differences.
Proof.
  unfold diffSnapshots.
  rewrite (fold_push (visitLocal remote) (localChange remote))
    by apply visitLocal_push.
  rewrite (fold_push (visitRemote localData) (remoteChange localData))
    by apply visitRemote_push.
  simpl. split.
  - rewrite map_app. apply NoDup_app. split; [| split].
    + eapply sublist_NoDup;
        [apply (NoDup_fst_map_to_list localData) |].
      apply pushed_paths_sublist. apply localChange_path.
    + intros path Hlocal Hremote.
      apply list_elem_of_fmap in Hlocal as (d & -> & Hd).
      apply list_elem_of_omap in Hd as ([k v] & Hin & Hd).
      apply localChange_path in Hd. simpl in Hd.
      apply elem_of_map_to_list in Hin.
      apply list_elem_of_fmap in Hremote as (d' & Hpath & Hd').
      apply list_elem_of_omap in Hd' as ([k' v'] & _ & Hd').
      apply remoteChange_path in Hd' as [Hpath' Hnone]. simpl in *.
      congruence.
    + eapply sublist_NoDup;
        [apply (NoDup_fst_map_to_list remote) |].
      apply pushed_paths_sublist. intros x d Hx.
      apply remoteChange_path in Hx. tauto.
  - rewrite <- fold_left_app.
    destruct (fold_bump_counts
                (omap (localChange remote) (map_to_list localData)
                 ++ omap (remoteChange localData) (map_to_list remote))
                no_changes) as (Ha & Hm & Hd).
    rewrite Ha, Hm, Hd. simpl. tauto.
Qed.

End Tally.

(** A comparison that is returned was assembled from the two loops. *)
Lemma compareDetailed_returns_tally {E : Externals} {B : Type}
    (get_ : string -> M B (option BackupData.t))
    (hash sourcePath : string) (w w' : World B) (dc : DetailedComparison.t) :
  compareDetailed get_ hash sourcePath w = (Ok dc, w') ->
  exists localData remote,
    diffSnapshots localData remote
      = (DetailedComparison.differences dc, DetailedComparison.totalChanges dc)
    /\ DetailedComparison.isEqual dc
       = (List.length (DetailedComparison.differences dc) =? 0)%nat.
Proof.
  unfold compareDetailed, try_catch. unfold bind at 1.
  destruct (fs_readdir sourcePath w) as [[files | e] w1]; [| discriminate].
  unfold bind at 1.
  destruct (readLocalData sourcePath (map fst files) ∅ w1)
    as [[localData | e] w2]; [| discriminate].
  unfold bind at 1.
  destruct (get get_ hash w2) as [[backup | e] w3]; [| discriminate].
  destruct (BackupData.data backup) as [remote |]; [| discriminate].
  destruct (diffSnapshots localData remote) as [ds tc] eqn:Hdiff.
  unfold createVersionInfo. unfold_monad. simpl.
  destruct (BackupData.metadata backup ≫= BackupMetadata.versionInfo);
    [| discriminate].
  intros H. inversion H. subst. simpl.
  exists localData, remote. split; [exact Hdiff | reflexivity].
Qed.

(** C5.  In every [DetailedComparison] that [compareDetailed] returns, no
    path occurs twice in [differences] (each difference has one kind), the
    three counters of [totalChanges] are the numbers of differences of
    their kind, and [isEqual] is [true] exactly when [differences] is
    empty. *)
Theorem compareDetailed_differences_consistent {E : Externals} {B : Type}
    (get_ : string -> M B (option BackupData.t))
    (hash sourcePath : string) (w w' : World B) (dc : DetailedComparison.t) :
  compareDetailed get_ hash sourcePath w = (Ok dc, w') ->
  NoDup (map Difference.path (DetailedComparison.differences dc))
  /\ TotalChanges.added (DetailedComparison.totalChanges dc)
     = count_type added (DetailedComparison.differences dc)
  /\ TotalChanges.modified (DetailedComparison.totalChanges dc)
     = count_type modified (DetailedComparison.differences dc)
  /\ TotalChanges.deleted (DetailedComparison.totalChanges dc)
     = count_type deleted (DetailedComparison.differences dc)
  /\ (DetailedComparison.isEqual dc = true
      <-> DetailedComparison.differences dc = []).
Proof.
  intros Hrun.
  apply compareDetailed_returns_tally in Hrun as (localData & remote & Hdiff & Heq).
  pose proof (diffSnapshots_invariants localData remote) as Hinv.
  rewrite Hdiff in Hinv. destruct Hinv as (Hdup & Ha & Hm & Hd).
  repeat split; try assumption.
  - rewrite Heq. intros H. apply Nat.eqb_eq in H.
    destruct (DetailedComparison.differences dc); [reflexivity | discriminate].
  - rewrite Heq. intros ->. reflexivity.
Qed.

(** The comparison of [data/a.txt] with its own backup returns. *)
Lemma hello_comparison_returns :
  exists dc w',
    compareDetailed LocalIpfs.get "cid-0" "data"
      (world_after_backup tree_hello BackupOptions.none) = (Ok dc, w').
Proof. eexists. eexists. vm_compute. reflexivity. Qed.

(** C5, on the comparison of [data/a.txt] with its own backup. *)
Lemma compareDetailed_differences_consistent_witness :
  exists dc,
    (compareDetailed LocalIpfs.get "cid-0" "data"
       (world_after_backup tree_hello BackupOptions.none)).1 = Ok dc
    /\ NoDup (map Difference.path (DetailedComparison.differences dc))
    /\ TotalChanges.added (DetailedComparison.totalChanges dc)
       = count_type added (DetailedComparison.differences dc)
    /\ TotalChanges.modified (DetailedComparison.totalChanges dc)
       = count_type modified (DetailedComparison.differences dc)
    /\ TotalChanges.deleted (DetailedComparison.totalChanges dc)
       = count_type deleted (DetailedComparison.differences dc)
    /\ (DetailedComparison.isEqual dc = true
        <-> DetailedComparison.differences dc = []).
Proof.
  destruct hello_comparison_returns as (dc & w' & Hrun).
  exists dc. split; [rewrite Hrun; reflexivity |].
  exact (compareDetailed_differences_consistent
           LocalIpfs.get "cid-0" "data" _ w' dc Hrun).
Defined.

(** ** The spec's round trips, run on [IpfsService] *)

(** C1 on the spec's own example.  [data] holds [a.txt] with [hello]; it is
    backed up, and [compareDetailed] is run against that backup with no
    change in between.  The comparison returned has [isEqual = false], one
    difference ([a.txt], [modified]) and [totalChanges = {0, 1, 0}]: the
    local record is [{type, content}] with base64 content, the stored one
    is [{type, content, mimeType}] with UTF-8 content, so their checksums
    differ.  With the file in a sub-directory, which [compareDetailed] does
    not descend into, the difference is ([sub/b.txt], [deleted]). *)
Theorem compareDetailed_after_backup_is_not_equal {E : Externals} :
  (hash_of (backup LocalIpfs.uploadJson "data" BackupOptions.none
                   (LocalIpfs.world tree_hello 1000)).1 = Some "cid-0"
   /\ exists dc,
        (compareDetailed LocalIpfs.get "cid-0" "data"
           (world_after_backup tree_hello BackupOptions.none)).1 = Ok dc
        /\ DetailedComparison.isEqual dc = false
        /\ summary dc = [("a.txt", modified)]
        /\ DetailedComparison.totalChanges dc = TotalChanges.make 0 1 0)
  /\ (hash_of (backup LocalIpfs.uploadJson "data" BackupOptions.none
                      (LocalIpfs.world tree_nested 1000)).1 = Some "cid-0"
      /\ exists dc,
           (compareDetailed LocalIpfs.get "cid-0" "data"
              (world_after_backup tree_nested BackupOptions.none)).1 = Ok dc
           /\ DetailedComparison.isEqual dc = false
           /\ summary dc = [("sub/b.txt", deleted)]
           /\ DetailedComparison.totalChanges dc = TotalChanges.make 0 0 1).
Proof.
  split; (split; [vm_compute; reflexivity |]);
    eexists; (split; [vm_compute; reflexivity |]);
    vm_compute; repeat split.
Qed.

(** C2 on a tree with an empty file, encryption off.  [backup] stores
    [empty.txt] with [content] the empty string; [restore] of that backup
    tests [fileData.content] for truthiness, finds the empty string falsy,
    and throws: nothing is written under [out].  On a file that is not
    UTF-8 and has no binary extension, [restore] returns [true] and writes
    other bytes than the file had. *)
Theorem restore_after_backup_loses_files {E : Externals} :
  (hash_of (backup LocalIpfs.uploadJson "data" BackupOptions.none
                   (LocalIpfs.world tree_empty_file 1000)).1 = Some "cid-0"
   /\ (restore LocalIpfs.get "cid-0" "out" BackupOptions.none
               (world_after_backup tree_empty_file BackupOptions.none)).1
      = Throw (Error "Failed to restore file empty.txt: Invalid file data for empty.txt")
   /\ Fs.read (fs (restore LocalIpfs.get "cid-0" "out" BackupOptions.none
                           (world_after_backup tree_empty_file BackupOptions.none)).2)
              "out/empty.txt" = None)
  /\ ((restore LocalIpfs.get "cid-0" "out" BackupOptions.none
               (world_after_backup tree_not_utf8 BackupOptions.none)).1 = Ok true
      /\ Fs.read (fs (world_after_backup tree_not_utf8 BackupOptions.none))
                 "data/raw.txt" = Some [xff]
      /\ Fs.read (fs (restore LocalIpfs.get "cid-0" "out" BackupOptions.none
                              (world_after_backup tree_not_utf8 BackupOptions.none)).2)
                 "out/raw.txt" = Some [xef; xbf; xbd]).
Proof. vm_compute. repeat split. Qed.

(** C8 on a tree with an empty file, encrypted with AES-256-GCM.  GCM is a
    counter mode: the ciphertext is as long as the plaintext.  For every
    cipher with that property, the backup stores [encrypted] as the empty
    string, and [restore] with the same key and algorithm, which tests
    [fileData.encrypted] for truthiness before decrypting, throws and
    restores nothing.  This is the defect of [restore] seen for C2, on the
    encrypted branch. *)
Theorem encrypted_restore_of_empty_file_throws {E : Externals}
    (backupResult : BackupResult.t) (w1 : World LocalIpfs.Store) :
  (forall key iv data encrypted tag,
      cipher "aes-256-gcm" key iv data = Ok (encrypted, tag) ->
      List.length encrypted = List.length data) ->
  backup LocalIpfs.uploadJson "data" gcm_options
         (LocalIpfs.world tree_empty_file 1000) = (Ok backupResult, w1) ->
  (restore LocalIpfs.get (BackupResult.hash backupResult) "out" gcm_options w1).1
    = Throw (Error "Failed to restore file empty.txt: Invalid file data for empty.txt")
  /\ Fs.read (fs (restore LocalIpfs.get (BackupResult.hash backupResult) "out"
                          gcm_options w1).2) "out/empty.txt" = None.
Proof.
  intros Hlength H.
  rewrite backup_run in H. unfold processDirectory in H.
  change (Fs.lookup (Fs.segments "data")
            (fs (LocalIpfs.world tree_empty_file 1000)))
    with (@inr Fs.code node (Dir [("empty.txt", File [])])) in H.
  cbv beta match in H.
  rewrite processDirectory_at_single_file in H by reflexivity.
  change (Path.join "data" "empty.txt") with "data/empty.txt" in H.
  change (backslashes_to_slashes (Path.join "" "empty.txt")) with "empty.txt" in H.
  rewrite (processFile_run _ _ _ _ _ []) in H by reflexivity.
  change (1024 * 1024 <? Z.of_nat (List.length (@nil byte))) with false in H.
  cbv beta match in H.
  rewrite (processSmallFile_encrypted _ _ _ _ _ []
             (Encryption.new "secret" (Some "aes-256-gcm"))) in H by reflexivity.
  rewrite encrypt_run in H.
  destruct (cipher _ _ _ _) as [[encrypted tag] | e] eqn:Hc in H; [| discriminate H].
  apply Hlength in Hc. destruct encrypted; [| discriminate Hc]. clear Hc.
  cbv beta match zeta in H.
  (* the record stored, the snapshot and the payload, kept abstract *)
  remember (FileData.cipher (Base64.encode []) _ _ _) as record eqn:Hrecord in H.
  assert (Hencrypted : FileData.encrypted record = Some "")
    by (rewrite Hrecord; reflexivity).
  assert (Htype : FileData.type record = None)
    by (rewrite Hrecord; reflexivity).
  clear Hrecord.
  remember (<["empty.txt" := record]> ∅) as snapshot eqn:Hsnapshot in H.
  assert (Hentries : map_to_list snapshot = [("empty.txt", record)]).
  { rewrite Hsnapshot, insert_empty. apply map_to_list_singleton. }
  clear Hsnapshot.
  remember (payload_of snapshot _) as payload eqn:Hpayload in H.
  assert (Hdata : UploadData.data payload = snapshot)
    by (rewrite Hpayload; reflexivity).
  clear Hpayload. destruct payload as [data metadata]. cbn in Hdata. subst data.
  generalize dependent
    (versionInfo_at (Buffer_from (stringify_Snapshot snapshot))).
  intros versionInfo H.
  vm_compute in H. injection H as <- <-.
  cbn [BackupResult.hash].
  rewrite restore_run.
  destruct (get LocalIpfs.get _ _) as [[backup | e] w2] eqn:Hget;
    vm_compute in Hget; [| discriminate Hget].
  injection Hget as <- <-. cbn [BackupData.data].
  rewrite Hentries.
  match goal with |- context [mkWorld _ _ ?b _ _ _] => generalize b end.
  intros store.
  destruct (fs_ensureDir "out" _) as [[[] | e] w2] eqn:Hdir;
    vm_compute in Hdir; [| discriminate Hdir].
  injection Hdir as <-.
  unfold restoreFiles, bind.
  rewrite restoreFile_empty_ciphertext by assumption.
  destruct (fs_ensureDir _ _) as [[[] | e] w3] eqn:Hdir;
    vm_compute in Hdir; [| discriminate Hdir].
  injection Hdir as <-.
  split; reflexivity.
Qed.

(** With the stand-in cipher the encrypted backup of the empty file
    returns, under the id [cid-0]. *)
Lemma encrypted_backup_returns :
  exists backupResult,
    backup LocalIpfs.uploadJson "data" gcm_options
           (LocalIpfs.world tree_empty_file 1000)
      = (Ok backupResult, world_after_backup tree_empty_file gcm_options)
    /\ BackupResult.hash backupResult = "cid-0".
Proof. eexists. split; vm_compute; reflexivity. Qed.

(** C8, with the stand-in cipher, which keeps the length. *)
Lemma encrypted_restore_of_empty_file_throws_witness :
  (restore LocalIpfs.get "cid-0" "out" gcm_options
           (world_after_backup tree_empty_file gcm_options)).1
    = Throw (Error "Failed to restore file empty.txt: Invalid file data for empty.txt")
  /\ Fs.read (fs (restore LocalIpfs.get "cid-0" "out" gcm_options
                          (world_after_backup tree_empty_file gcm_options)).2)
             "out/empty.txt" = None.
Proof.
  destruct encrypted_backup_returns as (backupResult & Hbackup & Hhash).
  rewrite <- Hhash.
  apply (encrypted_restore_of_empty_file_throws backupResult
           (world_after_backup tree_empty_file gcm_options));
    [| exact Hbackup].
  intros key iv data encrypted tag H. injection H as <- _.
  apply length_map.
Defined.

(** The sibling [compare] prepares the local data in the format of the
    backup and walks sub-directories: run right after [backup] it reports
    [isEqual = true], on the flat tree and on the nested one. *)
Lemma compare_after_backup_is_equal :
  (exists comparison,
      (compare LocalIpfs.get "cid-0" "data"
               (world_after_backup tree_hello BackupOptions.none)).1 = Ok comparison
      /\ VersionComparison.isEqual comparison = true)
  /\ (exists comparison,
        (compare LocalIpfs.get "cid-0" "data"
                 (world_after_backup tree_nested BackupOptions.none)).1 = Ok comparison
        /\ VersionComparison.isEqual comparison = true).
Proof.
  split; eexists; (split; [vm_compute; reflexivity | reflexivity]).
Qed.

(** [restore] of the backup of [data/a.txt] writes [hello] to
    [out/a.txt]. *)
Lemma restore_of_hello_round_trips :
  (restore LocalIpfs.get "cid-0" "out" BackupOptions.none
           (world_after_backup tree_hello BackupOptions.none)).1 = Ok true
  /\ Fs.read (fs (restore LocalIpfs.get "cid-0" "out" BackupOptions.none
                          (world_after_backup tree_hello BackupOptions.none)).2)
             "out/a.txt" = Some (Buffer_from "hello").
Proof. vm_compute. split; reflexivity. Qed.

(** When the cipher refuses the ciphertext (a tag that does not verify),
    the record is not written: [restoreFile] throws with the error of
    [decrypt] after [ensureDir], before any [writeFile]. *)
Lemma restoreFile_decrypt_failure {E : Externals} {B : Type}
    (enc : Encryption.t) (targetPath fileName : string) (fileData : FileData.t)
    (w : World B) (e : exn) :
  FileData.isEncrypted fileData = true ->
  truthy_opt (FileData.encrypted fileData) = true ->
  truthy_opt (FileData.iv fileData) = true ->
  decipher (Encryption.algorithm enc) (Encryption.key enc)
           (Base64.decode (default "" (FileData.iv fileData)))
           (if includes "gcm" (Encryption.algorithm enc)
            then (if truthy_opt (FileData.authTag fileData)
                  then Some (Base64.decode (default "" (FileData.authTag fileData)))
                  else None)
            else None)
           (Base64.decode (default "" (FileData.encrypted fileData)))
    = Throw e ->
  restoreFile (Some enc) targetPath fileName fileData w =
    match fs_ensureDir (Path.dirname (Path.join targetPath fileName)) w with
    | (Ok _, w1) => (Throw (failed_to_restore_file fileName e), w1)
    | (Throw e', w1) => (Throw (failed_to_restore_file fileName e'), w1)
    end.
Proof.
  intros Hflag Hencrypted Hiv Hfail. unfold restoreFile.
  rewrite Hflag, Hencrypted, Hiv. simpl.
  unfold try_catch, bind at 1.
  destruct (fs_ensureDir _ w) as [[[] | e'] w1]; [| reflexivity].
  unfold bind, Encryption.decrypt, of_result. rewrite Hfail. reflexivity.
Qed.

(** With the stand-in cipher: the encrypted backup of [data/a.txt] is
    restored to [hello] with the same key, and with another key [restore]
    throws the error of the cipher and writes nothing. *)
Lemma encrypted_restore_of_hello :
  ((restore LocalIpfs.get "cid-0" "out" gcm_options
            (world_after_backup tree_hello gcm_options)).1 = Ok true
   /\ Fs.read (fs (restore LocalIpfs.get "cid-0" "out" gcm_options
                           (world_after_backup tree_hello gcm_options)).2)
              "out/a.txt" = Some (Buffer_from "hello"))
  /\ ((restore LocalIpfs.get "cid-0" "out" gcm_options_other_key
               (world_after_backup tree_hello gcm_options)).1
      = Throw (Error "Failed to restore file a.txt: Unsupported state or unable to authenticate data")
      /\ written_paths (restore LocalIpfs.get "cid-0" "out" gcm_options_other_key
                                (world_after_backup tree_hello gcm_options)).2 = []).
Proof. vm_compute. repeat split. Qed.

(** ** [IpfsService]: pin status and unpinning never throw *)

Section IpfsFacts.
Context {Remote : Type}.
Variable sdk_pin_ls : string -> Remote -> Result (list string) * Remote.
Variable sdk_pin_rm : string -> Remote -> Result unit * Remote.

(** Every failure of the request, whatever its message, becomes [false]. *)
Lemma ipfs_isPinned_never_throws (hash : string) (w : World (Ipfs.Backend Remote)) :
  exists pinned w', Ipfs.isPinned sdk_pin_ls hash w = (Ok pinned, w').
Proof.
  unfold Ipfs.isPinned, try_catch.
  match goal with |- context [let (_, _) := ?body in _] =>
    destruct body as [[pinned | e] w']
  end; unfold ret; eauto.
Qed.

Lemma ipfs_unpin_never_throws (hash : string) (w : World (Ipfs.Backend Remote)) :
  exists unpinned w',
    Ipfs.unpin sdk_pin_ls sdk_pin_rm hash w = (Ok unpinned, w').
Proof.
  unfold Ipfs.unpin. unfold try_catch at 1.
  match goal with |- context [let (_, _) := ?body in _] =>
    destruct body as [[unpinned | e] w']
  end; unfold ret; eauto.
Qed.

End IpfsFacts.

(** * Further properties *)

(** ** Bytes, base64 and UTF-8 *)

Lemma byte_of_to_Z (b : byte) : byte_of_Z (byte_to_Z b) = b.
Proof. destruct b; reflexivity. Qed.

Lemma byte_to_Z_range (b : byte) : 0 <= byte_to_Z b < 256.
Proof. destruct b; vm_compute; split; congruence. Qed.

Lemma bytes_of_to_Z (buf : Buffer) : map byte_of_Z (map byte_to_Z buf) = buf.
Proof.
  induction buf as [| b buf IH]; simpl; [| rewrite byte_of_to_Z, IH]; reflexivity.
Qed.

Lemma byte_to_of_Z (z : Z) : 0 <= z < 256 -> byte_to_Z (byte_of_Z z) = z.
Proof.
  intros Hz. unfold byte_of_Z, byte_to_Z.
  rewrite Z.mod_small by exact Hz.
  destruct (Byte.of_N (Z.to_N z)) as [b |] eqn:Hb.
  - apply Byte.to_of_N in Hb. rewrite Hb. lia.
  - apply Byte.of_N_None_iff in Hb. lia.
Qed.

Lemma bytes_to_of_Z (zs : list Z) :
  Forall (fun z => 0 <= z < 256) zs -> map byte_to_Z (map byte_of_Z zs) = zs.
Proof.
  induction 1 as [| z zs Hz _ IH]; simpl; [| rewrite byte_to_of_Z, IH by exact Hz];
    reflexivity.
Qed.

Lemma map_byte_to_Z_range (content : Buffer) :
  Forall (fun b => 0 <= b < 256) (map byte_to_Z content).
Proof.
  apply Forall_forall. intros z Hz. apply list_elem_of_fmap in Hz as (b & -> & _).
  apply byte_to_Z_range.
Qed.

Lemma map_byte_to_Z_nonneg (content : Buffer) :
  Forall (fun b => 0 <= b) (map byte_to_Z content).
Proof.
  eapply Forall_impl; [apply map_byte_to_Z_range |]. simpl. intros z Hz. lia.
Qed.

Lemma chars_unchars (l : list ascii) : chars (unchars l) = l.
Proof. apply list_ascii_of_string_of_list_ascii. Qed.

Lemma buffer_from_string_of_bytes (buf : Buffer) :
  Buffer_from (string_of_bytes buf) = buf.
Proof. apply list_byte_of_string_of_list_byte. Qed.

Ltac euclid := Z.to_euclidean_division_equations; lia.

Ltac leb_facts :=
  repeat match goal with
  | H : (_ && _) = true |- _ => apply andb_prop in H as [? ?]
  | H : (_ && _) = false |- _ => apply andb_false_iff in H
  | H : (_ <=? _) = true |- _ => apply Z.leb_le in H
  | H : (_ <=? _) = false |- _ => apply Z.leb_gt in H
  | H : (_ =? _) = true |- _ => apply Z.eqb_eq in H
  | H : (_ =? _) = false |- _ => apply Z.eqb_neq in H
  end.

Lemma sextet_table : forallb sextet_ok (map Z.of_nat (seq 0 64)) = true.
Proof. vm_compute. reflexivity. Qed.

Lemma digit_sextet (n : Z) (rest : list ascii) :
  0 <= n < 64 ->
  Base64.sextets (Base64.digit n :: rest) = n :: Base64.sextets rest.
Proof.
  intros Hn.
  assert (H : sextet_ok n = true).
  { pose proof sextet_table as Ht. rewrite forallb_forall in Ht. apply Ht.
    apply in_map_iff. exists (Z.to_nat n). split; [lia |]. apply in_seq. lia. }
  unfold sextet_ok in H. simpl.
  destruct (Base64.unbase64 (Base64.digit n)) as [v |]; [| discriminate].
  apply andb_prop in H as [Hv Heq]. apply Z.eqb_eq in Hv. subst v.
  apply negb_true_iff in Heq. rewrite Heq. reflexivity.
Qed.

Lemma list_ind3 {A} (P : list A -> Prop) :
  P [] -> (forall a, P [a]) -> (forall a b, P [a; b]) ->
  (forall a b c l, P l -> P (a :: b :: c :: l)) ->
  forall l, P l.
Proof.
  intros H0 H1 H2 H3.
  fix IH 1. intros [| a [| b [| c l]]];
    [exact H0 | apply H1 | apply H2 | apply H3; apply IH].
Qed.

Lemma decode_encode_sextets (bs : list Z) :
  Forall (fun b => 0 <= b < 256) bs ->
  Base64.decode_sextets (Base64.sextets (Base64.encode_chars bs)) = bs.
Proof.
  induction bs as [| a | a b | a b c l IH] using list_ind3; intros Hbs.
  - reflexivity.
  - apply Forall_cons in Hbs as [Ha _].
    cbn [Base64.encode_chars].
    rewrite !digit_sextet by euclid.
    simpl. f_equal. euclid.
  - apply Forall_cons in Hbs as [Ha Hbs]. apply Forall_cons in Hbs as [Hb _].
    cbn [Base64.encode_chars].
    rewrite !digit_sextet by euclid.
    simpl. f_equal; [euclid | f_equal; euclid].
  - apply Forall_cons in Hbs as [Ha Hbs]. apply Forall_cons in Hbs as [Hb Hbs].
    apply Forall_cons in Hbs as [Hc Hl].
    cbn [Base64.encode_chars].
    rewrite !digit_sextet by euclid.
    cbn [Base64.decode_sextets]. rewrite IH by exact Hl.
    f_equal; [euclid | f_equal; [euclid | f_equal; euclid]].
Qed.

(** [Buffer.from (buf.toString ('base64'), 'base64')] is [buf]. *)
Lemma base64_round_trip (buf : Buffer) : Base64.decode (Base64.encode buf) = buf.
Proof.
  unfold Base64.decode, Base64.encode. rewrite chars_unchars.
  rewrite decode_encode_sextets by apply map_byte_to_Z_range.
  apply bytes_of_to_Z.
Qed.

Lemma base64_encode_truthy (buf : Buffer) :
  buf <> [] -> truthy_string (Base64.encode buf) = true.
Proof.
  destruct buf as [| a [| b [| c l]]]; [congruence | reflexivity ..].
Qed.

Lemma between_true (lo hi b : Z) : lo <= b <= hi -> between lo hi b = true.
Proof.
  intros H. unfold between. apply andb_true_intro. split; apply Z.leb_le; lia.
Qed.

Lemma between_false (lo hi b : Z) : b < lo \/ hi < b -> between lo hi b = false.
Proof.
  intros H. unfold between. apply andb_false_iff.
  destruct H; [left | right]; apply Z.leb_gt; lia.
Qed.

(** The decoder leaves a well-formed sequence as it is. *)
Lemma run_well_formed (bs : list Z) :
  Forall (fun b => 0 <= b) bs ->
  well_formed_utf8 bs = true -> Utf8.run Utf8.initial bs = bs.
Proof.
  remember (List.length bs) as n eqn:Hn. revert bs Hn.
  induction n as [n IH] using lt_wf_ind. intros bs Hn Hpos Hwf.
  destruct bs as [| b0 rest]; [reflexivity |].
  apply Forall_cons in Hpos as [Hb0 Hpos].
  cbn [well_formed_utf8] in Hwf.
  cbn [Utf8.run Utf8.step Utf8.initial Utf8.needed]. unfold Utf8.start.
  unfold between in Hwf at 1.
  assert (H0 : (0 <=? b0) = true) by (apply Z.leb_le; exact Hb0).
  rewrite H0 in Hwf. simpl andb in Hwf.
  destruct (b0 <=? 127) eqn:H1.
  { simpl. f_equal. apply (IH (List.length rest)); simpl in *; auto; lia. }
  unfold between in Hwf at 1.
  destruct ((194 <=? b0) && (b0 <=? 223)) eqn:H2.
  { destruct rest as [| b1 rest']; [discriminate |].
    apply andb_prop in Hwf as [Hb1 Hwf]. unfold between in Hb1.
    apply Forall_cons in Hpos as [_ Hpos].
    cbn [Utf8.run Utf8.step Utf8.needed Utf8.lower Utf8.upper Utf8.pending app].
    rewrite Hb1. simpl. do 2 f_equal.
    apply (IH (List.length rest')); simpl in *; auto; lia. }
  unfold between in Hwf at 1.
  destruct ((224 <=? b0) && (b0 <=? 239)) eqn:H3.
  { destruct rest as [| b1 [| b2 rest']]; try discriminate.
    apply andb_prop in Hwf as [Hwf Hrest]. apply andb_prop in Hwf as [Hb1 Hb2].
    unfold between in Hb1, Hb2.
    apply Forall_cons in Hpos as [_ Hpos]. apply Forall_cons in Hpos as [_ Hpos].
    cbn [Utf8.run Utf8.step Utf8.needed Utf8.lower Utf8.upper Utf8.pending app].
    rewrite Hb1.
    cbn [Utf8.run Utf8.step Utf8.needed Utf8.lower Utf8.upper Utf8.pending app].
    rewrite Hb2. simpl. do 3 f_equal.
    apply (IH (List.length rest')); simpl in *; auto; lia. }
  unfold between in Hwf at 1.
  destruct ((240 <=? b0) && (b0 <=? 244)) eqn:H4; [| discriminate].
  destruct rest as [| b1 [| b2 [| b3 rest']]]; try discriminate.
  apply andb_prop in Hwf as [Hwf Hrest]. apply andb_prop in Hwf as [Hwf Hb3].
  apply andb_prop in Hwf as [Hb1 Hb2].
  unfold between in Hb1, Hb2, Hb3.
  do 3 apply Forall_cons in Hpos as [_ Hpos].
  cbn [Utf8.run Utf8.step Utf8.needed Utf8.lower Utf8.upper Utf8.pending app].
  rewrite Hb1.
  cbn [Utf8.run Utf8.step Utf8.needed Utf8.lower Utf8.upper Utf8.pending app].
  rewrite Hb2.
  cbn [Utf8.run Utf8.step Utf8.needed Utf8.lower Utf8.upper Utf8.pending app].
  rewrite Hb3. simpl. do 4 f_equal.
  apply (IH (List.length rest')); simpl in *; auto; lia.
Qed.

Lemma start_ok (b : Z) :
  0 <= b ->
  state_ok (Utf8.start b).2
  /\ forall X, well_formed_utf8 X = true ->
       well_formed_utf8 ((Utf8.start b).1 ++ X) = true.
Proof.
  intros Hb. unfold Utf8.start.
  destruct (b <=? 127) eqn:H1.
  { split; [left; reflexivity |]. intros X HX. simpl.
    leb_facts. rewrite between_true by lia. exact HX. }
  destruct ((194 <=? b) && (b <=? 223)) eqn:H2.
  { split; [| intros X HX; exact HX]. right. intros c rest Hc Hrest.
    unfold completes in Hc. simpl in Hc.
    destruct c as [| b1 c']; [contradiction |].
    destruct Hc as (Hb1 & Hlen & _). destruct c'; [| discriminate].
    leb_facts. simpl.
    rewrite (between_false 0 127) by lia. rewrite (between_true 194 223) by lia.
    rewrite (between_true 128 191) by lia. exact Hrest. }
  destruct ((224 <=? b) && (b <=? 239)) eqn:H3.
  { split; [| intros X HX; exact HX]. right. intros c rest Hc Hrest.
    unfold completes in Hc. simpl in Hc.
    destruct c as [| b1 c']; [contradiction |].
    destruct Hc as (Hb1 & Hlen & Hcont).
    destruct c' as [| b2 [| ? ?]]; try discriminate.
    apply Forall_cons in Hcont as [Hb2 _]. unfold continuation in Hb2.
    leb_facts. simpl.
    rewrite (between_false 0 127) by lia. rewrite (between_false 194 223) by lia.
    rewrite (between_true 224 239) by lia.
    rewrite (between_true _ _ b1) by lia.
    rewrite (between_true 128 191) by lia. exact Hrest. }
  destruct ((240 <=? b) && (b <=? 244)) eqn:H4.
  { split; [| intros X HX; exact HX]. right. intros c rest Hc Hrest.
    unfold completes in Hc. simpl in Hc.
    destruct c as [| b1 c']; [contradiction |].
    destruct Hc as (Hb1 & Hlen & Hcont).
    destruct c' as [| b2 [| b3 [| ? ?]]]; try discriminate.
    apply Forall_cons in Hcont as [Hb2 Hcont].
    apply Forall_cons in Hcont as [Hb3 _]. unfold continuation in Hb2, Hb3.
    leb_facts. simpl.
    rewrite (between_false 0 127) by lia. rewrite (between_false 194 223) by lia.
    rewrite (between_false 224 239) by lia. rewrite (between_true 240 244) by lia.
    rewrite (between_true _ _ b1) by lia.
    rewrite !(between_true 128 191) by lia. exact Hrest. }
  split; [left; reflexivity |]. intros X HX. exact HX.
Qed.

Lemma step_ok (st : Utf8.state) (b : Z) :
  0 <= b -> state_ok st ->
  state_ok (Utf8.step st b).2
  /\ forall X, well_formed_utf8 X = true ->
       well_formed_utf8 ((Utf8.step st b).1 ++ X) = true.
Proof.
  intros Hb Hst. unfold Utf8.step.
  destruct (Utf8.needed st) as [| n] eqn:Hn; [apply start_ok; exact Hb |].
  destruct Hst as [Hst | Hst]; [congruence |].
  destruct ((Utf8.lower st <=? b) && (b <=? Utf8.upper st)) eqn:Hrange.
  - leb_facts. destruct n as [| m].
    + split; [left; reflexivity |]. intros X HX. simpl.
      rewrite <- app_assoc. apply Hst; [| exact HX].
      unfold completes. rewrite Hn. repeat split; auto.
    + split; [| intros X HX; exact HX]. right. simpl.
      intros c rest Hc Hrest. unfold completes in Hc. simpl in Hc.
      destruct c as [| b' c']; [contradiction |].
      destruct Hc as (Hb' & Hlen & Hcont).
      rewrite <- app_assoc. apply (Hst (b :: b' :: c') rest); [| exact Hrest].
      unfold completes. rewrite Hn. repeat split; try lia.
      * simpl. lia.
      * apply Forall_cons. split; [exact Hb' | exact Hcont].
  - destruct (start_ok b Hb) as [Hok Hout].
    destruct (Utf8.start b) as [out st']. simpl in *.
    split; [exact Hok |]. intros X HX. apply Hout. exact HX.
Qed.

(** Whatever the input, the decoder puts out a well-formed sequence. *)
Lemma run_ok (bs : list Z) (st : Utf8.state) :
  Forall (fun b => 0 <= b) bs -> state_ok st ->
  well_formed_utf8 (Utf8.run st bs) = true.
Proof.
  revert st. induction bs as [| b rest IH]; intros st Hbs Hst.
  - simpl. destruct (Utf8.needed st); reflexivity.
  - apply Forall_cons in Hbs as [Hb Hrest].
    destruct (step_ok st b Hb Hst) as [Hok Hout].
    simpl. destruct (Utf8.step st b) as [out st']. simpl in *.
    apply Hout. apply IH; assumption.
Qed.

Lemma run_fixes_well_formed (bs : list Z) :
  Forall (fun b => 0 <= b) bs ->
  Utf8.run Utf8.initial bs = bs <-> well_formed_utf8 bs = true.
Proof.
  intros Hbs. split.
  - intros H. rewrite <- H. apply run_ok; [exact Hbs | left; reflexivity].
  - apply run_well_formed. exact Hbs.
Qed.

Lemma step_silent (st : Utf8.state) (b : Z) :
  (Utf8.step st b).1 = [] -> Utf8.needed (Utf8.step st b).2 <> 0%nat.
Proof.
  unfold Utf8.step, Utf8.start.
  destruct (Utf8.needed st) as [| n].
  - repeat match goal with |- context [if ?c then _ else _] => destruct c end;
      simpl; intros H; try discriminate; lia.
  - destruct ((Utf8.lower st <=? b) && (b <=? Utf8.upper st)).
    + destruct n; simpl; intros H; [| lia].
      destruct (Utf8.pending st); discriminate.
    + repeat match goal with |- context [if ?c then _ else _] => destruct c end;
        simpl; intros H; discriminate.
Qed.

Lemma run_nonempty (bs : list Z) (st : Utf8.state) :
  bs <> [] \/ Utf8.needed st <> 0%nat -> Utf8.run st bs <> [].
Proof.
  revert st. induction bs as [| b rest IH]; intros st H.
  - simpl. destruct H as [H | H]; [congruence |].
    destruct (Utf8.needed st); [congruence | discriminate].
  - simpl. pose proof (step_silent st b) as Hsilent.
    destruct (Utf8.step st b) as [out st']. simpl in *.
    destruct out as [| o out]; [| discriminate].
    simpl. apply IH. right. apply Hsilent. reflexivity.
Qed.

Lemma well_formed_bytes (bs : list Z) :
  well_formed_utf8 bs = true -> Forall (fun b => 0 <= b < 256) bs.
Proof.
  remember (List.length bs) as n eqn:Hn. revert bs Hn.
  induction n as [n IH] using lt_wf_ind. intros bs Hn Hwf.
  destruct bs as [| b0 rest]; [constructor |].
  cbn [well_formed_utf8] in Hwf.
  destruct (between 0 127 b0) eqn:H1.
  { unfold between in H1. leb_facts. constructor; [lia |].
    apply (IH (List.length rest)); simpl in *; auto; lia. }
  destruct (between 194 223 b0) eqn:H2.
  { destruct rest as [| b1 rest']; [discriminate |].
    unfold between in *. leb_facts.
    repeat (constructor; [lia |]).
    apply (IH (List.length rest')); simpl in *; auto; lia. }
  destruct (between 224 239 b0) eqn:H3.
  { destruct rest as [| b1 [| b2 rest']]; try discriminate.
    unfold between in H3. apply andb_prop in Hwf as [Hwf Hrest].
    apply andb_prop in Hwf as [Hb1 Hb2]. unfold between in Hb1, Hb2.
    assert (128 <= b1 <= 191)
      by (destruct (b0 =? 224), (b0 =? 237); leb_facts; lia).
    leb_facts. repeat (constructor; [lia |]).
    apply (IH (List.length rest')); simpl in *; auto; lia. }
  destruct (between 240 244 b0) eqn:H4; [| discriminate].
  destruct rest as [| b1 [| b2 [| b3 rest']]]; try discriminate.
  unfold between in H4. apply andb_prop in Hwf as [Hwf Hrest].
  apply andb_prop in Hwf as [Hwf Hb3]. apply andb_prop in Hwf as [Hb1 Hb2].
  unfold between in Hb1, Hb2, Hb3.
  assert (128 <= b1 <= 191)
    by (destruct (b0 =? 240), (b0 =? 244); leb_facts; lia).
  leb_facts. repeat (constructor; [lia |]).
  apply (IH (List.length rest')); simpl in *; auto; lia.
Qed.

Lemma utf8_decode_bytes (content : Buffer) :
  Buffer_from (Utf8.decode content)
  = map byte_of_Z (Utf8.run Utf8.initial (map byte_to_Z content)).
Proof. unfold Utf8.decode. apply buffer_from_string_of_bytes. Qed.

Lemma utf8_decode_truthy (content : Buffer) :
  content <> [] -> truthy_string (Utf8.decode content) = true.
Proof.
  intros Hne. unfold Utf8.decode, string_of_bytes.
  pose proof (run_nonempty (map byte_to_Z content) Utf8.initial) as Hrun.
  destruct (Utf8.run Utf8.initial (map byte_to_Z content)) as [| z zs].
  - exfalso. apply Hrun; [| reflexivity]. left.
    destruct content; [congruence | discriminate].
  - reflexivity.
Qed.

(** [Buffer.from (buf.toString ('utf8'))] is [buf] exactly when [buf] is
    well-formed UTF-8. *)
Lemma utf8_decode_fixes (content : Buffer) :
  Buffer_from (Utf8.decode content) = content
  <-> well_formed_utf8 (map byte_to_Z content) = true.
Proof.
  rewrite utf8_decode_bytes.
  rewrite <- (run_fixes_well_formed _ (map_byte_to_Z_nonneg content)).
  split.
  - intros H. rewrite <- H at 2.
    rewrite bytes_to_of_Z; [reflexivity |].
    apply well_formed_bytes, run_ok; [apply map_byte_to_Z_nonneg | left; reflexivity].
  - intros H. rewrite H. apply bytes_of_to_Z.
Qed.

(** ** One file through [backup] and [restore] *)

Lemma find_entry_set_entry (name : string) (child : node)
    (entries : list (string * node)) :
  Fs.find_entry name (Fs.set_entry name child entries) = Some child.
Proof.
  induction entries as [| [n c] rest IH]; simpl.
  - rewrite String.eqb_refl. reflexivity.
  - destruct (String.eqb n name) eqn:Heq; simpl; rewrite Heq; [reflexivity | exact IH].
Qed.

Lemma lookup_after_write (segs : list string) (data : Buffer) :
  forall root root',
    Fs.write segs data root = inr root' -> Fs.lookup segs root' = inr (File data).
Proof.
  induction segs as [| seg rest IH]; intros root root'.
  - simpl. destruct root; [intros [= <-]; reflexivity | discriminate].
  - simpl. destruct root as [content | entries]; [discriminate |].
    destruct (Fs.find_entry seg entries) as [child |] eqn:Hfind.
    + destruct (Fs.write rest data child) as [c | child'] eqn:Hwrite; [discriminate |].
      intros [= <-]. simpl. rewrite find_entry_set_entry. eapply IH. exact Hwrite.
    + destruct rest; [| discriminate].
      intros [= <-]. simpl. rewrite find_entry_set_entry. reflexivity.
Qed.

Section RecordRoundTrip.
Context {E : Externals} {B : Type}.

Lemma fs_writeFile_read (path : string) (data : Buffer) (w w' : World B) :
  fs_writeFile path data w = (Ok tt, w') -> Fs.read (fs w') path = Some data.
Proof.
  unfold fs_writeFile. unfold_monad. simpl.
  destruct (Fs.write (Fs.segments path) data (fs w)) as [c | root] eqn:Hwrite;
    [discriminate |].
  intros [= <-]. unfold Fs.read. simpl.
  rewrite (lookup_after_write _ _ _ _ Hwrite). reflexivity.
Qed.

(** Once [writeRestored] has returned, the file holds the data. *)
Lemma writeRestored_read (targetPath fileName : string) (data : Buffer)
    (w w' : World B) :
  writeRestored targetPath fileName data w = (Ok tt, w') ->
  Fs.read (fs w') (Path.join targetPath fileName) = Some data.
Proof.
  unfold writeRestored, try_catch, bind.
  destruct (fs_ensureDir _ w) as [[[] | e] w1]; [| discriminate].
  destruct (fs_writeFile _ data w1) as [[[] | e] w2] eqn:Hwrite; [| discriminate].
  intros [= <-]. eapply fs_writeFile_read. exact Hwrite.
Qed.

Lemma restoreFile_plain_binary (encryption : option Encryption.t)
    (targetPath fileName : string) (content : Buffer) (mimeType : string)
    (w : World B) :
  content <> [] ->
  restoreFile encryption targetPath fileName (plain_record true content mimeType) w
  = writeRestored targetPath fileName content w.
Proof.
  intros Hne. unfold restoreFile, writeRestored, plain_record. simpl.
  rewrite (base64_encode_truthy content Hne). simpl.
  rewrite base64_round_trip. reflexivity.
Qed.

Lemma restoreFile_plain_text (encryption : option Encryption.t)
    (targetPath fileName : string) (content : Buffer) (mimeType : string)
    (w : World B) :
  content <> [] ->
  restoreFile encryption targetPath fileName (plain_record false content mimeType) w
  = writeRestored targetPath fileName (Buffer_from (Utf8.decode content)) w.
Proof.
  intros Hne. unfold restoreFile, writeRestored, plain_record. simpl.
  rewrite (utf8_decode_truthy content Hne). reflexivity.
Qed.

(** The record of an encrypted file, decrypted by [restore]: base64 gives
    the ciphertext, the iv and the tag back. *)
Lemma restoreFile_cipher (enc : Encryption.t) (targetPath fileName : string)
    (encrypted iv : Buffer) (authTag : option Buffer) (mimeType : string)
    (plaintext : Buffer) (w : World B) :
  encrypted <> [] -> iv <> [] ->
  (forall tag, authTag = Some tag -> tag <> []) ->
  decipher (Encryption.algorithm enc) (Encryption.key enc) iv
           (if includes "gcm" (Encryption.algorithm enc) then authTag else None)
           encrypted = Ok plaintext ->
  restoreFile (Some enc) targetPath fileName
    (FileData.cipher (Base64.encode encrypted) (Base64.encode iv)
                     (option_map Base64.encode authTag) mimeType) w
  = writeRestored targetPath fileName plaintext w.
Proof.
  intros Hencrypted Hiv Htag Hdecipher.
  unfold restoreFile, writeRestored, FileData.cipher. simpl.
  rewrite (base64_encode_truthy encrypted Hencrypted).
  rewrite (base64_encode_truthy iv Hiv). simpl.
  rewrite !base64_round_trip.
  assert (Hauth : (if truthy_opt (option_map Base64.encode authTag)
                   then Some (Base64.decode
                                (default "" (option_map Base64.encode authTag)))
                   else None) = authTag).
  { destruct authTag as [tag |]; [| reflexivity]. simpl.
    rewrite (base64_encode_truthy tag) by (apply Htag; reflexivity).
    rewrite base64_round_trip. reflexivity. }
  rewrite Hauth.
  unfold try_catch, bind.
  destruct (fs_ensureDir _ w) as [[[] | e] w1]; [| reflexivity].
  unfold Encryption.decrypt, of_result. rewrite Hdecipher. reflexivity.
Qed.

(** A record without [type] is refused unless it is decrypted. *)
Lemma restoreFile_untyped (targetPath fileName : string) (fileData : FileData.t)
    (w : World B) :
  FileData.type fileData = None ->
  restoreFile None targetPath fileName fileData w =
    match fs_ensureDir (Path.dirname (Path.join targetPath fileName)) w with
    | (Ok _, w1) =>
        (Throw (failed_to_restore_file fileName
                  (Error ("Invalid file data for " +:+ fileName))), w1)
    | (Throw e, w1) => (Throw (failed_to_restore_file fileName e), w1)
    end.
Proof.
  intros Htype. unfold restoreFile. rewrite Htype.
  unfold try_catch, bind at 1.
  destruct (fs_ensureDir _ w) as [[[] | e] w1]; [| reflexivity].
  destruct (FileData.isEncrypted fileData && _ && _); reflexivity.
Qed.

Lemma restoreFile_untyped_throws (targetPath fileName : string)
    (fileData : FileData.t) (w : World B) :
  FileData.type fileData = None ->
  exists e w', restoreFile None targetPath fileName fileData w = (Throw e, w').
Proof.
  intros Htype. rewrite restoreFile_untyped by exact Htype.
  destruct (fs_ensureDir _ w) as [[[] | e] w1]; eauto.
Qed.

(** The loop of [restore] does not end normally when one of its records is
    refused in every world. *)
Lemma restoreFiles_refused (encryption : option Encryption.t) (targetPath : string)
    (entries : list (string * FileData.t)) (fileName : string)
    (fileData : FileData.t) :
  (fileName, fileData) ∈ entries ->
  (forall w : World B,
      exists e w',
        restoreFile encryption targetPath fileName fileData w = (Throw e, w')) ->
  forall w : World B,
    exists e w', restoreFiles encryption targetPath entries w = (Throw e, w').
Proof.
  intros Hin Hrefused.
  induction entries as [| [n d] rest IH]; intros w.
  - apply elem_of_nil in Hin. contradiction.
  - simpl. unfold bind.
    destruct (restoreFile encryption targetPath n d w) as [[[] | e] w1] eqn:Hfile;
      [| eauto].
    apply elem_of_cons in Hin as [Heq | Hin].
    + injection Heq as <- <-. destruct (Hrefused w) as (e & w' & H). congruence.
    + apply IH. exact Hin.
Qed.

(** The record [processDirectory] stores for a file kept in the clear, of
    whatever size. *)
Lemma processFile_plain_result (fullPath relativePath : string)
    (backupData : Snapshot) (options : BackupOptions.t) (w : World B)
    (content : Buffer) :
  Fs.lookup (Fs.segments fullPath) (fs w) = inr (File content) ->
  oversized options (stats_of (File content)) = false ->
  encryption_of options = None ->
  (processFile fullPath relativePath backupData options w).1
  = Ok (<[relativePath := plain_record (isBinaryFile fullPath) content
                                        (getMimeType fullPath)]> backupData).
Proof.
  intros Hfile Hlimit Hplain.
  rewrite (processFile_run _ _ _ _ _ content) by assumption.
  destruct (1024 * 1024 <? Z.of_nat (List.length content));
    [rewrite read_paths_same_result |];
    rewrite (processSmallFile_plain _ _ _ _ _ content) by assumption;
    reflexivity.
Qed.

(** The record [processDirectory] stores for a file that is encrypted. *)
Lemma processFile_encrypted_result (fullPath relativePath : string)
    (backupData : Snapshot) (options : BackupOptions.t) (w : World B)
    (content : Buffer) (enc : Encryption.t) (encrypted tag : Buffer) :
  Fs.lookup (Fs.segments fullPath) (fs w) = inr (File content) ->
  oversized options (stats_of (File content)) = false ->
  encryption_of options = Some enc ->
  cipher (Encryption.algorithm enc) (Encryption.key enc)
         (randomBytes (entropy w) 16) content = Ok (encrypted, tag) ->
  (processFile fullPath relativePath backupData options w).1
  = Ok (<[relativePath :=
            FileData.cipher
              (Base64.encode encrypted)
              (Base64.encode (randomBytes (entropy w) 16))
              (option_map Base64.encode
                 (if includes "gcm" (Encryption.algorithm enc)
                  then Some tag else None))
              (getMimeType fullPath)]> backupData).
Proof.
  intros Hfile Hlimit Henc Hcipher.
  rewrite (processFile_run _ _ _ _ _ content) by assumption.
  destruct (1024 * 1024 <? Z.of_nat (List.length content));
    [rewrite read_paths_same_result |];
    rewrite (processSmallFile_encrypted _ _ _ _ _ content enc) by assumption;
    rewrite encrypt_run; simpl; rewrite Hcipher; reflexivity.
Qed.

End RecordRoundTrip.

(** X1.  A non-empty file with a binary extension, backed up in
    the clear, is restored byte for byte: the walk stores one record for
    it, and for that record the loop body of [restore] is [ensureDir] of
    the directory followed by [writeFile] of the very bytes the file had,
    whatever encryption options [restore] is given; when it returns, the
    restored file holds these bytes. *)
Theorem binary_file_is_restored_byte_for_byte {E : Externals} {B : Type}
    (fullPath relativePath : string) (backupData : Snapshot)
    (options : BackupOptions.t) (w : World B) (content : Buffer) :
  Fs.lookup (Fs.segments fullPath) (fs w) = inr (File content) ->
  oversized options (stats_of (File content)) = false ->
  encryption_of options = None ->
  isBinaryFile fullPath = true ->
  content <> [] ->
  exists record,
    (processFile fullPath relativePath backupData options w).1
      = Ok (<[relativePath := record]> backupData)
    /\ forall encryption targetPath (w' : World B),
         restoreFile encryption targetPath relativePath record w'
           = writeRestored targetPath relativePath content w'
         /\ forall w'',
              restoreFile encryption targetPath relativePath record w' = (Ok tt, w'') ->
              Fs.read (fs w'') (Path.join targetPath relativePath) = Some content.
Proof.
  intros Hfile Hlimit Hplain Hbinary Hne.
  exists (plain_record true content (getMimeType fullPath)). split.
  - rewrite (processFile_plain_result _ _ _ _ _ content) by assumption.
    rewrite Hbinary. reflexivity.
  - intros encryption targetPath w'.
    rewrite restoreFile_plain_binary by exact Hne.
    split; [reflexivity | apply writeRestored_read].
Qed.

(** X1, on [data/logo.png]. *)
Lemma binary_file_is_restored_byte_for_byte_witness :
  exists record,
    (processFile "data/logo.png" "logo.png" ∅ BackupOptions.none
                 (LocalIpfs.world tree_logo 1000)).1
      = Ok (<["logo.png" := record]> ∅)
    /\ forall encryption targetPath (w' : World LocalIpfs.Store),
         restoreFile encryption targetPath "logo.png" record w'
           = writeRestored targetPath "logo.png" [x89; x50; x4e; x47] w'
         /\ forall w'',
              restoreFile encryption targetPath "logo.png" record w' = (Ok tt, w'') ->
              Fs.read (fs w'') (Path.join targetPath "logo.png")
                = Some [x89; x50; x4e; x47].
Proof.
  apply (binary_file_is_restored_byte_for_byte
           "data/logo.png" "logo.png" ∅ BackupOptions.none
           (LocalIpfs.world tree_logo 1000) [x89; x50; x4e; x47]);
    [reflexivity | reflexivity | reflexivity | reflexivity | discriminate].
Defined.

(** X2.  A non-empty file without a binary extension, backed up in
    the clear, is restored as [Buffer.from (content.toString ('utf8'))]:
    the loop body of [restore] writes these bytes, and they are the bytes
    of the file exactly when the file is well-formed UTF-8. *)
Theorem text_file_is_restored_exactly_when_utf8 {E : Externals} {B : Type}
    (fullPath relativePath : string) (backupData : Snapshot)
    (options : BackupOptions.t) (w : World B) (content : Buffer) :
  Fs.lookup (Fs.segments fullPath) (fs w) = inr (File content) ->
  oversized options (stats_of (File content)) = false ->
  encryption_of options = None ->
  isBinaryFile fullPath = false ->
  content <> [] ->
  exists record,
    (processFile fullPath relativePath backupData options w).1
      = Ok (<[relativePath := record]> backupData)
    /\ (forall encryption targetPath (w' : World B),
          restoreFile encryption targetPath relativePath record w'
            = writeRestored targetPath relativePath
                            (Buffer_from (Utf8.decode content)) w')
    /\ (Buffer_from (Utf8.decode content) = content
        <-> well_formed_utf8 (map byte_to_Z content) = true).
Proof.
  intros Hfile Hlimit Hplain Htext Hne.
  exists (plain_record false content (getMimeType fullPath)). split; [| split].
  - rewrite (processFile_plain_result _ _ _ _ _ content) by assumption.
    rewrite Htext. reflexivity.
  - intros encryption targetPath w'. apply restoreFile_plain_text. exact Hne.
  - apply utf8_decode_fixes.
Qed.

(** X2, on [data/a.txt] holding [hello]. *)
Lemma text_file_is_restored_exactly_when_utf8_witness :
  exists record,
    (processFile "data/a.txt" "a.txt" ∅ BackupOptions.none
                 (LocalIpfs.world tree_hello 1000)).1
      = Ok (<["a.txt" := record]> ∅)
    /\ (forall encryption targetPath (w' : World LocalIpfs.Store),
          restoreFile encryption targetPath "a.txt" record w'
            = writeRestored targetPath "a.txt"
                            (Buffer_from (Utf8.decode (Buffer_from "hello"))) w')
    /\ (Buffer_from (Utf8.decode (Buffer_from "hello")) = Buffer_from "hello"
        <-> well_formed_utf8 (map byte_to_Z (Buffer_from "hello")) = true).
Proof.
  apply (text_file_is_restored_exactly_when_utf8
           "data/a.txt" "a.txt" ∅ BackupOptions.none
           (LocalIpfs.world tree_hello 1000) (Buffer_from "hello"));
    [reflexivity | reflexivity | reflexivity | reflexivity | discriminate].
Defined.

(** X3.  A file whose ciphertext is not empty, backed up with
    encryption, is restored to its plaintext by [restore] with the same
    options, for every cipher whose [decipher] undoes its [cipher] under
    the same key, iv and tag: base64 returns the ciphertext, the iv and
    the tag unchanged, and the loop body of [restore] is [ensureDir]
    followed by [writeFile] of the plaintext. *)
Theorem encrypted_file_is_restored_with_its_key {E : Externals} {B : Type}
    (fullPath relativePath : string) (backupData : Snapshot)
    (options : BackupOptions.t) (w : World B) (content : Buffer)
    (enc : Encryption.t) (encrypted tag : Buffer) :
  Fs.lookup (Fs.segments fullPath) (fs w) = inr (File content) ->
  oversized options (stats_of (File content)) = false ->
  encryption_of options = Some enc ->
  cipher (Encryption.algorithm enc) (Encryption.key enc)
         (randomBytes (entropy w) 16) content = Ok (encrypted, tag) ->
  encrypted <> [] ->
  randomBytes (entropy w) 16 <> [] ->
  (includes "gcm" (Encryption.algorithm enc) = true -> tag <> []) ->
  decipher (Encryption.algorithm enc) (Encryption.key enc)
           (randomBytes (entropy w) 16)
           (if includes "gcm" (Encryption.algorithm enc) then Some tag else None)
           encrypted = Ok content ->
  exists record,
    (processFile fullPath relativePath backupData options w).1
      = Ok (<[relativePath := record]> backupData)
    /\ FileData.isEncrypted record = true
    /\ forall targetPath (w' : World B),
         restoreFile (encryption_of options) targetPath relativePath record w'
         = writeRestored targetPath relativePath content w'.
Proof.
  intros Hfile Hlimit Henc Hcipher Hencrypted Hiv Htag Hdecipher.
  eexists. split; [| split].
  - apply (processFile_encrypted_result _ _ _ _ _ content enc encrypted tag);
      assumption.
  - reflexivity.
  - intros targetPath w'. rewrite Henc. apply restoreFile_cipher.
    + exact Hencrypted.
    + exact Hiv.
    + intros t Ht. destruct (includes "gcm" (Encryption.algorithm enc));
        [| discriminate]. injection Ht as <-. apply Htag. reflexivity.
    + destruct (includes "gcm" (Encryption.algorithm enc)); exact Hdecipher.
Qed.

(** With the stand-in cipher, [hello] sealed under the key [secret]. *)
Lemma hello_is_sealed :
  cipher (Encryption.algorithm secret_encryption) (Encryption.key secret_encryption)
         (randomBytes (entropy (LocalIpfs.world tree_hello 1000)) 16)
         (Buffer_from "hello")
  = Ok (hello_sealed.1, hello_sealed.2).
Proof. vm_compute. reflexivity. Qed.

Lemma hello_is_opened :
  decipher (Encryption.algorithm secret_encryption) (Encryption.key secret_encryption)
           (randomBytes (entropy (LocalIpfs.world tree_hello 1000)) 16)
           (if includes "gcm" (Encryption.algorithm secret_encryption)
            then Some hello_sealed.2 else None)
           hello_sealed.1
  = Ok (Buffer_from "hello").
Proof. vm_compute. reflexivity. Qed.

Lemma hello_sealed_nonempty :
  hello_sealed.1 <> []
  /\ randomBytes (entropy (LocalIpfs.world tree_hello 1000)) 16 <> []
  /\ hello_sealed.2 <> [].
Proof. vm_compute. repeat split; discriminate. Qed.

(** X3, on [data/a.txt] with the stand-in cipher. *)
Lemma encrypted_file_is_restored_with_its_key_witness :
  exists record,
    (processFile "data/a.txt" "a.txt" ∅ gcm_options
                 (LocalIpfs.world tree_hello 1000)).1
      = Ok (<["a.txt" := record]> ∅)
    /\ FileData.isEncrypted record = true
    /\ forall targetPath (w' : World LocalIpfs.Store),
         restoreFile (encryption_of gcm_options) targetPath "a.txt" record w'
         = writeRestored targetPath "a.txt" (Buffer_from "hello") w'.
Proof.
  destruct hello_sealed_nonempty as (Hencrypted & Hiv & Htag).
  apply (encrypted_file_is_restored_with_its_key
           "data/a.txt" "a.txt" ∅ gcm_options (LocalIpfs.world tree_hello 1000)
           (Buffer_from "hello") secret_encryption hello_sealed.1 hello_sealed.2);
    [reflexivity | reflexivity | reflexivity | exact hello_is_sealed
    | exact Hencrypted | exact Hiv | intros _; exact Htag | exact hello_is_opened].
Defined.

(** X4.  A backup that holds a record without [type], as every
    encrypted record is, is not restored by [restore] without a usable key
    (no encryption options, encryption not enabled, or an empty key): the
    loop body throws for that record in every world, so [restore] throws. *)
Theorem restore_without_key_refuses_encrypted_records {E : Externals} {B : Type}
    (get_ : string -> M B (option BackupData.t))
    (hash targetPath : string) (options : BackupOptions.t) (w w1 : World B)
    (backup : BackupData.t) (data : Snapshot) (fileName : string)
    (record : FileData.t) :
  get get_ hash w = (Ok backup, w1) ->
  BackupData.data backup = Some data ->
  data !! fileName = Some record ->
  FileData.type record = None ->
  encryption_of options = None ->
  (forall w2 : World B,
      exists e w3,
        restoreFile (encryption_of options) targetPath fileName record w2
          = (Throw e, w3))
  /\ exists e w', restore get_ hash targetPath options w = (Throw e, w').
Proof.
  intros Hget Hdata Hrecord Htype Hkey. rewrite Hkey.
  assert (Hrefused : forall w2 : World B,
             exists e w3,
               restoreFile None targetPath fileName record w2 = (Throw e, w3))
    by (intros w2; apply restoreFile_untyped_throws; exact Htype).
  split; [exact Hrefused |].
  rewrite restore_run, Hget, Hdata, Hkey.
  destruct (fs_ensureDir targetPath w1) as [[[] | e] w2]; [| eauto].
  destruct (restoreFiles_refused None targetPath (map_to_list data) fileName record
              (proj2 (elem_of_map_to_list data fileName record) Hrecord)
              Hrefused w2) as (e & w' & Hloop).
  rewrite Hloop. eauto.
Qed.

(** The encrypted backup of [data/a.txt], as [get] returns it. *)
Lemma sealed_backup_is_fetched :
  exists backup w1 data record,
    get LocalIpfs.get "cid-0" (world_after_backup tree_hello gcm_options)
      = (Ok backup, w1)
    /\ BackupData.data backup = Some data
    /\ data !! "a.txt" = Some record
    /\ FileData.type record = None.
Proof.
  do 4 eexists. split; [vm_compute; reflexivity |]. split; [reflexivity |].
  split; [vm_compute; reflexivity | reflexivity].
Qed.

(** X4, on the encrypted backup of [data/a.txt], restored without
    options. *)
Lemma restore_without_key_refuses_encrypted_records_witness :
  exists record,
    (forall w2 : World LocalIpfs.Store,
        exists e w3,
          restoreFile (encryption_of BackupOptions.none) "out" "a.txt" record w2
            = (Throw e, w3))
    /\ exists e w',
         restore LocalIpfs.get "cid-0" "out" BackupOptions.none
                 (world_after_backup tree_hello gcm_options) = (Throw e, w').
Proof.
  destruct sealed_backup_is_fetched
    as (backup & w1 & data & record & Hget & Hdata & Hrecord & Htype).
  exists record.
  exact (restore_without_key_refuses_encrypted_records
           LocalIpfs.get "cid-0" "out" BackupOptions.none _ w1 backup data
           "a.txt" record Hget Hdata Hrecord Htype eq_refl).
Defined.

(** ** The snapshot walk *)

Lemma node_ind' (P : node -> Prop) :
  (forall content, P (File content)) ->
  (forall entries, Forall (fun entry => P entry.2) entries -> P (Dir entries)) ->
  forall n, P n.
Proof.
  intros HF HD. fix IH 1. intros [content | entries]; [apply HF | apply HD].
  induction entries as [| [name child] rest IHrest]; constructor;
    [apply IH | exact IHrest].
Qed.

Section Walk.
Context {E : Externals} {B : Type}.

Lemma processDirectory_at_Dir (files : list (string * node))
    (dirPath baseDir : string) (backupData : Snapshot) (options : BackupOptions.t) :
  processDirectory_at (B := B) (Dir files) dirPath baseDir backupData options =
    try_catch
      (log_fs (OpReaddir dirPath) ;;;
       walkEntries dirPath baseDir options files backupData)
      (fun error => throw (failed_to_process_directory dirPath error)).
Proof. reflexivity. Qed.

Lemma only_read_refl (w : World B) : only_read w w.
Proof.
  repeat split. exists []. rewrite app_nil_r. split; reflexivity.
Qed.

Lemma only_read_trans (w1 w2 w3 : World B) :
  only_read w1 w2 -> only_read w2 w3 -> only_read w1 w3.
Proof.
  intros (Hf & Hb & Hs & Hc & ops & Hl & Hr)
         (Hf' & Hb' & Hs' & Hc' & ops' & Hl' & Hr').
  repeat split; try congruence.
  exists (ops ++ ops'). rewrite Hl', Hl, <- app_assoc. split; [reflexivity |].
  rewrite forallb_app, Hr, Hr'. reflexivity.
Qed.

Lemma only_read_op (op : FsOp) (w : World B) :
  reads_only op = true -> only_read w (with_fs_op op w).
Proof.
  intros H. repeat split. exists [op]. split; [reflexivity |].
  simpl. rewrite H. reflexivity.
Qed.

Lemma reading_ret {A} (a : A) : reading (B := B) (ret a).
Proof. intros w. apply only_read_refl. Qed.

Lemma reading_throw {A} (e : exn) : reading (B := B) (throw (A := A) e).
Proof. intros w. apply only_read_refl. Qed.

Lemma reading_of_result {A} (r : Result A) : reading (B := B) (of_result r).
Proof. intros w. apply only_read_refl. Qed.

Lemma reading_bind {A C} (c : M B A) (k : A -> M B C) :
  reading c -> (forall a, reading (k a)) -> reading (bind c k).
Proof.
  intros Hc Hk w. unfold bind. specialize (Hc w).
  destruct (c w) as [[a | e] w1]; simpl in *; [| exact Hc].
  eapply only_read_trans; [exact Hc | apply Hk].
Qed.

Lemma reading_try_catch {A} (body : M B A) (handler : exn -> M B A) :
  reading body -> (forall e, reading (handler e)) -> reading (try_catch body handler).
Proof.
  intros Hc Hk w. unfold try_catch. specialize (Hc w).
  destruct (body w) as [[a | e] w1]; simpl in *; [exact Hc |].
  eapply only_read_trans; [exact Hc | apply Hk].
Qed.

Lemma reading_try_finally {A} (body : M B A) (cleanup : M B unit) :
  reading body -> reading cleanup -> reading (try_finally body cleanup).
Proof.
  intros Hc Hk w. unfold try_finally. specialize (Hc w).
  destruct (body w) as [r w1]. specialize (Hk w1).
  destruct (cleanup w1) as [[[] | e] w2]; simpl in *;
    eapply only_read_trans; eassumption.
Qed.

Lemma reading_log_fs (op : FsOp) :
  reads_only op = true -> reading (B := B) (log_fs op).
Proof. intros H w. apply (only_read_op op w H). Qed.

Lemma reading_fs_lookup (syscall path : string) :
  reading (B := B) (fs_lookup syscall path).
Proof.
  intros w. unfold fs_lookup. destruct (Fs.lookup _ _); apply only_read_refl.
Qed.

Lemma reading_next_entropy : reading (B := B) next_entropy.
Proof.
  intros w. repeat split. exists []. rewrite app_nil_r. split; reflexivity.
Qed.

Ltac reading :=
  repeat first
    [ apply reading_bind; [| intros ?]
    | apply reading_try_catch; [| intros ?]
    | apply reading_try_finally
    | apply reading_ret | apply reading_throw | apply reading_of_result
    | apply reading_fs_lookup | apply reading_next_entropy
    | apply reading_log_fs; reflexivity
    | match goal with |- reading (match ?x with _ => _ end) => destruct x end
    | match goal with |- reading (if ?x then _ else _) => destruct x end
    | match goal with |- reading (let '(_, _) := ?x in _) => destruct x end
    | progress cbv zeta ].

Lemma reading_fs_stat (path : string) : reading (B := B) (fs_stat path).
Proof. unfold fs_stat. reading. Qed.

Lemma reading_fs_readFile (path : string) : reading (B := B) (fs_readFile path).
Proof. unfold fs_readFile. reading. Qed.

Lemma reading_fs_createReadStream (path : string) :
  reading (B := B) (fs_createReadStream path).
Proof. unfold fs_createReadStream. reading. Qed.

Lemma reading_fs_readdir (path : string) : reading (B := B) (fs_readdir path).
Proof. unfold fs_readdir. reading. Qed.

Lemma reading_encrypted_record (enc : Encryption.t) (content : Buffer)
    (mimeType : string) :
  reading (B := B) (encrypted_record enc content mimeType).
Proof. unfold encrypted_record, Encryption.encrypt. reading. Qed.

Lemma reading_processSmallFile (fullPath relativePath : string)
    (backupData : Snapshot) (options : BackupOptions.t) :
  reading (B := B) (processSmallFile fullPath relativePath backupData options).
Proof.
  unfold processSmallFile.
  reading; auto using reading_fs_readFile, reading_encrypted_record.
Qed.

Lemma reading_processLargeFile (fullPath relativePath : string)
    (backupData : Snapshot) (options : BackupOptions.t) :
  reading (B := B) (processLargeFile fullPath relativePath backupData options).
Proof.
  unfold processLargeFile, fs_closeStream.
  reading;
    auto using reading_fs_readFile, reading_encrypted_record,
      reading_fs_createReadStream.
Qed.

Lemma reading_processFile (fullPath relativePath : string)
    (backupData : Snapshot) (options : BackupOptions.t) :
  reading (B := B) (processFile fullPath relativePath backupData options).
Proof.
  unfold processFile.
  reading;
    auto using reading_fs_stat, reading_processSmallFile, reading_processLargeFile.
Qed.

Lemma reading_processDirectory_at (dir : node) :
  forall dirPath baseDir backupData options,
    reading (B := B) (processDirectory_at dir dirPath baseDir backupData options).
Proof.
  induction dir as [content | entries IH] using node_ind';
    intros dirPath baseDir backupData options.
  - simpl. reading.
  - rewrite processDirectory_at_Dir.
    apply reading_try_catch; [| intros e; apply reading_throw].
    apply reading_bind; [apply reading_log_fs; reflexivity | intros _].
    revert backupData. induction IH as [| [name child] rest Hchild _ IHrest];
      intros backupData.
    + apply reading_ret.
    + simpl. destruct (excluded options name); [apply IHrest |].
      destruct child as [content | entries'].
      * apply reading_bind; [apply reading_processFile | intros d; apply IHrest].
      * apply reading_bind; [apply Hchild | intros d; apply IHrest].
Qed.

Lemma reading_processDirectory (dirPath baseDir : string)
    (backupData : Snapshot) (options : BackupOptions.t) :
  reading (B := B) (processDirectory dirPath baseDir backupData options).
Proof.
  intros w. unfold processDirectory.
  destruct (Fs.lookup _ _) as [c | dir].
  - apply (only_read_op (OpReaddir dirPath) w). reflexivity.
  - apply reading_processDirectory_at.
Qed.

(** Every exception of the walk carries the path of the directory. *)
Lemma processDirectory_throws_wrapped (dirPath baseDir : string)
    (backupData : Snapshot) (options : BackupOptions.t) (w w' : World B) (e : exn) :
  processDirectory dirPath baseDir backupData options w = (Throw e, w') ->
  exists inner, e = failed_to_process_directory dirPath inner.
Proof.
  unfold processDirectory.
  destruct (Fs.lookup _ _) as [c | [content | entries]].
  - unfold_monad. intros [= <- _]. eauto.
  - simpl. unfold_monad. intros [= <- _]. eauto.
  - rewrite processDirectory_at_Dir. unfold try_catch.
    match goal with |- context [let (_, _) := ?body in _] =>
      destruct body as [[d | inner] w1]
    end; [discriminate |].
    unfold throw. intros [= <- _]. eauto.
Qed.

Lemma walkEntries_excluded (dirPath baseDir : string) (options : BackupOptions.t)
    (pre post : list (string * node)) (name : string) (child : node) :
  excluded options name = true ->
  forall backupData (w : World B),
    walkEntries dirPath baseDir options (pre ++ (name, child) :: post) backupData w
    = walkEntries dirPath baseDir options (pre ++ post) backupData w.
Proof.
  intros Hname. induction pre as [| [n c] pre IH]; intros backupData w.
  - simpl. rewrite Hname. reflexivity.
  - simpl. destruct (excluded options n); [apply IH |].
    destruct c as [content | entries]; unfold bind;
      match goal with |- context [let (_, _) := ?body in _] =>
        destruct body as [[d | e] w1]
      end; try reflexivity; apply IH.
Qed.

Lemma processFile_same_treatment (o1 o2 : BackupOptions.t)
    (fullPath relativePath : string) (backupData : Snapshot) (w : World B) :
  same_treatment o1 o2 ->
  processFile fullPath relativePath backupData o1 w
  = processFile fullPath relativePath backupData o2 w.
Proof.
  intros (_ & Hsize & Henc).
  assert (Hlarge : processLargeFile (B := B) fullPath relativePath backupData o1
                   = processLargeFile fullPath relativePath backupData o2)
    by (unfold processLargeFile; rewrite Henc; reflexivity).
  assert (Hsmall : processSmallFile (B := B) fullPath relativePath backupData o1
                   = processSmallFile fullPath relativePath backupData o2)
    by (unfold processSmallFile; rewrite Henc; reflexivity).
  unfold processFile, bind. rewrite Hlarge, Hsmall.
  destruct (fs_stat fullPath w) as [[stats | e] w1]; [| reflexivity].
  rewrite Hsize. reflexivity.
Qed.

Lemma processDirectory_at_same_treatment (o1 o2 : BackupOptions.t) (dir : node) :
  same_treatment o1 o2 ->
  forall dirPath baseDir backupData (w : World B),
    processDirectory_at dir dirPath baseDir backupData o1 w
    = processDirectory_at dir dirPath baseDir backupData o2 w.
Proof.
  intros Hsame.
  induction dir as [content | entries IH] using node_ind';
    intros dirPath baseDir backupData w.
  - reflexivity.
  - rewrite !processDirectory_at_Dir.
    assert (Hwalk : forall backupData (w : World B),
               walkEntries dirPath baseDir o1 entries backupData w
               = walkEntries dirPath baseDir o2 entries backupData w).
    { clear backupData w.
      induction IH as [| [name child] rest Hchild _ IHrest]; intros backupData w.
      - reflexivity.
      - simpl. rewrite <- (proj1 Hsame name).
        destruct (excluded o1 name); [apply IHrest |].
        destruct child as [content | entries'].
        + unfold bind. rewrite (processFile_same_treatment o1 o2) by exact Hsame.
          destruct (processFile _ _ _ o2 w) as [[d | e] w1];
            [apply IHrest | reflexivity].
        + unfold bind. rewrite Hchild.
          destruct (processDirectory_at _ _ _ _ o2 w) as [[d | e] w1];
            [apply IHrest | reflexivity]. }
    unfold try_catch, bind, log_fs. rewrite Hwalk. reflexivity.
Qed.

Lemma backup_same_treatment
    (uploadJson : UploadData.t -> string -> M B (option UploadOutput.t))
    (o1 o2 : BackupOptions.t) (sourcePath : string) (w : World B) :
  same_treatment o1 o2 ->
  backup uploadJson sourcePath o1 w = backup uploadJson sourcePath o2 w.
Proof.
  intros Hsame. rewrite !backup_run. unfold processDirectory.
  destruct (Fs.lookup _ _) as [c | dir]; [reflexivity |].
  rewrite (processDirectory_at_same_treatment o1 o2) by exact Hsame. reflexivity.
Qed.

End Walk.

(** [IpfsService.uploadJson] leaves the file tree alone. *)
Lemma ipfs_uploadJson_keeps_fs {Remote : Type}
    (sdk_add : Ipfs.Stored -> Remote -> Result string * Remote)
    (jsonData : UploadData.t) (name : string) (w : World (Ipfs.Backend Remote)) :
  fs (Ipfs.uploadJson sdk_add jsonData name w).2 = fs w.
Proof.
  unfold Ipfs.uploadJson, Ipfs.enforceRateLimit, Ipfs.request. unfold_monad. simpl.
  destruct (clock w - Ipfs.lastRequestTime (backend w) <? Ipfs.rateLimitMs); simpl;
    destruct (sdk_add _ _) as [[cid | e] remote']; reflexivity.
Qed.

(** X5.  The snapshot walk only reads: whatever the tree and the
    options, [processDirectory] leaves the file tree, the storage service
    and the clock as they were, makes no call on the storage service, and
    calls nothing of the file system but [readdir], [stat], [readFile],
    [createReadStream] and [close].  So [backup] leaves the file tree
    untouched whenever [uploadJson] of the storage service does. *)
Theorem snapshot_walk_only_reads {E : Externals} {B : Type}
    (uploadJson : UploadData.t -> string -> M B (option UploadOutput.t))
    (dirPath baseDir : string) (backupData : Snapshot)
    (options : BackupOptions.t) (w : World B) :
  only_read w (processDirectory dirPath baseDir backupData options w).2
  /\ ((forall payload name w1, fs (uploadJson payload name w1).2 = fs w1) ->
      fs (backup uploadJson dirPath options w).2 = fs w).
Proof.
  split; [apply reading_processDirectory |].
  intros Hupload. rewrite backup_run.
  pose proof (reading_processDirectory dirPath "" ∅ options w) as Hread.
  destruct (processDirectory dirPath "" ∅ options w) as [[data | e] w1];
    destruct Hread as [Hfs _]; simpl in Hfs; [| exact Hfs].
  cbv zeta.
  match goal with |- context [uploadJson ?p ?n ?w0] =>
    pose proof (Hupload p n w0) as Hw; destruct (uploadJson p n w0) as [[[r |] | e] w2]
  end; simpl in Hw; try (rewrite <- Hfs; exact Hw).
  destruct (truthy_string (UploadOutput.id r)); rewrite <- Hfs; exact Hw.
Qed.

(** X5, on [data/a.txt] and [IpfsService]. *)
Lemma snapshot_walk_only_reads_witness :
  only_read (LocalIpfs.world tree_hello 1000)
            (processDirectory "data" "" ∅ BackupOptions.none
                              (LocalIpfs.world tree_hello 1000)).2
  /\ fs (backup LocalIpfs.uploadJson "data" BackupOptions.none
                (LocalIpfs.world tree_hello 1000)).2 = tree_hello.
Proof.
  destruct (snapshot_walk_only_reads LocalIpfs.uploadJson "data" "" ∅
              BackupOptions.none (LocalIpfs.world tree_hello 1000))
    as [Hread Hfs].
  split; [exact Hread |]. apply Hfs.
  intros payload name w1. apply ipfs_uploadJson_keeps_fs.
Defined.

(** X6.  When [backup] throws, either the walk threw, and then
    the error names the source directory ([Failed to process directory
    ...]) and [backup] stopped there, before any call on the storage
    service; or the snapshot was built and the error is the one
    [uploadJson] threw, or [Storage service did not return a valid hash]. *)
Theorem backup_throws_before_or_at_upload {E : Externals} {B : Type}
    (uploadJson : UploadData.t -> string -> M B (option UploadOutput.t))
    (sourcePath : string) (options : BackupOptions.t) (w w' : World B) (e : exn) :
  backup uploadJson sourcePath options w = (Throw e, w') ->
  (processDirectory sourcePath "" ∅ options w = (Throw e, w')
   /\ (exists inner, e = failed_to_process_directory sourcePath inner)
   /\ storage_calls w' = storage_calls w)
  \/ (exists backupData w1,
        processDirectory sourcePath "" ∅ options w = (Ok backupData, w1)
        /\ ((uploadJson (payload_of backupData (clock w1))
                        (Path.basename sourcePath)
                        (with_call (CallUploadJson (Path.basename sourcePath)) w1)).1
              = Throw e
            \/ e = Error "Storage service did not return a valid hash")).
Proof.
  rewrite backup_run.
  pose proof (reading_processDirectory sourcePath "" ∅ options w) as Hread.
  destruct (processDirectory sourcePath "" ∅ options w) as [[data | e0] w1] eqn:Hwalk.
  - cbv zeta. intros H. right. exists data, w1. split; [reflexivity |].
    destruct (uploadJson _ _ _) as [[[r |] | e1] w2].
    + destruct (truthy_string (UploadOutput.id r)); [discriminate |].
      injection H as <- _. right. reflexivity.
    + injection H as <- _. right. reflexivity.
    + injection H as <- _. left. reflexivity.
  - intros [= <- <-]. left. split; [reflexivity |]. split.
    + eapply processDirectory_throws_wrapped. exact Hwalk.
    + destruct Hread as (_ & _ & Hcalls & _). exact Hcalls.
Qed.

(** [backup] of a directory that does not exist. *)
Lemma backup_of_missing_directory :
  exists w',
    backup LocalIpfs.uploadJson "nowhere" BackupOptions.none
           (LocalIpfs.world tree_hello 1000)
    = (Throw (failed_to_process_directory "nowhere"
                (Fs.error Fs.ENOENT "scandir" "nowhere")), w').
Proof. eexists. vm_compute. reflexivity. Qed.

(** X6, on a source directory that does not exist: the walk
    throws, and nothing is uploaded. *)
Lemma backup_throws_before_or_at_upload_witness :
  exists e w',
    backup LocalIpfs.uploadJson "nowhere" BackupOptions.none
           (LocalIpfs.world tree_hello 1000) = (Throw e, w')
    /\ ((processDirectory "nowhere" "" ∅ BackupOptions.none
                          (LocalIpfs.world tree_hello 1000) = (Throw e, w')
         /\ (exists inner, e = failed_to_process_directory "nowhere" inner)
         /\ storage_calls w' = storage_calls (LocalIpfs.world tree_hello 1000))
        \/ (exists backupData w1,
              processDirectory "nowhere" "" ∅ BackupOptions.none
                               (LocalIpfs.world tree_hello 1000) = (Ok backupData, w1)
              /\ ((LocalIpfs.uploadJson
                     (payload_of backupData (clock w1)) (Path.basename "nowhere")
                     (with_call (CallUploadJson (Path.basename "nowhere")) w1)).1
                    = Throw e
                  \/ e = Error "Storage service did not return a valid hash"))).
Proof.
  destruct backup_of_missing_directory as (w' & Hrun).
  eexists. exists w'. split; [exact Hrun |].
  exact (backup_throws_before_or_at_upload LocalIpfs.uploadJson "nowhere"
           BackupOptions.none _ w' _ Hrun).
Defined.

(** X7.  An entry whose name matches an exclude pattern is
    invisible to the walk: with it or without it in the listing of the
    directory, [processDirectory] returns the same snapshot and leaves the
    same world.  Nothing is called on the entry, and if it is a directory
    nothing below it is visited. *)
Theorem excluded_entry_is_invisible {E : Externals} {B : Type}
    (dirPath baseDir : string) (backupData : Snapshot) (options : BackupOptions.t)
    (pre post : list (string * node)) (name : string) (child : node)
    (w : World B) :
  excluded options name = true ->
  processDirectory_at (Dir (pre ++ (name, child) :: post)) dirPath baseDir
                      backupData options w
  = processDirectory_at (Dir (pre ++ post)) dirPath baseDir backupData options w.
Proof.
  intros Hname. rewrite !processDirectory_at_Dir.
  unfold try_catch, bind, log_fs.
  rewrite walkEntries_excluded by exact Hname. reflexivity.
Qed.

(** X7, on [data] holding [a.txt] and the directory [tmp], with
    the pattern [/tmp/]. *)
Lemma excluded_entry_is_invisible_witness :
  processDirectory_at
    (Dir ([("a.txt", File (Buffer_from "hello"))]
          ++ ("tmp", Dir [("junk.bin", File [x00])]) :: []))
    "data" "" ∅ skip_tmp (LocalIpfs.world tree_with_tmp 1000)
  = processDirectory_at
      (Dir ([("a.txt", File (Buffer_from "hello"))] ++ []))
      "data" "" ∅ skip_tmp (LocalIpfs.world tree_with_tmp 1000).
Proof.
  apply (excluded_entry_is_invisible "data" "" ∅ skip_tmp
           [("a.txt", File (Buffer_from "hello"))] []
           "tmp" (Dir [("junk.bin", File [x00])])
           (LocalIpfs.world tree_with_tmp 1000)).
  reflexivity.
Defined.

(** X8.  A file larger than a non-zero [maxFileSize] is left out of
    the snapshot after the one [stat]: it is never read.  A [maxFileSize]
    of [0] is no limit at all: [backup] runs as if none were given. *)
Theorem oversized_file_is_skipped_unread {E : Externals} {B : Type} :
  (forall (fullPath relativePath : string) (backupData : Snapshot)
          (options : BackupOptions.t) (w : World B) (content : Buffer) (limit : Z),
      Fs.lookup (Fs.segments fullPath) (fs w) = inr (File content) ->
      BackupOptions.maxFileSize options = Some limit ->
      limit <> 0 ->
      limit < Z.of_nat (List.length content) ->
      processFile fullPath relativePath backupData options w
      = (Ok backupData, with_fs_op (OpStat fullPath) w))
  /\ (forall (uploadJson : UploadData.t -> string -> M B (option UploadOutput.t))
             (sourcePath : string) excludePatterns encryption (w : World B),
        backup uploadJson sourcePath
               (BackupOptions.make excludePatterns (Some 0) encryption) w
        = backup uploadJson sourcePath
                 (BackupOptions.make excludePatterns None encryption) w).
Proof.
  split.
  - intros fullPath relativePath backupData options w content limit
           Hfile Hlimit Hnonzero Hsize.
    unfold processFile. unfold bind at 1. rewrite fs_stat_run, Hfile.
    unfold oversized. rewrite Hlimit. simpl.
    destruct (Z.eqb_spec limit 0) as [-> | _]; [contradiction |].
    destruct (Z.gtb_spec (Z.of_nat (List.length content)) limit); [| lia].
    reflexivity.
  - intros uploadJson sourcePath excludePatterns encryption w.
    apply backup_same_treatment. repeat split.
Qed.

(** X8, on [data/a.txt] (five bytes) with [maxFileSize: 4]. *)
Lemma oversized_file_is_skipped_unread_witness :
  processFile "data/a.txt" "a.txt" ∅ at_most_four_bytes
              (LocalIpfs.world tree_hello 1000)
  = (Ok ∅, with_fs_op (OpStat "data/a.txt") (LocalIpfs.world tree_hello 1000)).
Proof.
  apply (proj1 oversized_file_is_skipped_unread "data/a.txt" "a.txt" ∅
           at_most_four_bytes (LocalIpfs.world tree_hello 1000)
           (Buffer_from "hello") 4);
    [reflexivity | reflexivity | discriminate | reflexivity].
Defined.

(** X9.  Encryption options that are not enabled, or whose key
    is the empty string, are no encryption options: [backup] stores every
    file in the clear, exactly as without them, and [restore] decrypts
    nothing. *)
Theorem unusable_key_means_no_encryption {E : Externals} {B : Type}
    (uploadJson : UploadData.t -> string -> M B (option UploadOutput.t))
    (get_ : string -> M B (option BackupData.t))
    (sourcePath hash targetPath : string)
    excludePatterns maxFileSize (enabled : bool) (key : string)
    (algorithm : option string) (w : World B) :
  enabled = false \/ key = "" ->
  backup uploadJson sourcePath
         (BackupOptions.make excludePatterns maxFileSize
            (Some (EncryptionOptions.make enabled key algorithm))) w
  = backup uploadJson sourcePath
           (BackupOptions.make excludePatterns maxFileSize None) w
  /\ restore get_ hash targetPath
             (BackupOptions.make excludePatterns maxFileSize
                (Some (EncryptionOptions.make enabled key algorithm))) w
     = restore get_ hash targetPath
               (BackupOptions.make excludePatterns maxFileSize None) w.
Proof.
  intros Hkey.
  assert (Hnone : encryption_of
                    (BackupOptions.make excludePatterns maxFileSize
                       (Some (EncryptionOptions.make enabled key algorithm)))
                  = None).
  { unfold encryption_of. simpl.
    destruct Hkey as [-> | ->]; [reflexivity | rewrite andb_false_r; reflexivity]. }
  split.
  - apply backup_same_treatment. repeat split. exact Hnone.
  - rewrite !restore_run. rewrite Hnone. reflexivity.
Qed.

(** X9, on [data/a.txt] with encryption enabled and an empty
    key. *)
Lemma unusable_key_means_no_encryption_witness :
  backup LocalIpfs.uploadJson "data" gcm_options_empty_key
         (LocalIpfs.world tree_hello 1000)
  = backup LocalIpfs.uploadJson "data" BackupOptions.none
           (LocalIpfs.world tree_hello 1000)
  /\ restore LocalIpfs.get "cid-0" "out" gcm_options_empty_key
             (LocalIpfs.world tree_hello 1000)
     = restore LocalIpfs.get "cid-0" "out" BackupOptions.none
               (LocalIpfs.world tree_hello 1000).
Proof.
  apply (unusable_key_means_no_encryption LocalIpfs.uploadJson LocalIpfs.get
           "data" "cid-0" "out" None None true "" (Some "aes-256-gcm")
           (LocalIpfs.world tree_hello 1000)).
  right. reflexivity.
Defined.

(** ** [compareDetailed]: what is compared with what *)

#[local] Set Warnings "-clear-no-such-hyp".


Section Kinds.






End Kinds.




Section LocalData.
Context {E : Externals} {B : Type}.



Variable get_ : string -> M B (option BackupData.t).


End LocalData.





(** ** The storage services *)

Section PinataRuns.
Context {Remote Response : Type}.
Variable sdk_gateways_get : string -> Remote -> Result (option Response) * Remote.
Variable sdk_unpin : list string -> Remote -> Result unit * Remote.

Lemma rate_limited_clock (w : World (Pinata.Backend Remote)) :
  clock (rate_limited w)
  = Z.max (clock w) (Pinata.lastRequestTime (backend w) + Pinata.rateLimitMs).
Proof.
  unfold rate_limited. simpl.
  destruct (Z.ltb_spec (clock w - Pinata.lastRequestTime (backend w)) Pinata.rateLimitMs);
    lia.
Qed.

Lemma request_run {A} (r : Pinata.Request) (answer : Remote -> Result A * Remote)
    (w : World (Pinata.Backend Remote)) :
  Pinata.request r answer w
  = ((answer (Pinata.remote (backend w))).1,
     answered w r (answer (Pinata.remote (backend w))).2).
Proof.
  unfold Pinata.request, answered. unfold_monad. simpl.
  destruct (answer (Pinata.remote (backend w))) as [[a | e] remote']; reflexivity.
Qed.

(** [isPinned] on a well-formed CID: the wait, one request, and the answer
    read. *)
Lemma isPinned_full_run (hash : string) (w : World (Pinata.Backend Remote)) :
  Pinata.invalid_cid hash = false ->
  Pinata.isPinned sdk_gateways_get hash w =
    let answer := sdk_gateways_get hash (Pinata.remote (backend w)) in
    let w1 := answered (rate_limited w) (Pinata.GatewaysGet hash) answer.2 in
    match answer.1 with
    | Ok response => (Ok (bool_decide (is_Some response)), w1)
    | Throw e =>
        if is_not_found e then (Ok false, w1)
        else if is_auth_failure e then (Throw Pinata.authError, w1)
        else (Ok false, w1)
    end.
Proof.
  intros H. unfold Pinata.isPinned.
  unfold try_catch at 1. rewrite H.
  unfold try_catch, bind at 1. rewrite enforceRateLimit_run.
  unfold bind. rewrite request_run. cbv zeta.
  change (Pinata.remote (backend (rate_limited w))) with (Pinata.remote (backend w)).
  destruct (sdk_gateways_get hash (Pinata.remote (backend w))) as [[r | e] remote'];
    simpl; [reflexivity |].
  unfold is_not_found, is_auth_failure.
  destruct (message_includes "NOT_FOUND" e || message_includes "url does not contain CID" e);
    simpl; [reflexivity |].
  destruct (message_includes "INVALID_CREDENTIALS" e); reflexivity.
Qed.

Lemma isPinned_throws_authError (hash : string) (w w1 : World (Pinata.Backend Remote))
    (e : exn) :
  Pinata.isPinned sdk_gateways_get hash w = (Throw e, w1) -> e = Pinata.authError.
Proof.
  unfold Pinata.isPinned. unfold try_catch at 1.
  match goal with |- context [let (_, _) := ?body in _] =>
    destruct body as [[b | e'] w']
  end; [discriminate |].
  destruct (message_includes "INVALID_CREDENTIALS" e'); [| discriminate].
  unfold throw. intros [= <- _]. reflexivity.
Qed.

Lemma unpin_run (hash : string) (w : World (Pinata.Backend Remote)) :
  Pinata.invalid_cid hash = false ->
  Pinata.unpin sdk_gateways_get sdk_unpin hash w =
    match Pinata.isPinned sdk_gateways_get hash w with
    | (Ok false, w1) => (Ok false, w1)
    | (Throw e, w1) => (Throw Pinata.authError, w1)
    | (Ok true, w1) =>
        let answer := sdk_unpin [hash] (Pinata.remote (backend w1)) in
        let w2 := answered (rate_limited w1) (Pinata.Unpin [hash]) answer.2 in
        match answer.1 with
        | Ok _ => (Ok true, w2)
        | Throw e =>
            if message_includes "is not pinned" e || is_not_found e
            then (Ok false, w2)
            else if is_auth_failure e then (Throw Pinata.authError, w2)
            else (Throw e, w2)
        end
    end.
Proof.
  intros Hvalid. unfold Pinata.unpin. unfold try_catch at 1. rewrite Hvalid.
  unfold bind at 1.
  destruct (Pinata.isPinned sdk_gateways_get hash w) as [[[] | e] w1] eqn:Hpinned.
  - simpl. unfold bind at 1. rewrite enforceRateLimit_run.
    unfold bind. rewrite request_run. cbv zeta.
    change (Pinata.remote (backend (rate_limited w1))) with (Pinata.remote (backend w1)).
    destruct (sdk_unpin [hash] (Pinata.remote (backend w1))) as [[[] | e] remote'];
      simpl; [reflexivity |].
    unfold is_not_found, is_auth_failure. rewrite orb_assoc.
    destruct (message_includes "is not pinned" e || message_includes "NOT_FOUND" e
              || message_includes "url does not contain CID" e); simpl; [reflexivity |].
    destruct (message_includes "INVALID_CREDENTIALS" e); reflexivity.
  - reflexivity.
  - apply isPinned_throws_authError in Hpinned. subst e. reflexivity.
Qed.

End PinataRuns.

Section IpfsRuns.
Context {Remote : Type}.
Variable sdk_add : Ipfs.Stored -> Remote -> Result string * Remote.
Variable sdk_cat : string -> Remote -> Result Ipfs.Stored * Remote.
Variable sdk_pin_ls : string -> Remote -> Result (list string) * Remote.
Variable sdk_pin_rm : string -> Remote -> Result unit * Remote.

Lemma ipfs_enforceRateLimit_run (w : World (Ipfs.Backend Remote)) :
  Ipfs.enforceRateLimit w = (Ok tt, ipfs_rate_limited w).
Proof.
  unfold Ipfs.enforceRateLimit, ipfs_rate_limited. unfold_monad. simpl.
  destruct (Z.ltb_spec (clock w - Ipfs.lastRequestTime (backend w)) Ipfs.rateLimitMs)
    as [Hlt | Hge]; simpl.
  - rewrite Z.max_r by lia.
    replace (clock w + (Ipfs.rateLimitMs - (clock w - Ipfs.lastRequestTime (backend w))))
      with (Ipfs.lastRequestTime (backend w) + Ipfs.rateLimitMs) by lia.
    reflexivity.
  - rewrite Z.max_l by lia. reflexivity.
Qed.

Lemma ipfs_request_run {A} (r : Ipfs.Request) (answer : Remote -> Result A * Remote)
    (w : World (Ipfs.Backend Remote)) :
  Ipfs.request r answer w
  = ((answer (Ipfs.remote (backend w))).1,
     ipfs_answered w r (answer (Ipfs.remote (backend w))).2).
Proof.
  unfold Ipfs.request, ipfs_answered. unfold_monad. simpl.
  destruct (answer (Ipfs.remote (backend w))) as [[a | e] remote']; reflexivity.
Qed.

Lemma ipfs_isPinned_run (hash : string) (w : World (Ipfs.Backend Remote)) :
  hash <> "" ->
  Ipfs.isPinned sdk_pin_ls hash w =
    let answer := sdk_pin_ls hash (Ipfs.remote (backend w)) in
    (Ok match answer.1 with
        | Ok pins => existsb (String.eqb hash) pins
        | Throw _ => false
        end,
     ipfs_answered (ipfs_rate_limited w) (Ipfs.PinLs hash) answer.2).
Proof.
  intros Hhash. unfold Ipfs.isPinned, try_catch.
  destruct hash as [| c s]; [congruence |]. cbn [truthy_string negb].
  unfold bind at 1. rewrite ipfs_enforceRateLimit_run.
  unfold bind. rewrite ipfs_request_run. cbv zeta.
  change (Ipfs.remote (backend (ipfs_rate_limited w))) with (Ipfs.remote (backend w)).
  destruct (sdk_pin_ls _ (Ipfs.remote (backend w))) as [[pins | e] remote'];
    reflexivity.
Qed.

Lemma ipfs_unpin_run (hash : string) (w : World (Ipfs.Backend Remote)) :
  hash <> "" ->
  Ipfs.unpin sdk_pin_ls sdk_pin_rm hash w =
    match Ipfs.isPinned sdk_pin_ls hash w with
    | (Ok true, w1) =>
        let answer := sdk_pin_rm hash (Ipfs.remote (backend w1)) in
        (Ok match answer.1 with Ok _ => true | Throw _ => false end,
         ipfs_answered (ipfs_rate_limited w1) (Ipfs.PinRm hash) answer.2)
    | (_, w1) => (Ok false, w1)
    end.
Proof.
  intros Hhash. unfold Ipfs.unpin, try_catch.
  destruct hash as [| c s]; [congruence |]. cbn [truthy_string negb].
  unfold bind at 1.
  destruct (Ipfs.isPinned sdk_pin_ls (String c s) w) as [[[] | e] w1];
    try reflexivity.
  simpl. unfold bind at 1. rewrite ipfs_enforceRateLimit_run.
  unfold bind. rewrite ipfs_request_run. cbv zeta.
  change (Ipfs.remote (backend (ipfs_rate_limited w1))) with (Ipfs.remote (backend w1)).
  destruct (sdk_pin_rm _ (Ipfs.remote (backend w1))) as [[[] | e] remote'];
    reflexivity.
Qed.

Lemma ipfs_uploadJson_run (jsonData : UploadData.t) (options : string)
    (w : World (Ipfs.Backend Remote)) :
  Ipfs.uploadJson sdk_add jsonData options w =
    let content :=
      Ipfs.Json {| BackupData.data := Some (UploadData.data jsonData);
                   BackupData.metadata := Some (UploadData.metadata jsonData) |} in
    let answer := sdk_add content (Ipfs.remote (backend w)) in
    (match answer.1 with
     | Ok cid => Ok (Some {| UploadOutput.id := cid |})
     | Throw e => Throw e
     end,
     ipfs_answered (ipfs_rate_limited w) Ipfs.Add answer.2).
Proof.
  unfold Ipfs.uploadJson, try_catch.
  unfold bind at 1. rewrite ipfs_enforceRateLimit_run.
  unfold bind. rewrite ipfs_request_run. cbv zeta.
  change (Ipfs.remote (backend (ipfs_rate_limited w))) with (Ipfs.remote (backend w)).
  destruct (sdk_add _ (Ipfs.remote (backend w))) as [[cid | e] remote'];
    reflexivity.
Qed.

Lemma ipfs_get_run (hash : string) (w : World (Ipfs.Backend Remote)) :
  hash <> "" ->
  Ipfs.get sdk_cat hash w =
    let answer := sdk_cat hash (Ipfs.remote (backend w)) in
    (match answer.1 with
     | Ok (Ipfs.Json parsedData) =>
         match BackupData.data parsedData, BackupData.metadata parsedData with
         | Some _, Some _ => Ok (Some parsedData)
         | _, _ => Throw (Error "Invalid backup data structure")
         end
     | Ok Ipfs.NotJson => Throw (Error "Invalid data format: cannot parse JSON")
     | Throw e => Throw e
     end,
     ipfs_answered (ipfs_rate_limited w) (Ipfs.Cat hash) answer.2).
Proof.
  intros Hhash. unfold Ipfs.get, try_catch.
  destruct hash as [| c s]; [congruence |]. cbn [truthy_string negb].
  unfold bind at 1. rewrite ipfs_enforceRateLimit_run.
  unfold bind. rewrite ipfs_request_run. cbv zeta.
  change (Ipfs.remote (backend (ipfs_rate_limited w))) with (Ipfs.remote (backend w)).
  destruct (sdk_cat _ (Ipfs.remote (backend w))) as [[[| parsedData] | e] remote'];
    try reflexivity.
  simpl. destruct (BackupData.data parsedData), (BackupData.metadata parsedData);
    reflexivity.
Qed.

End IpfsRuns.
(** X12.  Every request of a storage service is stamped at least
    [rateLimitMs] after the stamp of the one before it: a method that sends
    a request first waits until [lastRequestTime + rateLimitMs] (500 ms for
    [PinataService], 200 ms for [IpfsService]) if the clock is not there
    yet, stamps the request with the time it then is, and sends exactly
    one request. *)
Theorem requests_keep_their_distance :
  (forall (Remote Response : Type)
          (sdk_gateways_get : string -> Remote -> Result (option Response) * Remote)
          (hash : string) (w : World (Pinata.Backend Remote)),
      Pinata.invalid_cid hash = false ->
      Pinata.requests (backend (Pinata.isPinned sdk_gateways_get hash w).2)
        = Pinata.requests (backend w) ++ [Pinata.GatewaysGet hash]
      /\ Pinata.lastRequestTime (backend (Pinata.isPinned sdk_gateways_get hash w).2)
         = Z.max (clock w) (Pinata.lastRequestTime (backend w) + 500)
      /\ clock (Pinata.isPinned sdk_gateways_get hash w).2
         = Z.max (clock w) (Pinata.lastRequestTime (backend w) + 500))
  /\ (forall (Remote : Type)
             (sdk_add : Ipfs.Stored -> Remote -> Result string * Remote)
             (sdk_cat : string -> Remote -> Result Ipfs.Stored * Remote)
             (sdk_pin_ls : string -> Remote -> Result (list string) * Remote)
             (jsonData : UploadData.t) (options hash : string)
             (w : World (Ipfs.Backend Remote)),
        hash <> "" ->
        let stamp := Z.max (clock w) (Ipfs.lastRequestTime (backend w) + 200) in
        (Ipfs.requests (backend (Ipfs.isPinned sdk_pin_ls hash w).2)
           = Ipfs.requests (backend w) ++ [Ipfs.PinLs hash]
         /\ Ipfs.lastRequestTime (backend (Ipfs.isPinned sdk_pin_ls hash w).2) = stamp
         /\ clock (Ipfs.isPinned sdk_pin_ls hash w).2 = stamp)
        /\ (Ipfs.requests (backend (Ipfs.get sdk_cat hash w).2)
              = Ipfs.requests (backend w) ++ [Ipfs.Cat hash]
            /\ Ipfs.lastRequestTime (backend (Ipfs.get sdk_cat hash w).2) = stamp
            /\ clock (Ipfs.get sdk_cat hash w).2 = stamp)
        /\ (Ipfs.requests (backend (Ipfs.uploadJson sdk_add jsonData options w).2)
              = Ipfs.requests (backend w) ++ [Ipfs.Add]
            /\ Ipfs.lastRequestTime
                 (backend (Ipfs.uploadJson sdk_add jsonData options w).2) = stamp
            /\ clock (Ipfs.uploadJson sdk_add jsonData options w).2 = stamp)).
Proof.
  split.
  - intros Remote Response sdk_gateways_get hash w Hvalid.
    rewrite isPinned_full_run by exact Hvalid. cbv zeta.
    pose proof (rate_limited_clock w) as Hclock.
    assert (Hstamp : Pinata.lastRequestTime (backend (rate_limited w))
                     = clock (rate_limited w)) by reflexivity.
    change Pinata.rateLimitMs with 500 in Hclock.
    destruct (sdk_gateways_get hash (Pinata.remote (backend w))) as [[r | e] remote'];
      simpl.
    + rewrite <- Hclock. repeat split.
    + rewrite <- Hclock.
      destruct (is_not_found e); [repeat split |].
      destruct (is_auth_failure e); repeat split.
  - intros Remote sdk_add sdk_cat sdk_pin_ls jsonData options hash w Hhash stamp.
    rewrite ipfs_isPinned_run, ipfs_get_run, ipfs_uploadJson_run by exact Hhash.
    repeat split.
Qed.

(** X12, on a fresh [PinataService] and a fresh [IpfsService] at
    time 1000: nothing was sent before, so the requests are stamped 1000. *)
Lemma requests_keep_their_distance_witness :
  (Pinata.requests (backend (Pinata.isPinned pinned_get sample_cid (pinata_world 1000)).2)
     = Pinata.requests (backend (pinata_world 1000)) ++ [Pinata.GatewaysGet sample_cid]
   /\ Pinata.lastRequestTime
        (backend (Pinata.isPinned pinned_get sample_cid (pinata_world 1000)).2)
      = Z.max (clock (pinata_world 1000))
              (Pinata.lastRequestTime (backend (pinata_world 1000)) + 500)
   /\ clock (Pinata.isPinned pinned_get sample_cid (pinata_world 1000)).2
      = Z.max (clock (pinata_world 1000))
              (Pinata.lastRequestTime (backend (pinata_world 1000)) + 500))
  /\ Ipfs.lastRequestTime (backend (LocalIpfs.isPinned "cid-0" unpinned_world).2)
     = Z.max (clock unpinned_world)
             (Ipfs.lastRequestTime (backend unpinned_world) + 200).
Proof.
  split.
  - apply (proj1 requests_keep_their_distance unit unit pinned_get sample_cid
             (pinata_world 1000)).
    reflexivity.
  - apply (proj2 requests_keep_their_distance LocalNode.t LocalNode.add LocalNode.cat
             LocalNode.pin_ls sample_payload "sample" "cid-0" unpinned_world).
    discriminate.
Defined.

(** X13.  [PinataService.unpin] on a well-formed CID asks
    [isPinned] first.  If that answers [false], [unpin] returns [false] in
    the world the check left: no unpin request is sent.  If it throws,
    which it does with the authentication error only, [unpin] throws that
    error.  If it answers [true], [unpin] sends one unpin request and
    returns [true] when it succeeds; a failure whose message says the CID
    is not pinned or not found becomes [false], one that names rejected
    credentials becomes the authentication error, and any other is thrown
    on unchanged. *)
Theorem unpin_asks_isPinned_first {Remote Response : Type}
    (sdk_gateways_get : string -> Remote -> Result (option Response) * Remote)
    (sdk_unpin : list string -> Remote -> Result unit * Remote)
    (hash : string) (w : World (Pinata.Backend Remote)) :
  Pinata.invalid_cid hash = false ->
  (forall w1,
      Pinata.isPinned sdk_gateways_get hash w = (Ok false, w1) ->
      Pinata.unpin sdk_gateways_get sdk_unpin hash w = (Ok false, w1))
  /\ (forall e w1,
        Pinata.isPinned sdk_gateways_get hash w = (Throw e, w1) ->
        e = Pinata.authError
        /\ Pinata.unpin sdk_gateways_get sdk_unpin hash w = (Throw Pinata.authError, w1))
  /\ (forall w1,
        Pinata.isPinned sdk_gateways_get hash w = (Ok true, w1) ->
        Pinata.requests (backend (Pinata.unpin sdk_gateways_get sdk_unpin hash w).2)
          = Pinata.requests (backend w1) ++ [Pinata.Unpin [hash]]
        /\ (Pinata.unpin sdk_gateways_get sdk_unpin hash w).1
           = match (sdk_unpin [hash] (Pinata.remote (backend w1))).1 with
             | Ok _ => Ok true
             | Throw e =>
                 if message_includes "is not pinned" e || is_not_found e
                 then Ok false
                 else if is_auth_failure e then Throw Pinata.authError
                 else Throw e
             end).
Proof.
  intros Hvalid. rewrite unpin_run by exact Hvalid. split; [| split].
  - intros w1 ->. reflexivity.
  - intros e w1 H. rewrite H. split; [| reflexivity].
    eapply isPinned_throws_authError. exact H.
  - intros w1 ->. cbv zeta.
    destruct (sdk_unpin [hash] (Pinata.remote (backend w1))) as [[[] | e] remote'];
      simpl; [split; reflexivity |].
    destruct (message_includes "is not pinned" e || is_not_found e);
      [split; reflexivity |].
    destruct (is_auth_failure e); split; reflexivity.
Qed.

(** What [isPinned] answers on an account where every CID is pinned. *)
Lemma sample_cid_is_pinned :
  Pinata.isPinned pinned_get sample_cid (pinata_world 1000)
  = (Ok true, (Pinata.isPinned pinned_get sample_cid (pinata_world 1000)).2).
Proof. vm_compute. reflexivity. Qed.

(** X13, on an account where every CID is pinned and the token is
    rejected when unpinning: [unpin] throws the authentication error. *)
Lemma unpin_asks_isPinned_first_witness :
  Pinata.requests
    (backend (Pinata.unpin pinned_get rejected_unpin sample_cid (pinata_world 1000)).2)
    = Pinata.requests
        (backend (Pinata.isPinned pinned_get sample_cid (pinata_world 1000)).2)
      ++ [Pinata.Unpin [sample_cid]]
  /\ (Pinata.unpin pinned_get rejected_unpin sample_cid (pinata_world 1000)).1
     = match (rejected_unpin [sample_cid]
                (Pinata.remote
                   (backend
                      (Pinata.isPinned pinned_get sample_cid (pinata_world 1000)).2))).1
       with
       | Ok _ => Ok true
       | Throw e =>
           if message_includes "is not pinned" e || is_not_found e
           then Ok false
           else if is_auth_failure e then Throw Pinata.authError
           else Throw e
       end.
Proof.
  apply (proj2 (proj2 (unpin_asks_isPinned_first pinned_get rejected_unpin sample_cid
                         (pinata_world 1000) eq_refl))).
  exact sample_cid_is_pinned.
Defined.

(** X14.  [IpfsService.isPinned] and [IpfsService.unpin] never
    throw.  [isPinned] is [true] exactly when the hash is not empty, the
    [pin.ls] request succeeds and the hash is among the pins it lists;
    [unpin] is [true] exactly when [isPinned] was and the [pin.rm] request
    succeeded.  Every failure of the node, whatever its message, is
    [false]; on the empty hash both return [false] without a request or a
    wait. *)
Theorem ipfs_pin_methods_never_throw {Remote : Type}
    (sdk_pin_ls : string -> Remote -> Result (list string) * Remote)
    (sdk_pin_rm : string -> Remote -> Result unit * Remote)
    (hash : string) (w : World (Ipfs.Backend Remote)) :
  (Ipfs.isPinned sdk_pin_ls hash w).1
    = Ok (truthy_string hash
          && match (sdk_pin_ls hash (Ipfs.remote (backend w))).1 with
             | Ok pins => existsb (String.eqb hash) pins
             | Throw _ => false
             end)
  /\ (Ipfs.unpin sdk_pin_ls sdk_pin_rm hash w).1
     = Ok match Ipfs.isPinned sdk_pin_ls hash w with
          | (Ok true, w1) =>
              match (sdk_pin_rm hash (Ipfs.remote (backend w1))).1 with
              | Ok _ => true
              | Throw _ => false
              end
          | _ => false
          end
  /\ Ipfs.isPinned sdk_pin_ls "" w = (Ok false, w)
  /\ Ipfs.unpin sdk_pin_ls sdk_pin_rm "" w = (Ok false, w).
Proof.
  split; [| split; [| split; reflexivity]].
  - destruct hash as [| c s]; [reflexivity |].
    rewrite ipfs_isPinned_run by discriminate. reflexivity.
  - destruct hash as [| c s]; [reflexivity |].
    rewrite ipfs_unpin_run by discriminate.
    destruct (Ipfs.isPinned sdk_pin_ls (String c s) w) as [[[] | e] w1]; reflexivity.
Qed.

(** X15.  What [IpfsService.uploadJson] files, [get]
    returns: on a node where [cat] of the id that [add] answered gives back
    the content added, [uploadJson] returns that id, and [get] of it, by
    the service and by the adapter, returns the uploaded [data] and
    [metadata]. *)
Theorem ipfs_get_returns_what_uploadJson_stored {Remote : Type}
    (sdk_add : Ipfs.Stored -> Remote -> Result string * Remote)
    (sdk_cat : string -> Remote -> Result Ipfs.Stored * Remote)
    (jsonData : UploadData.t) (options : string)
    (w : World (Ipfs.Backend Remote)) (cid : string) (remote1 remote2 : Remote) :
  sdk_add (Ipfs.Json (stored_payload jsonData)) (Ipfs.remote (backend w))
    = (Ok cid, remote1) ->
  cid <> "" ->
  sdk_cat cid remote1 = (Ok (Ipfs.Json (stored_payload jsonData)), remote2) ->
  (Ipfs.uploadJson sdk_add jsonData options w).1
    = Ok (Some {| UploadOutput.id := cid |})
  /\ (Ipfs.get sdk_cat cid (Ipfs.uploadJson sdk_add jsonData options w).2).1
     = Ok (Some (stored_payload jsonData))
  /\ (get (Ipfs.get sdk_cat) cid (Ipfs.uploadJson sdk_add jsonData options w).2).1
     = Ok (stored_payload jsonData).
Proof.
  intros Hadd Hcid Hcat.
  assert (Hget : (Ipfs.get sdk_cat cid
                    (Ipfs.uploadJson sdk_add jsonData options w).2).1
                 = Ok (Some (stored_payload jsonData))).
  { rewrite ipfs_uploadJson_run. cbv zeta.
    change ({| BackupData.data := Some (UploadData.data jsonData);
               BackupData.metadata := Some (UploadData.metadata jsonData) |})
      with (stored_payload jsonData).
    rewrite Hadd. rewrite ipfs_get_run by exact Hcid. simpl. rewrite Hcat.
    reflexivity. }
  split; [| split; [exact Hget |]].
  - rewrite ipfs_uploadJson_run. cbv zeta.
    change ({| BackupData.data := Some (UploadData.data jsonData);
               BackupData.metadata := Some (UploadData.metadata jsonData) |})
      with (stored_payload jsonData).
    rewrite Hadd. reflexivity.
  - unfold get, bind, log_call.
    match goal with |- context [Ipfs.get sdk_cat cid ?w0] =>
      assert (Hsame : (Ipfs.get sdk_cat cid w0).1
                      = (Ipfs.get sdk_cat cid
                           (Ipfs.uploadJson sdk_add jsonData options w).2).1)
        by (rewrite !ipfs_get_run by exact Hcid; reflexivity);
      destruct (Ipfs.get sdk_cat cid w0) as [[[r |] | e] w1]
    end; simpl in Hsame; rewrite Hget in Hsame; inversion Hsame. reflexivity.
Qed.

(** X15, on the stand-in node. *)
Lemma ipfs_get_returns_what_uploadJson_stored_witness :
  (LocalIpfs.uploadJson sample_payload "sample" unpinned_world).1
    = Ok (Some {| UploadOutput.id := "cid-0" |})
  /\ (LocalIpfs.get "cid-0"
        (LocalIpfs.uploadJson sample_payload "sample" unpinned_world).2).1
     = Ok (Some (stored_payload sample_payload))
  /\ (get LocalIpfs.get "cid-0"
          (LocalIpfs.uploadJson sample_payload "sample" unpinned_world).2).1
     = Ok (stored_payload sample_payload).
Proof.
  apply (ipfs_get_returns_what_uploadJson_stored LocalNode.add LocalNode.cat
           sample_payload "sample" unpinned_world "cid-0"
           (LocalNode.add (Ipfs.Json (stored_payload sample_payload))
                          LocalNode.empty).2
           (LocalNode.add (Ipfs.Json (stored_payload sample_payload))
                          LocalNode.empty).2);
    [reflexivity | discriminate | reflexivity].
Defined.

(** ** [compare] reads what [backup] reads *)

Lemma chars_append (a b : string) : chars (a +:+ b) = chars a ++ chars b.
Proof.
  induction a as [| c a IH]; [reflexivity |].
  simpl. unfold chars in *. simpl. rewrite IH. reflexivity.
Qed.

Lemma unchars_chars (s : string) : unchars (chars s) = s.
Proof. apply string_of_list_ascii_of_string. Qed.

Section Names.
Variable name : string.
Hypothesis Hname : proper_name name = true.

Lemma name_not_empty : chars name <> [].
Proof.
  unfold proper_name in Hname. destruct name; [discriminate | discriminate].
Qed.

Lemma name_no_slash : forallb (fun c => negb (Path.is_slash c)) (chars name) = true.
Proof.
  unfold proper_name in Hname. apply andb_prop in Hname as [_ H]. exact H.
Qed.

Lemma name_is_kept :
  (name =? "")%string || (name =? ".")%string = false
  /\ (name =? "..")%string = false.
Proof.
  unfold proper_name in Hname.
  apply andb_prop in Hname as [H _]. apply andb_prop in H as [H H2].
  apply andb_prop in H as [H0 H1].
  destruct (name =? "")%string, (name =? ".")%string, (name =? "..")%string;
    try discriminate; split; reflexivity.
Qed.

Lemma split_from_name (cur : list ascii) :
  Path.split_from cur (chars name) = [unchars (rev cur ++ chars name)].
Proof.
  pose proof name_no_slash as H. revert cur.
  induction (chars name) as [| c cs IH]; intros cur.
  - simpl. rewrite app_nil_r. reflexivity.
  - simpl in H. apply andb_prop in H as [Hc Hcs]. simpl.
    destruct (Path.is_slash c); [discriminate |].
    rewrite (IH Hcs). simpl. rewrite <- app_assoc. reflexivity.
Qed.

Lemma split_from_ends_in (p : list ascii) :
  ends_in (chars name) p ->
  forall cur, cur = [] \/ p <> chars name ->
  exists segs, Path.split_from cur p = segs ++ [name].
Proof.
  intros [-> | [q ->]] cur Hcur.
  - destruct Hcur as [-> | Hne]; [| contradiction].
    exists []. rewrite split_from_name. simpl. rewrite unchars_chars. reflexivity.
  - clear Hcur. revert cur. induction q as [| c q IH]; intros cur.
    + simpl. change (Path.is_slash Path.slash) with true. cbv iota.
      exists [unchars (rev cur)]. rewrite split_from_name. simpl.
      rewrite unchars_chars. reflexivity.
    + simpl. destruct (Path.is_slash c).
      * destruct (IH []) as [segs ->]. exists (unchars (rev cur) :: segs). reflexivity.
      * apply IH.
Qed.

Lemma normalize_segments_ends_in (allow : bool) (segs acc : list string) :
  exists kept, Path.normalize_segments allow acc (segs ++ [name]) = kept ++ [name].
Proof.
  destruct name_is_kept as [H1 H2].
  revert acc. induction segs as [| seg segs IH]; intros acc.
  - simpl. rewrite H1, H2. exists (rev acc). reflexivity.
  - simpl. destruct ((seg =? "")%string || (seg =? ".")%string); [apply IH |].
    destruct (seg =? "..")%string; [| apply IH].
    destruct acc as [| last acc']; [apply IH |].
    destruct (last =? "..")%string; apply IH.
Qed.

Lemma concat_ends_in (kept : list string) :
  ends_in (chars name) (chars (String.concat "/" (kept ++ [name]))).
Proof.
  induction kept as [| seg kept IH].
  - left. reflexivity.
  - right. simpl.
    destruct (kept ++ [name]) as [| x xs] eqn:Hk.
    { destruct kept; discriminate. }
    change (String.append seg (String.append "/" (String.concat "/" (x :: xs))))
      with (seg +:+ "/" +:+ String.concat "/" (x :: xs)).
    rewrite !chars_append.
    destruct IH as [-> | [q ->]].
    + exists (chars seg). reflexivity.
    + exists (chars seg ++ chars "/" ++ q). rewrite <- !app_assoc. reflexivity.
Qed.

Lemma ends_in_not_empty (p : list ascii) : ends_in (chars name) p -> p <> [].
Proof.
  intros [-> | [q ->]]; [apply name_not_empty |].
  destruct q; discriminate.
Qed.

Lemma ends_in_no_trailing_slash (p : list ascii) :
  ends_in (chars name) p ->
  match rev p with c :: _ => Path.is_slash c | [] => false end = false.
Proof.
  pose proof name_not_empty as Hne. pose proof name_no_slash as Hns.
  assert (Hlast : match rev (chars name) with
                  | c :: _ => Path.is_slash c | [] => false end = false).
  { destruct (chars name) as [| c cs] using rev_ind; [reflexivity |].
    rewrite rev_app_distr. simpl. rewrite forallb_app in Hns.
    apply andb_prop in Hns as [_ Hc]. simpl in Hc.
    destruct (Path.is_slash c); [discriminate | reflexivity]. }
  intros [-> | [q ->]]; [exact Hlast |].
  change (q ++ Path.slash :: chars name) with (q ++ [Path.slash] ++ chars name).
  rewrite !rev_app_distr.
  destruct (rev (chars name)) as [| c cs] eqn:Hr; [| exact Hlast].
  apply (f_equal (@rev _)) in Hr. rewrite rev_involutive in Hr. contradiction.
Qed.

Lemma take_while_no_slash (cs rest : list ascii) :
  forallb (fun c => negb (Path.is_slash c)) cs = true ->
  match rest with c :: _ => Path.is_slash c = true | [] => True end ->
  Path.take_while (fun c => negb (Path.is_slash c)) (cs ++ rest) = cs.
Proof.
  intros Hcs Hrest. induction cs as [| c cs IH].
  - simpl. destruct rest as [| c rest]; [reflexivity |].
    simpl. rewrite Hrest. reflexivity.
  - simpl in Hcs. apply andb_prop in Hcs as [Hc Hcs]. simpl. rewrite Hc.
    rewrite (IH Hcs). reflexivity.
Qed.

Lemma basename_chars_ends_in (p : string) :
  ends_in (chars name) (chars p) -> Path.basename_chars p = chars name.
Proof.
  pose proof name_not_empty as Hne. pose proof name_no_slash as Hns.
  intros Hp. unfold Path.basename_chars.
  assert (Hrev : exists rest,
             rev (chars p) = rev (chars name) ++ rest
             /\ match rest with c :: _ => Path.is_slash c = true | [] => True end).
  { destruct Hp as [-> | [q ->]].
    - exists []. rewrite app_nil_r. split; [reflexivity | exact I].
    - exists (Path.slash :: rev q).
      change (q ++ Path.slash :: chars name) with (q ++ [Path.slash] ++ chars name).
      rewrite !rev_app_distr. rewrite <- app_assoc. split; reflexivity. }
  destruct Hrev as (rest & -> & Hrest).
  assert (Hns' : forallb (fun c => negb (Path.is_slash c)) (rev (chars name)) = true).
  { rewrite forallb_forall in *. intros c Hc. apply Hns. apply in_rev. exact Hc. }
  assert (Hdrop : Path.drop_while Path.is_slash (rev (chars name) ++ rest)
                  = rev (chars name) ++ rest).
  { destruct (rev (chars name)) as [| c cs] eqn:Hr.
    - apply (f_equal (@rev _)) in Hr. rewrite rev_involutive in Hr. contradiction.
    - simpl in Hns'. apply andb_prop in Hns' as [Hc _]. simpl.
      destruct (Path.is_slash c); [discriminate | reflexivity]. }
  rewrite Hdrop. rewrite take_while_no_slash by assumption.
  apply rev_involutive.
Qed.

Lemma normalize_ends_in (p : string) :
  ends_in (chars name) (chars p) -> ends_in (chars name) (chars (Path.normalize p)).
Proof.
  intros Hp. unfold Path.normalize.
  destruct (String.eqb_spec p "") as [-> | _].
  { apply ends_in_not_empty in Hp. contradiction. }
  assert (Htrail : Path.ends_with_slash p = false)
    by (apply ends_in_no_trailing_slash; exact Hp).
  rewrite Htrail.
  assert (Hsplit : exists segs, Path.split p = segs ++ [name]).
  { apply split_from_ends_in; [exact Hp | left; reflexivity]. }
  destruct Hsplit as [segs ->].
  destruct (normalize_segments_ends_in (negb (Path.starts_with_slash p)) segs [])
    as [kept ->].
  pose proof (concat_ends_in kept) as Hbody.
  destruct (String.eqb_spec (String.concat "/" (kept ++ [name])) "") as [Hempty | _].
  { rewrite Hempty in Hbody. apply ends_in_not_empty in Hbody. contradiction. }
  cbv zeta. destruct (Path.starts_with_slash p); [| exact Hbody].
  rewrite chars_append. destruct Hbody as [-> | [q ->]].
  - right. exists []. reflexivity.
  - right. exists (chars "/" ++ q). rewrite <- app_assoc. reflexivity.
Qed.

Lemma join_ends_in (dir : string) : ends_in (chars name) (chars (Path.join dir name)).
Proof.
  unfold Path.join.
  assert (Hn : (name =? "")%string = false).
  { pose proof name_not_empty. destruct name; [contradiction | reflexivity]. }
  rewrite Hn.
  destruct (dir =? "")%string; apply normalize_ends_in.
  - left. reflexivity.
  - right. exists (chars dir). rewrite !chars_append. reflexivity.
Qed.

Lemma basename_chars_join (dir : string) :
  Path.basename_chars (Path.join dir name) = Path.basename_chars name.
Proof.
  rewrite (basename_chars_ends_in (Path.join dir name)) by apply join_ends_in.
  rewrite (basename_chars_ends_in name) by (left; reflexivity).
  reflexivity.
Qed.

Lemma basename_join (dir : string) : Path.basename (Path.join dir name) = name.
Proof.
  unfold Path.basename.
  rewrite (basename_chars_ends_in (Path.join dir name)) by apply join_ends_in.
  apply unchars_chars.
Qed.

Lemma extname_join (dir : string) :
  Path.extname (Path.join dir name) = Path.extname name.
Proof. unfold Path.extname. rewrite basename_chars_join. reflexivity. Qed.

Lemma isBinaryFile_join (dir : string) :
  isBinaryFile (Path.join dir name) = isBinaryFile name.
Proof. unfold isBinaryFile. rewrite extname_join. reflexivity. Qed.

Lemma getMimeType_join (dir : string) :
  getMimeType (Path.join dir name) = getMimeType name.
Proof. unfold getMimeType. rewrite extname_join. reflexivity. Qed.

End Names.

Section Agreement.
Context {E : Externals} {B : Type}.

Lemma compare_processDirectory_at_Dir (files : list (string * node))
    (dirPath baseDir : string) (localData : Snapshot) :
  compare_processDirectory_at (B := B) (Dir files) dirPath baseDir localData =
    (log_fs (OpReaddir dirPath) ;;; compareEntries dirPath baseDir files localData).
Proof. reflexivity. Qed.

Lemma reading_compare_processDirectory_at (dir : node) :
  forall dirPath baseDir localData,
    reading (B := B) (compare_processDirectory_at dir dirPath baseDir localData).
Proof.
  induction dir as [content | entries IH] using node_ind';
    intros dirPath baseDir localData.
  - simpl. apply reading_bind; [apply reading_log_fs; reflexivity | intros _].
    apply reading_throw.
  - rewrite compare_processDirectory_at_Dir.
    apply reading_bind; [apply reading_log_fs; reflexivity | intros _].
    revert localData. induction IH as [| [name child] rest Hchild _ IHrest];
      intros localData.
    + apply reading_ret.
    + simpl. destruct child as [content | entries'].
      * apply reading_bind; [apply reading_fs_readFile | intros d; apply IHrest].
      * apply reading_bind; [apply Hchild | intros d; apply IHrest].
Qed.

Lemma reading_compare_processDirectory (dirPath : string) :
  reading (B := B) (compare_processDirectory dirPath).
Proof.
  intros w. unfold compare_processDirectory.
  destruct (Fs.lookup _ _) as [c | dir].
  - apply reading_bind; [apply reading_log_fs; reflexivity | intros _].
    apply reading_throw.
  - apply reading_compare_processDirectory_at.
Qed.

(** What [processDirectory] without options makes of one file. *)
Lemma processFile_plain_returned (fullPath relativePath : string)
    (backupData : Snapshot) (w : World B) :
  returned (processFile fullPath relativePath backupData BackupOptions.none w).1
  = match Fs.lookup (Fs.segments fullPath) (fs w) with
    | inr (File content) =>
        Some (<[relativePath := plain_record (isBinaryFile fullPath) content
                                             (getMimeType fullPath)]> backupData)
    | _ => None
    end.
Proof.
  destruct (Fs.lookup (Fs.segments fullPath) (fs w)) as [c | [content | entries]]
    eqn:Hlookup.
  - unfold processFile, bind. rewrite fs_stat_run, Hlookup. reflexivity.
  - rewrite (processFile_plain_result _ _ _ _ _ content);
      [reflexivity | exact Hlookup | reflexivity | reflexivity].
  - unfold processFile, bind. rewrite fs_stat_run, Hlookup.
    change (oversized BackupOptions.none (stats_of (Dir entries))) with false.
    change (Stats.size (stats_of (Dir entries)) >? 1024 * 1024) with false.
    cbv iota. unfold processSmallFile, try_catch, bind.
    rewrite fs_readFile_run. cbn [fs with_fs_op]. rewrite Hlookup. reflexivity.
Qed.

Lemma same_fs_after {A} (c : M B A) (w : World B) :
  reading c -> fs (c w).2 = fs w.
Proof. intros H. apply (H w). Qed.

Lemma walks_agree (dir : node) :
  forall (dirPath baseDir : string) (data : Snapshot) (w w2 : World B),
    well_named dir = true ->
    fs w2 = fs w ->
    returned (processDirectory_at dir dirPath baseDir data BackupOptions.none w).1
    = returned (compare_processDirectory_at dir dirPath baseDir data w2).1.
Proof.
  induction dir as [content | entries IH] using node_ind';
    intros dirPath baseDir data w w2 Hnames Hfs.
  - reflexivity.
  - rewrite processDirectory_at_Dir, compare_processDirectory_at_Dir.
    assert (Hloop : forall (w w2 : World B) data, fs w2 = fs w ->
               returned (walkEntries dirPath baseDir BackupOptions.none
                                     entries data w).1
               = returned (compareEntries dirPath baseDir entries data w2).1).
    { clear w w2 data Hfs. simpl in Hnames.
      induction IH as [| [name child] rest Hchild _ IHrest]; intros w w2 data Hfs.
      - reflexivity.
      - simpl in Hnames. apply andb_prop in Hnames as [Hentry Hrest].
        apply andb_prop in Hentry as [Hname Hchildnames].
        specialize (IHrest Hrest).
        cbn [walkEntries compareEntries].
        change (excluded BackupOptions.none name) with false. cbv iota zeta.
        destruct child as [content | entries'].
        + unfold bind at 1.
          pose proof (processFile_plain_returned
                        (Path.join dirPath name)
                        (backslashes_to_slashes (Path.join baseDir name)) data w)
            as Hfile.
          pose proof (same_fs_after
                        (processFile (Path.join dirPath name)
                           (backslashes_to_slashes (Path.join baseDir name))
                           data BackupOptions.none) w
                        (reading_processFile _ _ _ _)) as Hfs1.
          destruct (processFile (Path.join dirPath name)
                      (backslashes_to_slashes (Path.join baseDir name))
                      data BackupOptions.none w) as [[d | e] w1].
          * unfold bind. rewrite fs_readFile_run. rewrite Hfs.
            cbn [fst snd returned] in Hfile, Hfs1.
            destruct (Fs.lookup (Fs.segments (Path.join dirPath name)) (fs w))
              as [c | [content' | entries']]; try discriminate.
            injection Hfile as ->.
            rewrite (isBinaryFile_join name Hname), (getMimeType_join name Hname).
            apply IHrest. cbn [fs with_fs_op]. congruence.
          * unfold bind. rewrite fs_readFile_run. rewrite Hfs.
            cbn [fst snd returned] in Hfile.
            destruct (Fs.lookup (Fs.segments (Path.join dirPath name)) (fs w))
              as [c | [content' | entries']]; try discriminate; reflexivity.
        + unfold bind.
          assert (Hsub :
                    returned
                      (processDirectory_at (Dir entries') (Path.join dirPath name)
                         (backslashes_to_slashes (Path.join baseDir name))
                         data BackupOptions.none w).1
                    = returned
                        (compare_processDirectory_at (Dir entries')
                           (Path.join dirPath name)
                           (backslashes_to_slashes (Path.join baseDir name))
                           data w2).1)
            by (apply Hchild; assumption).
          pose proof (same_fs_after _ w
                        (reading_processDirectory_at (Dir entries')
                           (Path.join dirPath name)
                           (backslashes_to_slashes (Path.join baseDir name))
                           data BackupOptions.none)) as Hfs1.
          pose proof (same_fs_after _ w2
                        (reading_compare_processDirectory_at (Dir entries')
                           (Path.join dirPath name)
                           (backslashes_to_slashes (Path.join baseDir name))
                           data)) as Hfs2.
          destruct (processDirectory_at (Dir entries') (Path.join dirPath name)
                      (backslashes_to_slashes (Path.join baseDir name))
                      data BackupOptions.none w) as [[d | e] w1];
            destruct (compare_processDirectory_at (Dir entries')
                        (Path.join dirPath name)
                        (backslashes_to_slashes (Path.join baseDir name))
                        data w2) as [[d2 | e2] w2'];
            cbn [fst snd returned] in Hsub, Hfs1, Hfs2; try discriminate;
            [| reflexivity].
          injection Hsub as ->. apply IHrest. congruence. }
    unfold try_catch, bind, log_fs.
    match goal with
    | |- returned (match walkEntries _ _ _ _ _ ?wa with _ => _ end).1
         = returned (compareEntries _ _ _ _ ?wb).1 =>
        specialize (Hloop wa wb data Hfs);
        destruct (walkEntries dirPath baseDir BackupOptions.none entries data wa)
          as [[d | e] w1]
    end; exact Hloop.
Qed.

Lemma lookup_well_named (segs : list string) :
  forall root dir,
    well_named root = true -> Fs.lookup segs root = inr dir -> well_named dir = true.
Proof.
  induction segs as [| seg segs IH]; intros root dir Hroot Hlookup.
  - injection Hlookup as <-. exact Hroot.
  - destruct root as [content | entries]; [discriminate |].
    simpl in Hlookup.
    destruct (Fs.find_entry seg entries) as [child |] eqn:Hfind; [| discriminate].
    apply (IH child dir); [| exact Hlookup].
    simpl in Hroot. clear Hlookup IH.
    induction entries as [| [n c] rest IHrest]; [discriminate |].
    simpl in Hroot, Hfind. apply andb_prop in Hroot as [Hentry Hrest].
    destruct (n =? seg)%string.
    + injection Hfind as <-. apply andb_prop in Hentry as [_ H]. exact H.
    + apply IHrest; assumption.
Qed.

Lemma snapshots_agree (dirPath : string) (w w2 : World B) :
  well_named (fs w) = true ->
  fs w2 = fs w ->
  returned (processDirectory dirPath "" ∅ BackupOptions.none w).1
  = returned (compare_processDirectory dirPath w2).1.
Proof.
  intros Hnames Hfs. unfold processDirectory, compare_processDirectory.
  rewrite Hfs.
  destruct (Fs.lookup (Fs.segments dirPath) (fs w)) as [c | dir] eqn:Hlookup.
  - reflexivity.
  - apply walks_agree; [| exact Hfs].
    apply (lookup_well_named _ _ _ Hnames Hlookup).
Qed.

End Agreement.

(** X16.  [compare] reads a directory as a [backup] without
    options does: on a file tree whose entries have proper names, the local
    walk of [compare] returns the snapshot that [processDirectory] builds,
    and throws when [processDirectory] throws.  Neither changes the file
    tree. *)
Theorem compare_reads_the_tree_as_a_plain_backup {E : Externals} {B : Type}
    (sourcePath : string) (w w2 : World B) :
  well_named (fs w) = true ->
  fs w2 = fs w ->
  returned (compare_processDirectory sourcePath w2).1
    = returned (processDirectory sourcePath "" ∅ BackupOptions.none w).1
  /\ fs (compare_processDirectory sourcePath w2).2 = fs w
  /\ fs (processDirectory sourcePath "" ∅ BackupOptions.none w).2 = fs w.
Proof.
  intros Hnames Hfs. split; [| split].
  - symmetry. apply snapshots_agree; assumption.
  - rewrite <- Hfs. apply same_fs_after. apply reading_compare_processDirectory.
  - apply same_fs_after. apply reading_processDirectory.
Qed.

(** X16, on [data/a.txt]. *)
Lemma compare_reads_the_tree_as_a_plain_backup_witness :
  returned (compare_processDirectory "data" (LocalIpfs.world tree_hello 1000)).1
    = returned (processDirectory "data" "" ∅ BackupOptions.none
                  (LocalIpfs.world tree_hello 1000)).1
  /\ fs (compare_processDirectory "data" (LocalIpfs.world tree_hello 1000)).2
     = fs (LocalIpfs.world tree_hello 1000)
  /\ fs (processDirectory "data" "" ∅ BackupOptions.none
           (LocalIpfs.world tree_hello 1000)).2
     = fs (LocalIpfs.world tree_hello 1000).
Proof.
  apply (compare_reads_the_tree_as_a_plain_backup "data"
           (LocalIpfs.world tree_hello 1000) (LocalIpfs.world tree_hello 1000));
    reflexivity.
Defined.

Section CompareFacts.
Context {E : Externals} {B : Type}.
Variable get_ : string -> M B (option BackupData.t).

(** What [get] returns has [data]. *)
Lemma get_returns_data (hash : string) (w w' : World B) (payload : BackupData.t) :
  get get_ hash w = (Ok payload, w') -> is_Some (BackupData.data payload).
Proof.
  unfold get, bind, log_call.
  destruct (get_ hash _) as [[[r |] | e] w1]; try discriminate.
  destruct (BackupData.data r) as [d |] eqn:Hd; [| discriminate].
  destruct (BackupData.metadata r); [| discriminate].
  intros [= <- <-]. rewrite Hd. eexists. reflexivity.
Qed.

(** [compare], once [get] has answered and the local snapshot is built. *)
Lemma compare_run (hash sourcePath : string) (w w1 w2 : World B)
    (payload : BackupData.t) (remoteVersion : VersionInfo.t) (localData : Snapshot) :
  get get_ hash w = (Ok payload, w1) ->
  BackupData.metadata payload ≫= BackupMetadata.versionInfo = Some remoteVersion ->
  compare_processDirectory sourcePath w1 = (Ok localData, w2) ->
  compare get_ hash sourcePath w
  = compareVersions (Buffer_from (stringify_Snapshot localData)) remoteVersion w2.
Proof.
  intros Hget Hmeta Hwalk.
  destruct (get_returns_data _ _ _ _ Hget) as [d Hd].
  unfold compare, try_catch. unfold bind at 1. rewrite Hget, Hd, Hmeta.
  unfold bind at 1. rewrite Hwalk.
  destruct (compareVersions _ _ w2) as [[c | e] w3]; reflexivity.
Qed.

End CompareFacts.

(** X17.  [compare] right after a [backup] without options:
    if the file tree is as it was when the backup was taken (its entries
    having proper names) and the record fetched carries the version the
    backup returned, [compare] returns a comparison whose [isEqual] is
    [true] and whose [remoteVersion] is that version, and leaves the file
    tree as it is. *)
Theorem compare_after_plain_backup_is_equal {E : Externals} {B : Type}
    (uploadJson : UploadData.t -> string -> M B (option UploadOutput.t))
    (get_ : string -> M B (option BackupData.t))
    (sourcePath hash : string) (w w1 w2 w3 : World B)
    (result : BackupResult.t) (payload : BackupData.t) :
  well_named (fs w) = true ->
  backup uploadJson sourcePath BackupOptions.none w = (Ok result, w1) ->
  get get_ hash w2 = (Ok payload, w3) ->
  BackupData.metadata payload ≫= BackupMetadata.versionInfo
    = Some (BackupResult.versionInfo result) ->
  fs w3 = fs w ->
  exists comparison w4,
    compare get_ hash sourcePath w2 = (Ok comparison, w4)
    /\ VersionComparison.isEqual comparison = true
    /\ VersionComparison.remoteVersion comparison = BackupResult.versionInfo result
    /\ fs w4 = fs w.
Proof.
  intros Hnames Hbackup Hget Hmeta Hfs.
  rewrite backup_run in Hbackup.
  pose proof (snapshots_agree sourcePath w w3 Hnames Hfs) as Hsame.
  pose proof (same_fs_after _ w3 (reading_compare_processDirectory sourcePath))
    as Hfs4.
  destruct (processDirectory sourcePath "" ∅ BackupOptions.none w)
    as [[backupData | e] wa]; [| discriminate].
  destruct (compare_processDirectory sourcePath w3) as [[localData | e] w4] eqn:Hwalk;
    [| discriminate].
  cbn [fst snd returned] in Hsame, Hfs4. injection Hsame as ->.
  assert (Hversion : BackupResult.versionInfo result
                     = versionInfo_at (Buffer_from (stringify_Snapshot localData))
                                      (clock wa)).
  { cbv zeta in Hbackup.
    destruct (uploadJson _ _ _) as [[[r |] | e] wb]; try discriminate.
    destruct (truthy_string (UploadOutput.id r)); [| discriminate].
    injection Hbackup as <- _. reflexivity. }
  rewrite (compare_run get_ hash sourcePath w2 w3 w4 payload
             (BackupResult.versionInfo result) localData Hget Hmeta Hwalk).
  unfold compareVersions, createVersionInfo, bind, Date_now, ret.
  do 2 eexists. split; [reflexivity |]. cbn [VersionComparison.isEqual
    VersionComparison.remoteVersion VersionInfo.hash].
  split; [| split; [reflexivity | congruence]].
  rewrite Hversion. unfold versionInfo_at. cbn [VersionInfo.checksum].
  apply String.eqb_refl.
Qed.

(** The backup of [data/a.txt] and the record fetched back. *)
Lemma hello_backup_is_fetched :
  exists result payload w3,
    backup LocalIpfs.uploadJson "data" BackupOptions.none
           (LocalIpfs.world tree_hello 1000)
      = (Ok result, world_after_backup tree_hello BackupOptions.none)
    /\ get LocalIpfs.get "cid-0" (world_after_backup tree_hello BackupOptions.none)
       = (Ok payload, w3)
    /\ BackupData.metadata payload ≫= BackupMetadata.versionInfo
       = Some (BackupResult.versionInfo result)
    /\ fs w3 = fs (LocalIpfs.world tree_hello 1000).
Proof.
  do 3 eexists. split; [vm_compute; reflexivity |].
  split; [vm_compute; reflexivity |]. split; vm_compute; reflexivity.
Qed.

(** X17, on [data/a.txt] and the stand-in node. *)
Lemma compare_after_plain_backup_is_equal_witness :
  exists comparison w4,
    compare LocalIpfs.get "cid-0" "data"
            (world_after_backup tree_hello BackupOptions.none)
      = (Ok comparison, w4)
    /\ VersionComparison.isEqual comparison = true.
Proof.
  destruct hello_backup_is_fetched
    as (result & payload & w3 & Hbackup & Hget & Hmeta & Hfs).
  destruct (compare_after_plain_backup_is_equal
              LocalIpfs.uploadJson LocalIpfs.get "data" "cid-0"
              (LocalIpfs.world tree_hello 1000)
              (world_after_backup tree_hello BackupOptions.none)
              (world_after_backup tree_hello BackupOptions.none) w3
              result payload eq_refl Hbackup Hget Hmeta Hfs)
    as (comparison & w4 & Hrun & Hequal & _).
  exists comparison, w4. split; assumption.
Defined.

(** ** [PinataService.get] *)

Section PinataGet.
Context {Remote : Type}.
Variable sdk_gateways_get : string -> Remote -> Result Js.value * Remote.

Lemma checkEntries_spec (entries : list (string * Js.value)) :
  forall rewritten,
    PinataService.checkEntries entries rewritten
    = match first_refused entries with
      | None => Ok (rewritten ++ encrypted_paths entries)
      | Some (path, data) => Throw (entry_error path data)
      end.
Proof.
  induction entries as [| [path data] rest IH]; intros rewritten.
  - simpl. rewrite app_nil_r. reflexivity.
  - cbn [PinataService.checkEntries first_refused]. unfold accepted.
    unfold encrypted_paths. cbn [List.filter snd].
    fold (looks_encrypted data).
    destruct (Js.typeof_object data) eqn:Hobject;
      [| cbn; unfold entry_error; rewrite Hobject; reflexivity].
    destruct (Js.is_null data) eqn:Hnull;
      [cbn; unfold entry_error; rewrite Hobject, Hnull; reflexivity |].
    cbn [negb orb andb].
    destruct (looks_encrypted data).
    + rewrite IH. cbn [orb]. destruct (first_refused rest) as [[p d] |];
        [reflexivity |].
      unfold encrypted_paths. cbn [map fst]. rewrite <- app_assoc. reflexivity.
    + cbn [orb].
      destruct (Js.truthy (Js.prop "type" data)) eqn:Htype;
        [| cbn; unfold entry_error; rewrite Hobject, Hnull, Htype; reflexivity].
      destruct (Js.truthy (Js.prop "content" data)) eqn:Hcontent;
        [| cbn; unfold entry_error; rewrite Hobject, Hnull, Htype; reflexivity].
      cbn [negb andb]. apply IH.
Qed.

(** [get], step by step, once the gateway has answered. *)
Lemma pinata_get_run (hash : string) (w : World (Pinata.Backend Remote))
    (response : Js.value) (remote' : Remote) :
  hash <> "" ->
  sdk_gateways_get hash (Pinata.remote (backend w)) = (Ok response, remote') ->
  PinataService.get sdk_gateways_get hash w
  = (if negb (Js.truthy response) || negb (Js.typeof_object response) then
       Throw (Error "Invalid response from Pinata")
     else if negb (Js.truthy (Js.prop "data" (Js.prop "data" response))) then
       Throw (Error "Invalid data structure in backup")
     else
       match first_refused (Js.entries (Js.prop "data" (Js.prop "data" response))) with
       | None =>
           Ok (PinataService.mkResultData
                 (Js.prop "data" (Js.prop "data" response))
                 (encrypted_paths
                    (Js.entries (Js.prop "data" (Js.prop "data" response))))
                 (metadata_or_default
                    (Js.prop "metadata" (Js.prop "data" response))
                    (clock (rate_limited w))))
       | Some (path, data) => Throw (entry_error path data)
       end,
     answered (rate_limited w) (Pinata.GatewaysGet hash) remote').
Proof.
  intros Hhash Hanswer.
  unfold PinataService.get, try_catch.
  destruct hash as [| c s]; [contradiction |]. cbn [truthy_string negb].
  unfold bind at 1. rewrite enforceRateLimit_run.
  unfold bind at 1. rewrite request_run.
  change (Pinata.remote (backend (rate_limited w))) with (Pinata.remote (backend w)).
  rewrite Hanswer. cbn [fst snd].
  destruct (negb (Js.truthy response) || negb (Js.typeof_object response));
    [reflexivity |].
  destruct (negb (Js.truthy (Js.prop "data" (Js.prop "data" response))));
    [reflexivity |].
  cbv zeta. unfold bind, of_result, ret, throw, Date_now, metadata_or_default.
  rewrite checkEntries_spec. cbn [app].
  destruct (Js.truthy (Js.prop "metadata" (Js.prop "data" response)));
    destruct (first_refused _) as [[p d] |]; reflexivity.
Qed.

End PinataGet.

Lemma first_refused_none (entries : list (string * Js.value)) :
  first_refused entries = None
  <-> forallb (fun entry => accepted entry.2) entries = true.
Proof.
  induction entries as [| [path data] rest IH]; [split; reflexivity |].
  cbn [first_refused forallb snd]. destruct (accepted data); [exact IH |].
  split; discriminate.
Qed.

(** A record kept in the clear is accepted exactly when its file is not
    empty. *)
Lemma plain_entry_accepted (file : PlainFile) :
  accepted (plain_entry file).2 = negb (is_empty_file file)
  /\ looks_encrypted (plain_entry file).2 = false.
Proof.
  destruct file as [path [[isBinary content] mimeType]].
  split; [| reflexivity].
  unfold plain_entry, plain_record, record_json, accepted, looks_encrypted.
  cbn [snd FileData.plain FileData.isEncrypted FileData.encrypted FileData.iv
       FileData.authTag FileData.type FileData.content FileData.mimeType
       json_property app Js.prop Js.find Js.typeof_object Js.is_null
       String.eqb Ascii.eqb Bool.eqb Js.truthy negb andb orb].
  assert (Htype : truthy_string (if isBinary then "binary" else "text") = true)
    by (destruct isBinary; reflexivity).
  rewrite Htype. cbn [andb].
  destruct content as [| b bs]; [destruct isBinary; reflexivity |].
  cbn [is_empty_file negb].
  destruct isBinary;
    [apply base64_encode_truthy | apply utf8_decode_truthy]; discriminate.
Qed.

Lemma plain_entry_error (path : string) (isBinary : bool) (mimeType : string) :
  entry_error path (record_json (plain_record isBinary [] mimeType))
  = PinataService.invalid_data path "missing 'content' field".
Proof. destruct isBinary; reflexivity. Qed.

Lemma first_refused_plain (files : list PlainFile) :
  first_refused (map plain_entry files)
  = match List.filter is_empty_file files with
    | [] => None
    | file :: _ => Some (plain_entry file)
    end.
Proof.
  induction files as [| file rest IH]; [reflexivity |].
  cbn [map List.filter]. destruct (plain_entry_accepted file) as [Hacc _].
  destruct file as [path [[isBinary content] mimeType]].
  cbn [first_refused plain_entry] in *. cbn [snd] in Hacc. rewrite Hacc.
  destruct content as [| b bs]; cbn [is_empty_file negb]; [reflexivity | exact IH].
Qed.

Lemma encrypted_paths_plain (files : list PlainFile) :
  encrypted_paths (map plain_entry files) = [].
Proof.
  unfold encrypted_paths. induction files as [| file rest IH]; [reflexivity |].
  cbn [map List.filter]. destruct (plain_entry_accepted file) as [_ ->]. exact IH.
Qed.

(** X18.  [PinataService.get] hands on only snapshots it has
    checked.  When the gateway answers an object whose [data.data] is
    truthy, [get] returns exactly when every entry of [data.data] is an
    object that has [iv] and [mimeType], or [type] and [content], all
    truthy.  What it returns is [data.data], with the entries that have
    [iv] and [mimeType] rewritten, and the stored metadata or, if that is
    falsy, [{ timestamp: now, type: "json" }].  It sends one request,
    after the wait of the rate limit. *)
Theorem pinata_get_returns_checked_snapshots {Remote : Type}
    (sdk_gateways_get : string -> Remote -> Result Js.value * Remote)
    (hash : string) (w : World (Pinata.Backend Remote))
    (response fileData : Js.value) (remote' : Remote) :
  hash <> "" ->
  sdk_gateways_get hash (Pinata.remote (backend w)) = (Ok response, remote') ->
  Js.truthy response && Js.typeof_object response = true ->
  Js.prop "data" (Js.prop "data" response) = fileData ->
  Js.truthy fileData = true ->
  (forall result,
      (PinataService.get sdk_gateways_get hash w).1 = Ok result
      <-> forallb (fun entry => accepted entry.2) (Js.entries fileData) = true
          /\ result
             = PinataService.mkResultData fileData
                 (encrypted_paths (Js.entries fileData))
                 (metadata_or_default
                    (Js.prop "metadata" (Js.prop "data" response))
                    (Z.max (clock w) (Pinata.lastRequestTime (backend w) + 500))))
  /\ (PinataService.get sdk_gateways_get hash w).2
     = answered (rate_limited w) (Pinata.GatewaysGet hash) remote'.
Proof.
  intros Hhash Hanswer Hobject Hdata Htruthy.
  rewrite (pinata_get_run sdk_gateways_get hash w response remote' Hhash Hanswer).
  apply andb_prop in Hobject as [-> ->]. rewrite Hdata, Htruthy.
  rewrite rate_limited_clock. change Pinata.rateLimitMs with 500.
  cbn [negb orb fst snd]. split; [| reflexivity].
  intros result. rewrite <- first_refused_none.
  destruct (first_refused (Js.entries fileData)) as [[path data] |].
  - split; [discriminate | intros [H _]; discriminate].
  - split; [intros [= <-]; split; reflexivity | intros [_ ->]; reflexivity].
Qed.

(** X18, on the snapshot of [a.txt] alone. *)
Lemma pinata_get_returns_checked_snapshots_witness :
  (forall result,
      (PinataService.get one_file_gateway sample_cid (pinata_world 1000)).1 = Ok result
      <-> forallb (fun entry => accepted entry.2)
                  (Js.entries (Js.Obj (map plain_entry one_file))) = true
          /\ result
             = PinataService.mkResultData (Js.Obj (map plain_entry one_file))
                 (encrypted_paths (Js.entries (Js.Obj (map plain_entry one_file))))
                 (metadata_or_default
                    (Js.prop "metadata"
                       (Js.prop "data"
                          (gateway_response (Js.Obj (map plain_entry one_file))
                                            Js.Undefined)))
                    (Z.max (clock (pinata_world 1000))
                           (Pinata.lastRequestTime (backend (pinata_world 1000))
                            + 500))))
  /\ (PinataService.get one_file_gateway sample_cid (pinata_world 1000)).2
     = answered (rate_limited (pinata_world 1000)) (Pinata.GatewaysGet sample_cid) tt.
Proof.
  apply (pinata_get_returns_checked_snapshots one_file_gateway sample_cid
           (pinata_world 1000)
           (gateway_response (Js.Obj (map plain_entry one_file)) Js.Undefined)
           (Js.Obj (map plain_entry one_file)) tt);
    [discriminate | reflexivity ..].
Defined.

(** X19.  Through [PinataService], a snapshot taken without
    encryption can be fetched exactly when none of its files is empty:
    [get] returns the records as they are if every file has at least one
    byte, and otherwise throws [missing 'content' field] for the first
    empty file, because the [content] of its record is the empty string. *)
Theorem pinata_get_refuses_empty_files {Remote : Type}
    (sdk_gateways_get : string -> Remote -> Result Js.value * Remote)
    (hash : string) (w : World (Pinata.Backend Remote))
    (response : Js.value) (remote' : Remote) (files : list PlainFile) :
  hash <> "" ->
  sdk_gateways_get hash (Pinata.remote (backend w)) = (Ok response, remote') ->
  Js.truthy response && Js.typeof_object response = true ->
  Js.prop "data" (Js.prop "data" response) = Js.Obj (map plain_entry files) ->
  (PinataService.get sdk_gateways_get hash w).1
  = match first_empty files with
    | None =>
        Ok (PinataService.mkResultData (Js.Obj (map plain_entry files)) []
              (metadata_or_default
                 (Js.prop "metadata" (Js.prop "data" response))
                 (Z.max (clock w) (Pinata.lastRequestTime (backend w) + 500))))
    | Some path => Throw (PinataService.invalid_data path "missing 'content' field")
    end.
Proof.
  intros Hhash Hanswer Hobject Hdata.
  rewrite (pinata_get_run sdk_gateways_get hash w response remote' Hhash Hanswer).
  apply andb_prop in Hobject as [-> ->]. rewrite Hdata.
  rewrite rate_limited_clock. change Pinata.rateLimitMs with 500.
  cbn [negb orb fst Js.truthy Js.entries].
  rewrite first_refused_plain, encrypted_paths_plain. unfold first_empty.
  pose proof (filter_In is_empty_file) as Hfilter.
  destruct (List.filter is_empty_file files) as [| file rest] eqn:Hempty;
    [reflexivity |].
  assert (His : is_empty_file file = true).
  { apply (Hfilter file files). rewrite Hempty. left. reflexivity. }
  destruct file as [path [[isBinary content] mimeType]].
  destruct content as [| b bs]; [| discriminate].
  cbn [plain_entry fst]. rewrite plain_entry_error. reflexivity.
Qed.

(** X19, on the snapshot of [a.txt] and the empty
    [empty.txt]. *)
Lemma pinata_get_refuses_empty_files_witness :
  (PinataService.get two_files_gateway sample_cid (pinata_world 1000)).1
  = Throw (PinataService.invalid_data "empty.txt" "missing 'content' field").
Proof.
  apply (pinata_get_refuses_empty_files two_files_gateway sample_cid
           (pinata_world 1000)
           (gateway_response (Js.Obj (map plain_entry two_files)) Js.Undefined)
           tt two_files);
    [discriminate | reflexivity ..].
Defined.

(** ** [uploadBuffer] *)

Lemma remove_entry_set_entry (name : string) (child : node)
    (entries : list (string * node)) :
  Fs.find_entry name entries = None ->
  remove_entry name (Fs.set_entry name child entries) = entries.
Proof.
  induction entries as [| [n c] rest IH]; simpl.
  - rewrite String.eqb_refl. reflexivity.
  - destruct (String.eqb n name) eqn:Heq; [discriminate |].
    intros Hnone. simpl. rewrite Heq. rewrite (IH Hnone). reflexivity.
Qed.

Lemma set_entry_back (name : string) (child child' : node)
    (entries : list (string * node)) :
  Fs.find_entry name entries = Some child ->
  Fs.set_entry name child (Fs.set_entry name child' entries) = entries.
Proof.
  induction entries as [| [n c] rest IH]; simpl; [discriminate |].
  destruct (String.eqb n name) eqn:Heq; simpl; rewrite Heq.
  - intros [= ->]. reflexivity.
  - intros Hfind. rewrite (IH Hfind). reflexivity.
Qed.

(** Removing a file that has just been created gives the tree back. *)
Lemma unlink_after_write (segs : list string) (data : Buffer) :
  forall root root',
    Fs.lookup segs root = inl Fs.ENOENT ->
    Fs.write segs data root = inr root' ->
    unlink_at segs root' = inr root.
Proof.
  induction segs as [| seg rest IH]; intros root root' Hfree Hwrite.
  - discriminate.
  - destruct root as [content | entries]; [discriminate |].
    simpl in Hfree, Hwrite.
    destruct (Fs.find_entry seg entries) as [child |] eqn:Hfind.
    + destruct (Fs.write rest data child) as [c | child'] eqn:Hw; [discriminate |].
      injection Hwrite as <-. simpl. rewrite find_entry_set_entry.
      destruct rest as [| s r]; [discriminate |].
      rewrite (IH child child' Hfree Hw).
      rewrite (set_entry_back _ _ _ _ Hfind). reflexivity.
    + destruct rest; [| discriminate].
      injection Hwrite as <-. simpl. rewrite find_entry_set_entry.
      rewrite (remove_entry_set_entry _ _ _ Hfind). reflexivity.
Qed.

Section UploadBuffer.
Context {Remote : Type}.
Variable sdk_add_file : Buffer -> Remote -> Result string * Remote.
Variable os_tmpdir : string.

(** [uploadFile] on a file that is there. *)
Lemma uploadFile_run (filePath : string) (content : Buffer)
    (w : World (Ipfs.Backend Remote)) :
  Fs.lookup (Fs.segments filePath) (fs w) = inr (File content) ->
  IpfsService.uploadFile sdk_add_file filePath w
  = (match (sdk_add_file content (Ipfs.remote (backend w))).1 with
     | Ok cid => Ok {| UploadOutput.id := cid |}
     | Throw e => Throw e
     end,
     ipfs_answered (ipfs_rate_limited (with_fs_op (OpReadFile filePath) w)) Ipfs.Add
       (sdk_add_file content (Ipfs.remote (backend w))).2).
Proof.
  intros Hfile. unfold IpfsService.uploadFile, try_catch.
  unfold bind at 1. rewrite fs_readFile_run, Hfile.
  unfold bind at 1. rewrite ipfs_enforceRateLimit_run.
  unfold bind. rewrite ipfs_request_run.
  change (Ipfs.remote (backend (ipfs_rate_limited
                                  (with_fs_op (OpReadFile filePath) w))))
    with (Ipfs.remote (backend w)).
  destruct (sdk_add_file content (Ipfs.remote (backend w))) as [[cid | e] remote'];
    reflexivity.
Qed.

End UploadBuffer.

(** X20.  [ShogunIpfs.uploadBuffer] over [IpfsService]
    uploads exactly the buffer and leaves no trace: if nothing exists at
    the temporary path [tmpdir/temp_<now>] and the file can be created
    there, the node is sent one [add] with the bytes of the buffer,
    [uploadBuffer] returns the id the node answers or throws the error of
    the node, and in both cases the file tree is afterwards what it was
    before the call. *)
Theorem uploadBuffer_leaves_no_trace {Remote : Type}
    (sdk_add_file : Buffer -> Remote -> Result string * Remote)
    (os_tmpdir : string) (buffer : Buffer) (w : World (Ipfs.Backend Remote))
    (root' : node) :
  Fs.lookup (Fs.segments (tempFilePath_at os_tmpdir (clock w))) (fs w)
    = inl Fs.ENOENT ->
  Fs.write (Fs.segments (tempFilePath_at os_tmpdir (clock w))) buffer (fs w)
    = inr root' ->
  exists w',
    ShogunIpfs.uploadBuffer os_tmpdir (IpfsService.uploadFile sdk_add_file) buffer w
    = (match (sdk_add_file buffer (Ipfs.remote (backend w))).1 with
       | Ok cid => Ok {| UploadOutput.id := cid |}
       | Throw e => Throw e
       end, w')
    /\ fs w' = fs w
    /\ Ipfs.requests (backend w') = Ipfs.requests (backend w) ++ [Ipfs.Add].
Proof.
  intros Hfree Hwrite.
  unfold ShogunIpfs.uploadBuffer. unfold bind at 1. unfold Date_now at 1.
  cbv zeta. fold (tempFilePath_at os_tmpdir (clock w)).
  set (p := tempFilePath_at os_tmpdir (clock w)) in *.
  unfold bind at 1. unfold fs_writeFile, bind, log_fs, get_world, set_fs.
  cbn [fs]. rewrite Hwrite.
  unfold try_finally.
  match goal with |- context [IpfsService.uploadFile sdk_add_file p ?w1] =>
    rewrite (uploadFile_run sdk_add_file p buffer w1)
      by (cbn [fs]; apply (lookup_after_write _ _ _ _ Hwrite))
  end.
  unfold try_catch, fs_unlinkSync, bind, get_world, set_fs.
  cbn [fs ipfs_answered ipfs_rate_limited with_fs_op backend Ipfs.remote].
  rewrite (unlink_after_write _ _ _ _ Hfree Hwrite).
  eexists. split; [reflexivity |]. split; reflexivity.
Qed.

(** X20, with [/tmp] empty and the node down. *)
Lemma uploadBuffer_leaves_no_trace_witness :
  exists w',
    ShogunIpfs.uploadBuffer "/tmp" (IpfsService.uploadFile failing_add)
      (Buffer_from "hello") tmp_world
    = (match (failing_add (Buffer_from "hello")
                (Ipfs.remote (backend tmp_world))).1 with
       | Ok cid => Ok {| UploadOutput.id := cid |}
       | Throw e => Throw e
       end, w')
    /\ fs w' = fs tmp_world
    /\ Ipfs.requests (backend w') = Ipfs.requests (backend tmp_world) ++ [Ipfs.Add].
Proof.
  apply (uploadBuffer_leaves_no_trace failing_add "/tmp" (Buffer_from "hello")
           tmp_world
           (Dir [("tmp", Dir [("temp_1000", File (Buffer_from "hello"))]);
                 ("data", Dir [])]));
    reflexivity.
Defined.

(** ** File classification *)

(** X21.  The two tables of the adapter agree: every extension that
    has a MIME type of its own counts as binary.  So a file recorded as
    [text] always carries [application/octet-stream], and the MIME type of
    a record is never the empty string. *)
Theorem only_binary_files_have_a_mime_type_of_their_own (filename : string) :
  (isBinaryFile filename = false ->
   getMimeType filename = "application/octet-stream")
  /\ truthy_string (getMimeType filename) = true.
Proof.
  unfold isBinaryFile, getMimeType.
  generalize (toLowerCase (Path.extname filename)). intros ext.
  unfold mimeTypes, assoc_lookup.
  repeat match goal with
         | |- context [String.eqb ?k ext] =>
             destruct (String.eqb_spec k ext) as [<- | _];
             [split; [discriminate | reflexivity] |]
         end.
  split; reflexivity.
Qed.

(** ** What [restore] leaves on disk *)

Lemma find_entry_set_entry_ne (name other : string) (child : node)
    (entries : list (string * node)) :
  other <> name ->
  Fs.find_entry other (Fs.set_entry name child entries) = Fs.find_entry other entries.
Proof.
  intros Hne. induction entries as [| [n c] rest IH]; simpl.
  - destruct (String.eqb_spec name other); [congruence | reflexivity].
  - destruct (String.eqb_spec n name) as [-> | Hn]; simpl.
    + destruct (String.eqb_spec name other); [congruence | reflexivity].
    + destruct (String.eqb_spec n other); [reflexivity | exact IH].
Qed.

(** [mkdir -p] keeps every file. *)
Lemma mkdirp_keeps_files (segs : list string) :
  forall root root' place content,
    Fs.mkdirp segs root = inr root' ->
    Fs.lookup place root = inr (File content) ->
    Fs.lookup place root' = inr (File content).
Proof.
  induction segs as [| seg rest IH]; intros root root' place content Hmk Hfile.
  - destruct root; simpl in Hmk; [discriminate |]. injection Hmk as <-. exact Hfile.
  - destruct root as [c | entries]; [discriminate |]. simpl in Hmk.
    destruct (Fs.mkdirp rest _) as [c | child'] eqn:Hchild; [discriminate |].
    injection Hmk as <-.
    destruct place as [| s ps]; [discriminate |]. simpl in Hfile |- *.
    destruct (String.eqb_spec s seg) as [-> | Hne].
    + rewrite find_entry_set_entry.
      destruct (Fs.find_entry seg entries) as [child |]; [| discriminate].
      eapply IH; eassumption.
    + rewrite find_entry_set_entry_ne by exact Hne. exact Hfile.
Qed.

(** Writing a file keeps every other file. *)
Lemma write_keeps_other_files (segs : list string) (data : Buffer) :
  forall root root' place content,
    Fs.write segs data root = inr root' ->
    place <> segs ->
    Fs.lookup place root = inr (File content) ->
    Fs.lookup place root' = inr (File content).
Proof.
  induction segs as [| seg rest IH]; intros root root' place content Hw Hne Hfile.
  - destruct root as [c | entries]; [| discriminate].
    destruct place as [| s ps]; [contradiction | discriminate].
  - destruct root as [c | entries]; [discriminate |]. simpl in Hw.
    destruct place as [| s ps]; [discriminate |]. simpl in Hfile |- *.
    destruct (Fs.find_entry seg entries) as [child |] eqn:Hfind.
    + destruct (Fs.write rest data child) as [c | child'] eqn:Hchild; [discriminate |].
      injection Hw as <-. simpl.
      destruct (String.eqb_spec s seg) as [-> | Hs].
      * rewrite find_entry_set_entry. rewrite Hfind in Hfile.
        eapply IH; [exact Hchild | congruence | exact Hfile].
      * rewrite find_entry_set_entry_ne by exact Hs. exact Hfile.
    + destruct rest; [| discriminate]. injection Hw as <-. simpl.
      destruct (String.eqb_spec s seg) as [-> | Hs].
      * rewrite Hfind in Hfile. discriminate.
      * rewrite find_entry_set_entry_ne by exact Hs. exact Hfile.
Qed.

Section RestoreKeeps.
Context {E : Externals} {B : Type}.

(** One record restored: a directory made, then one file written. *)
Lemma restoreFile_steps (encryption : option Encryption.t)
    (targetPath fileName : string) (fileData : FileData.t) (w w' : World B) :
  restoreFile encryption targetPath fileName fileData w = (Ok tt, w') ->
  exists data root1,
    fs_log w' = fs_log w
                ++ [OpEnsureDir (Path.dirname (Path.join targetPath fileName));
                    OpWriteFile (Path.join targetPath fileName) data]
    /\ Fs.mkdirp (Fs.segments (Path.dirname (Path.join targetPath fileName))) (fs w)
       = inr root1
    /\ Fs.write (Fs.segments (Path.join targetPath fileName)) data root1
       = inr (fs w').
Proof.
  unfold restoreFile. unfold try_catch at 1. unfold bind at 1.
  unfold fs_ensureDir at 1. unfold bind at 1, log_fs at 1, bind at 1, get_world at 1.
  cbn [fs].
  destruct (Fs.mkdirp _ (fs w)) as [c | root1] eqn:Hmk; [discriminate |].
  unfold set_fs at 1. cbn [fs_log fs].
  assert (Hwrite : forall data w1,
             fs w1 = root1 ->
             fs_log w1 = fs_log w
                         ++ [OpEnsureDir (Path.dirname (Path.join targetPath fileName))] ->
             fs_writeFile (Path.join targetPath fileName) data w1 = (Ok tt, w') ->
             exists data root1',
               fs_log w' = fs_log w
                 ++ [OpEnsureDir (Path.dirname (Path.join targetPath fileName));
                     OpWriteFile (Path.join targetPath fileName) data]
               /\ inr root1 = (inr root1' : Fs.code + node)
               /\ Fs.write (Fs.segments (Path.join targetPath fileName)) data root1'
                  = inr (fs w')).
  { intros data w1 Hfs Hlog. unfold fs_writeFile, bind, log_fs, get_world, set_fs.
    cbn [fs]. rewrite Hfs.
    destruct (Fs.write _ data root1) as [c | root2] eqn:Hw; [discriminate |].
    intros [= <-]. exists data, root1. cbn [fs_log fs]. rewrite Hlog, <- app_assoc.
    split; [reflexivity | split; [reflexivity | exact Hw]]. }
  destruct (if FileData.isEncrypted fileData && _ && _ then encryption else None)
    as [enc |].
  - unfold bind at 1. unfold Encryption.decrypt, of_result.
    destruct (decipher _ _ _ _ _) as [decrypted | e]; [| discriminate].
    match goal with |- context [fs_writeFile _ decrypted ?w1] =>
      destruct (fs_writeFile (Path.join targetPath fileName) decrypted w1)
        as [[[] | e] w2] eqn:Hw2; [| discriminate];
      intros [= <-]; apply (Hwrite decrypted w1); [reflexivity .. | exact Hw2]
    end.
  - destruct (bool_decide _ && _).
    + match goal with |- context [fs_writeFile _ ?d ?w1] =>
        destruct (fs_writeFile (Path.join targetPath fileName) d w1)
          as [[[] | e] w2] eqn:Hw2; [| discriminate];
        intros [= <-]; apply (Hwrite d w1); [reflexivity .. | exact Hw2]
      end.
    + destruct (bool_decide _ && _); [| discriminate].
      match goal with |- context [fs_writeFile _ ?d ?w1] =>
        destruct (fs_writeFile (Path.join targetPath fileName) d w1)
          as [[[] | e] w2] eqn:Hw2; [| discriminate];
        intros [= <-]; apply (Hwrite d w1); [reflexivity .. | exact Hw2]
      end.
Qed.

End RestoreKeeps.

Lemma writes_app (ops ops' : list FsOp) : writes (ops ++ ops') = writes ops ++ writes ops'.
Proof. apply omap_app. Qed.

Section RestoreKeeps2.
Context {E : Externals} {B : Type}.

Lemma restoreFile_keeps (encryption : option Encryption.t)
    (targetPath fileName : string) (fileData : FileData.t) (w w' : World B) :
  restoreFile encryption targetPath fileName fileData w = (Ok tt, w') ->
  exists data,
    fs_log w' = fs_log w
                ++ [OpEnsureDir (Path.dirname (Path.join targetPath fileName));
                    OpWriteFile (Path.join targetPath fileName) data]
    /\ Fs.lookup (Fs.segments (Path.join targetPath fileName)) (fs w')
       = inr (File data)
    /\ forall place content,
         place <> Fs.segments (Path.join targetPath fileName) ->
         Fs.lookup place (fs w) = inr (File content) ->
         Fs.lookup place (fs w') = inr (File content).
Proof.
  intros Hrun.
  destruct (restoreFile_steps _ _ _ _ _ _ Hrun) as (data & root1 & Hlog & Hmk & Hw).
  exists data. split; [exact Hlog |]. split.
  - eapply lookup_after_write. exact Hw.
  - intros place content Hne Hfile.
    eapply write_keeps_other_files; [exact Hw | exact Hne |].
    eapply mkdirp_keeps_files; eassumption.
Qed.

Lemma restoreFiles_keeps (encryption : option Encryption.t) (targetPath : string)
    (entries : list (string * FileData.t)) :
  forall w w' : World B,
    restoreFiles encryption targetPath entries w = (Ok tt, w') ->
    exists ops,
      fs_log w' = fs_log w ++ ops
      /\ map fst (writes ops)
         = map (fun entry : string * FileData.t => Path.join targetPath entry.1)
               entries
      /\ (forall place content,
             place ∉ written_places ops ->
             Fs.lookup place (fs w) = inr (File content) ->
             Fs.lookup place (fs w') = inr (File content))
      /\ (NoDup (written_places ops) ->
          forall path data,
            (path, data) ∈ writes ops ->
            Fs.lookup (Fs.segments path) (fs w') = inr (File data)).
Proof.
  induction entries as [| [fileName fileData] rest IH]; intros w w'.
  - simpl. unfold ret. intros [= <-]. exists [].
    rewrite app_nil_r. split; [reflexivity |]. split; [reflexivity |].
    split; [intros; assumption |].
    intros _ path data Hin. apply elem_of_nil in Hin. contradiction.
  - simpl. unfold bind at 1.
    destruct (restoreFile _ _ _ _ w) as [[[] | e] w1] eqn:Hfile; [| discriminate].
    intros Hrest.
    destruct (restoreFile_keeps _ _ _ _ _ _ Hfile) as (data & Hlog1 & Hthere & Hkept).
    destruct (IH w1 w' Hrest) as (ops & Hlog & Hpaths & Hkeep & Hstay).
    exists ([OpEnsureDir (Path.dirname (Path.join targetPath fileName));
             OpWriteFile (Path.join targetPath fileName) data] ++ ops).
    split; [rewrite Hlog, Hlog1, <- app_assoc; reflexivity |].
    unfold written_places in *. rewrite writes_app.
    change (writes [OpEnsureDir (Path.dirname (Path.join targetPath fileName));
                    OpWriteFile (Path.join targetPath fileName) data])
      with [(Path.join targetPath fileName, data)].
    cbn [app map fst].
    split; [rewrite Hpaths; reflexivity |]. split.
    + intros place content Hout Hfile0.
      apply not_elem_of_cons in Hout as [Hne Hout].
      apply Hkeep; [exact Hout |]. apply Hkept; assumption.
    + intros Hnodup path data' Hin.
      apply NoDup_cons in Hnodup as [Hfresh Hnodup].
      apply elem_of_cons in Hin as [[= -> ->] | Hin].
      * apply Hkeep; assumption.
      * apply Hstay; assumption.
Qed.

End RestoreKeeps2.

(** X22.  What [restore] writes stays, and nothing else is
    lost.  When [restore] returns [true], it has called [writeFile] once
    for every entry of the snapshot, on the entry's path joined to the
    target.  Every file whose place is none of these holds afterwards what
    it held when the backup was fetched; and if the places written are
    pairwise distinct, every file written holds at the end the data written
    to it. *)
Theorem restore_keeps_what_it_wrote_and_nothing_else_is_lost
    {E : Externals} {B : Type}
    (get_ : string -> M B (option BackupData.t))
    (hash targetPath : string) (options : BackupOptions.t)
    (w w1 w' : World B) (backup : BackupData.t) (data : Snapshot) :
  get get_ hash w = (Ok backup, w1) ->
  BackupData.data backup = Some data ->
  restore get_ hash targetPath options w = (Ok true, w') ->
  exists ops,
    fs_log w' = fs_log w1 ++ ops
    /\ map fst (writes ops)
       = map (fun entry : string * FileData.t => Path.join targetPath entry.1)
             (map_to_list data)
    /\ (forall path content,
           Fs.segments path ∉ written_places ops ->
           Fs.read (fs w1) path = Some content ->
           Fs.read (fs w') path = Some content)
    /\ (NoDup (written_places ops) ->
        forall path bytes,
          (path, bytes) ∈ writes ops -> Fs.read (fs w') path = Some bytes).
Proof.
  intros Hget Hdata Hrun. rewrite restore_run, Hget, Hdata in Hrun.
  unfold fs_ensureDir, bind, log_fs, get_world, set_fs in Hrun. cbn [fs] in Hrun.
  destruct (Fs.mkdirp (Fs.segments targetPath) (fs w1)) as [c | root1] eqn:Hmk;
    [discriminate |].
  match type of Hrun with
  | context [restoreFiles ?enc targetPath ?entries ?w2] =>
      destruct (restoreFiles enc targetPath entries w2) as [[[] | e] w3] eqn:Hfiles;
        [| discriminate];
      destruct (restoreFiles_keeps enc targetPath entries w2 w3 Hfiles)
        as (ops & Hlog & Hpaths & Hkeep & Hstay)
  end.
  injection Hrun as <-. cbn [fs fs_log] in Hlog, Hkeep.
  exists (OpEnsureDir targetPath :: ops).
  split; [rewrite Hlog, <- app_assoc; reflexivity |].
  unfold written_places in *.
  change (writes (OpEnsureDir targetPath :: ops)) with (writes ops).
  split; [exact Hpaths |]. split.
  - intros path content Hout. unfold Fs.read.
    destruct (Fs.lookup (Fs.segments path) (fs w1)) as [c | [content' | entries]]
      eqn:Hfile; try discriminate.
    intros [= ->].
    rewrite (Hkeep (Fs.segments path) content Hout
               (mkdirp_keeps_files _ _ _ _ _ Hmk Hfile)).
    reflexivity.
  - intros Hnodup path bytes Hin. unfold Fs.read.
    rewrite (Hstay Hnodup path bytes Hin). reflexivity.
Qed.

(** The backup of [data/a.txt], fetched and restored under [out]. *)
Lemma hello_is_restored :
  exists backup data w1 w',
    get LocalIpfs.get "cid-0" (world_after_backup tree_hello BackupOptions.none)
      = (Ok backup, w1)
    /\ BackupData.data backup = Some data
    /\ restore LocalIpfs.get "cid-0" "out" BackupOptions.none
               (world_after_backup tree_hello BackupOptions.none)
       = (Ok true, w').
Proof.
  do 4 eexists. split; [vm_compute; reflexivity |].
  split; [reflexivity |]. vm_compute. reflexivity.
Qed.

(** X22, on the backup of [data/a.txt] restored under
    [out]. *)
Lemma restore_keeps_what_it_wrote_and_nothing_else_is_lost_witness :
  exists (w1 w' : World LocalIpfs.Store) ops,
    fs_log w' = fs_log w1 ++ ops
    /\ (forall path content,
           Fs.segments path ∉ written_places ops ->
           Fs.read (fs w1) path = Some content ->
           Fs.read (fs w') path = Some content)
    /\ (NoDup (written_places ops) ->
        forall path bytes,
          (path, bytes) ∈ writes ops -> Fs.read (fs w') path = Some bytes).
Proof.
  destruct hello_is_restored as (backup & data & w1 & w' & Hget & Hdata & Hrun).
  destruct (restore_keeps_what_it_wrote_and_nothing_else_is_lost
              LocalIpfs.get "cid-0" "out" BackupOptions.none
              (world_after_backup tree_hello BackupOptions.none) w1 w'
              backup data Hget Hdata Hrun)
    as (ops & Hlog & _ & Hkeep & Hstay).
  exists w1, w', ops. split; [exact Hlog | split; assumption].
Defined.

(** ** The snapshot is the tree, and [restore] gives it back *)































Section Snapshot.
Context {E : Externals} {B : Type}.


End Snapshot.


















Section RestorePlain.
Context {E : Externals} {B : Type}.



End RestorePlain.




(** *** Sample inputs for the round trip *)

Section RoundTrip.
Context {E : Externals} {B : Type}.
Variable get_ : string -> M B (option BackupData.t).


End RoundTrip.



